(** * Cubic splines of StepMania: [src/CubicSpline.cpp]

    A shallow embedding of the spline solver, its solution cache, the
    evaluation functions and the N-dimensional bundle [CubicSplineN],
    followed by the properties established about them.

    Conventions of the embedding
    - C++ [float] is IEEE-754 binary32 with round-to-nearest-even,
      computed by the Standard Library's [SpecFloat] at precision 24.
    - [size_t] is a 64-bit unsigned integer, carried in [Z] with the
      wrap-around of a subtraction below zero and of the conversion of a
      negative [int] written out; [int] is a 32-bit signed integer.
    - [std::vector<T>] and [std::list<T>] are lists.  A subscript outside
      the vector, and a float-to-int conversion outside the range of
      [int], are undefined behaviour in C++ and are reported as
      [Undefined]; a failed [ASSERT_M] is reported as [AssertFailed].
    - The process-wide [solution_cache] is passed explicitly. *)

From Stdlib Require Import ZArith List Bool Lia.
From Stdlib Require Import Floats.SpecFloat.
Import ListNotations.
Local Open Scope Z_scope.

(* ================================================================== *)
(** ** Binary32 arithmetic *)
(* ================================================================== *)

Module F32.

Definition prec : Z := 24.
Definition emax : Z := 128.

Definition float : Type := spec_float.

Definition add : float -> float -> float := SFadd prec emax.
Definition sub : float -> float -> float := SFsub prec emax.
Definition mul : float -> float -> float := SFmul prec emax.
Definition div : float -> float -> float := SFdiv prec emax.
Definition neg : float -> float := SFopp.
Definition abs : float -> float := SFabs.

Definition ltb : float -> float -> bool := SFltb.
Definition leb : float -> float -> bool := SFleb.
Definition eqb : float -> float -> bool := SFeqb.
(** [a != b] is the negation of [a == b], hence true on NaN. *)
Definition neb (x y : float) : bool := negb (eqb x y).
(** [a >= b] *)
Definition geb (x y : float) : bool := leb y x.

Definition valid (x : float) : bool := valid_binary prec emax x.

Definition is_nan (x : float) : bool :=
  match x with S754_nan => true | _ => false end.

Definition is_zero (x : float) : bool :=
  match x with S754_zero _ => true | _ => false end.

(** Conversion of an integer, rounding to nearest. *)
Definition of_Z (z : Z) : float := binary_normalize prec emax z 0 false.

(** The literals of the source. *)
Definition zero : float := S754_zero false.          (* 0.0f *)
Definition one : float := Eval vm_compute in of_Z 1.   (* 1.0f *)
Definition two : float := Eval vm_compute in of_Z 2.   (* 2.0f *)
Definition three : float := Eval vm_compute in of_Z 3. (* 3 *)
Definition four : float := Eval vm_compute in of_Z 4.  (* 4.0f *)
Definition half : float := Eval vm_compute in div (of_Z 1) (of_Z 2). (* .5f *)

(** Truncation toward zero; nothing for NaN and the infinities. *)
Definition trunc (x : float) : option Z :=
  match x with
  | S754_zero _ => Some 0
  | S754_finite s m e =>
      let mag := match e with
                 | Zneg p => Z.shiftr (Zpos m) (Zpos p)
                 | _ => Z.shiftl (Zpos m) e
                 end in
      Some (if s then - mag else mag)
  | _ => None
  end.

Definition eq_dec (x y : float) : {x = y} + {x <> y}.
Proof.
  decide equality; auto using Pos.eq_dec, Z.eq_dec, Bool.bool_dec.
Defined.

(** The same number: equal, or two zeros of either sign. *)
Definition same_number (x y : float) : Prop :=
  x = y \/ (is_zero x = true /\ is_zero y = true).

End F32.

Abbreviation float := F32.float.

(* ================================================================== *)
(** ** Machine integers *)
(* ================================================================== *)

Definition INT_MIN : Z := - 2 ^ 31.
Definition INT_MAX : Z := 2 ^ 31 - 1.
Definition SIZE_MODULUS : Z := 2 ^ 64.

(** [x - y] on [size_t]: the difference wraps around below zero. *)
Definition size_sub (x y : Z) : Z :=
  if y <=? x then x - y else x - y + SIZE_MODULUS.

(** [static_cast<size_t>(i)] for an [int] i: negative values wrap around. *)
Definition size_of_int (i : Z) : Z :=
  if 0 <=? i then i else i + SIZE_MODULUS.

(* ================================================================== *)
(** ** Results of running a piece of the program *)
(* ================================================================== *)

Inductive result (A : Type) : Type :=
| Ok (a : A)
| Undefined      (* undefined behaviour: subscript or conversion out of range *)
| AssertFailed   (* an ASSERT_M did not hold *)
| OutOfFuel.     (* a [while] loop was cut off *)

Arguments Ok {A} a.
Arguments Undefined {A}.
Arguments AssertFailed {A}.
Arguments OutOfFuel {A}.

Definition bind {A B : Type} (r : result A) (k : A -> result B) : result B :=
  match r with
  | Ok a => k a
  | Undefined => Undefined
  | AssertFailed => AssertFailed
  | OutOfFuel => OutOfFuel
  end.

Notation "x <- e ;; k" := (bind e (fun x => k))
  (at level 61, e at next level, right associativity).
Notation "' p <- e ;; k" := (bind e (fun x => let p := x in k))
  (at level 61, p pattern, e at next level, right associativity).

Definition assert_m (b : bool) : result unit :=
  if b then Ok tt else AssertFailed.

(** [static_cast<int>(t)]: truncation, undefined outside of [int]. *)
Definition static_cast_int (t : float) : result Z :=
  match F32.trunc t with
  | Some z => if (INT_MIN <=? z) && (z <=? INT_MAX) then Ok z else Undefined
  | None => Undefined
  end.

(* ================================================================== *)
(** ** Vectors and counted loops *)
(* ================================================================== *)

Definition vsize {A : Type} (v : list A) : Z := Z.of_nat (length v).

Fixpoint upd {A : Type} (v : list A) (i : nat) (x : A) : list A :=
  match v, i with
  | [], _ => []
  | _ :: t, O => x :: t
  | h :: t, S j => h :: upd t j x
  end.

(** [v[i]] read. *)
Definition vget {A : Type} (v : list A) (i : Z) : result A :=
  if (0 <=? i) && (i <? vsize v)
  then match nth_error v (Z.to_nat i) with
       | Some x => Ok x
       | None => Undefined
       end
  else Undefined.

(** [v[i] = x]. *)
Definition vset {A : Type} (v : list A) (i : Z) (x : A) : result (list A) :=
  if (0 <=? i) && (i <? vsize v) then Ok (upd v (Z.to_nat i) x) else Undefined.

(** [v.resize(s)] with [fill] as the value-initialised element. *)
Definition vresize {A : Type} (fill : A) (v : list A) (s : Z) : list A :=
  firstn (Z.to_nat s) v ++ repeat fill (Z.to_nat s - length v).

(** [cnt] iterations of [body], the index starting at [i]. *)
Fixpoint for_loop {S : Type} (cnt : nat) (i : Z)
         (body : Z -> S -> result S) (s : S) : result S :=
  match cnt with
  | O => Ok s
  | Datatypes.S k => s' <- body i s ;; for_loop k (i + 1) body s'
  end.

(** [for (size_t i = lo; i < hi; ++i) body] *)
Definition for_range {S : Type} (lo hi : Z)
           (body : Z -> S -> result S) (s : S) : result S :=
  for_loop (Z.to_nat (hi - lo)) lo body s.

(** A loop over the iterators of a container, from [begin()] to [end()],
    the elements being rewritten in place. *)
Fixpoint for_each {S A : Type} (body : S -> A -> result (S * A))
         (s : S) (l : list A) : result (S * list A) :=
  match l with
  | [] => Ok (s, [])
  | x :: t =>
      '(s1, x') <- body s x ;;
      '(s2, t') <- for_each body s1 t ;;
      Ok (s2, x' :: t')
  end.

(** [v[i].field = ...]: an element rewritten in place. *)
Definition vmodify {A : Type} (v : list A) (i : Z) (f : A -> A)
  : result (list A) :=
  x <- vget v i ;; vset v i (f x).

(* ================================================================== *)
(** ** [loop_space_difference] (lines 137-146) *)
(* ================================================================== *)

(** [abs] is the magnitude of a [float] ([global.h], which selects the
    overload, is not part of the excerpt). *)
Definition loop_space_difference (a b spatial_extent : float) : float :=
  let plus_diff := F32.sub a (F32.add b spatial_extent) in
  let minus_diff := F32.sub a (F32.sub b spatial_extent) in
  if F32.ltb (F32.abs plus_diff) (F32.abs minus_diff)
  then plus_diff
  else minus_diff.

(* ================================================================== *)
(** ** [SplineSolutionCache] (lines 20-127) *)
(* ================================================================== *)

Module SplineSolutionCache.

Record t : Type := {
  straight_diagonals : list (list float);
  looped_diagonals : list (list float)
}.

(** The global [solution_cache] when the program starts. *)
Definition initial : t :=
  {| straight_diagonals := []; looped_diagonals := [] |}.

Definition solution_cache_limit : Z := 16.

(** Lines 34-50.  The result is the returned flag and [out]. *)
Fixpoint find_in_cache (cache : list (list float)) (out : list float)
  : result (bool * list float) :=
  let out_size := vsize out in
  match cache with
  | [] => Ok (false, out)
  | entry :: rest =>
      if out_size =? vsize entry
      then
        out' <- for_range 0 out_size
                  (fun i out => x <- vget entry i ;; vset out i x) out ;;
        Ok (true, out')
      else find_in_cache rest out
  end.

(** Lines 52-59: [pop_back] when the limit is reached, [push_front]. *)
Definition add_to_cache (cache : list (list float)) (out : list float)
  : list (list float) :=
  let cache :=
    if solution_cache_limit <=? vsize cache then removelast cache else cache
  in out :: cache.

(** Lines 61-67. *)
Definition prep_inner (last : Z) (out : list float) : result (list float) :=
  for_range 1 last (fun i out => vset out i F32.four) out.

(** Lines 75-85: the computation of [solve_diagonals_straight] once the
    lookup has failed. *)
Definition straight_elimination (diagonals : list float)
  : result (list float) :=
  let last := vsize diagonals in
  diagonals <- vset diagonals 0 F32.two ;;
  diagonals <- prep_inner (size_sub last 1) diagonals ;;
  diagonals <- vset diagonals (size_sub last 1) F32.two ;;
  d1 <- vget diagonals 1 ;;
  diagonals <- vset diagonals 1 (F32.sub d1 F32.half) ;;
  for_range 1 (size_sub last 1)
    (fun i diagonals =>
       di <- vget diagonals i ;;
       dn <- vget diagonals (i + 1) ;;
       vset diagonals (i + 1) (F32.sub dn (F32.div F32.one di)))
    diagonals.

(** Lines 69-88. *)
Definition solve_diagonals_straight (sc : t) (diagonals : list float)
  : result (t * list float) :=
  '(found, diagonals) <- find_in_cache (straight_diagonals sc) diagonals ;;
  if found : bool then Ok (sc, diagonals)
  else
    diagonals <- straight_elimination diagonals ;;
    Ok ({| straight_diagonals :=
             add_to_cache (straight_diagonals sc) diagonals;
           looped_diagonals := looped_diagonals sc |},
        diagonals).

(** Lines 106-121: one turn of the loop of [solve_diagonals_looped]. *)
Definition looped_step (end_ : Z) (i : Z)
           (st : list float * float * float)
  : result (list float * float * float) :=
  let '(diagonals, cedge, redge) := st in
  let next_cedge := F32.zero in
  let next_redge := F32.zero in
  di <- vget diagonals i ;;
  let diag_recip := F32.div F32.one di in
  dn <- vget diagonals (i + 1) ;;
  diagonals <- vset diagonals (i + 1) (F32.sub dn diag_recip) ;;
  let next_redge := F32.sub next_redge (F32.mul redge diag_recip) in
  let next_cedge := F32.sub next_cedge (F32.mul cedge diag_recip) in
  di <- vget diagonals i ;;
  de <- vget diagonals end_ ;;
  diagonals <- vset diagonals end_
                 (F32.sub de (F32.mul redge (F32.div cedge di))) ;;
  Ok (diagonals, next_cedge, next_redge).

(** Lines 96-124: the computation of [solve_diagonals_looped] once the
    lookup has failed. *)
Definition looped_elimination (diagonals : list float)
  : result (list float) :=
  let last := vsize diagonals in
  diagonals <- vset diagonals 0 F32.four ;;
  diagonals <- prep_inner last diagonals ;;
  let end_ := size_sub last 1 in
  let stop := size_sub end_ 1 in
  '(diagonals, cedge, redge) <-
    for_range 0 stop (looped_step end_) (diagonals, F32.one, F32.one) ;;
  ds <- vget diagonals stop ;;
  de <- vget diagonals end_ ;;
  vset diagonals end_
    (F32.sub de (F32.mul redge (F32.div (F32.sub F32.one cedge) ds))).

(** Lines 90-127. *)
Definition solve_diagonals_looped (sc : t) (diagonals : list float)
  : result (t * list float) :=
  '(found, diagonals) <- find_in_cache (looped_diagonals sc) diagonals ;;
  if found : bool then Ok (sc, diagonals)
  else
    diagonals <- looped_elimination diagonals ;;
    Ok ({| straight_diagonals := straight_diagonals sc;
           looped_diagonals :=
             add_to_cache (looped_diagonals sc) diagonals |},
        diagonals).

End SplineSolutionCache.

(* ================================================================== *)
(** ** [CubicSpline] (lines 148-397) *)
(* ================================================================== *)

Module CubicSpline.

(** Modelled from the spec: [CubicSpline.h], absent from the excerpt,
    declares the control point (a value [a] and the solved coefficients
    [b], [c], [d]) and the spline (its points and its spatial extent,
    0 when constructed). *)
Record SplinePoint : Type := {
  a : float;
  b : float;
  c : float;
  d : float
}.

Record t : Type := {
  m_points : list SplinePoint;
  m_spatial_extent : float
}.

(** A value-initialised point, as [resize] creates them. *)
Definition zero_point : SplinePoint :=
  {| a := F32.zero; b := F32.zero; c := F32.zero; d := F32.zero |}.

(** A default-constructed spline. *)
Definition empty_spline : t :=
  {| m_points := []; m_spatial_extent := F32.zero |}.

Definition with_points (s : t) (pts : list SplinePoint) : t :=
  {| m_points := pts; m_spatial_extent := m_spatial_extent s |}.

Definition set_a (v : float) (p : SplinePoint) : SplinePoint :=
  {| a := v; b := b p; c := c p; d := d p |}.

Definition set_bcd (vb vc vd : float) (p : SplinePoint) : SplinePoint :=
  {| a := a p; b := vb; c := vc; d := vd |}.

(** Lines 237-264.  The result is the spline afterwards and the flag. *)
Definition check_minimum_size (s : t) : result (t * bool) :=
  let pts := m_points s in
  let ext := m_spatial_extent s in
  let last := vsize pts in
  if last <? 2 then
    pts <- vmodify pts 0 (set_bcd F32.zero F32.zero F32.zero) ;;
    Ok (with_points s pts, true)
  else if last =? 2 then
    p0 <- vget pts 0 ;;
    p1 <- vget pts 1 ;;
    pts <- vset pts 0
             (set_bcd (loop_space_difference (a p1) (a p0) ext)
                      F32.zero F32.zero p0) ;;
    p0 <- vget pts 0 ;;
    p1 <- vget pts 1 ;;
    pts <- vset pts 1
             (set_bcd (loop_space_difference (a p0) (a p1) ext)
                      F32.zero F32.zero p1) ;;
    Ok (with_points s pts, true)
  else
    p0 <- vget pts 0 ;;
    let a0 := a p0 in
    '(pts, all_points_identical) <-
      for_range 1 (vsize pts)
        (fun i '(pts, all_points_identical) =>
           pts <- vmodify pts i (set_bcd F32.zero F32.zero F32.zero) ;;
           pi <- vget pts i ;;
           Ok (pts, if F32.neb (a pi) a0 then false
                    else all_points_identical))
        (pts, true) ;;
    Ok (with_points s pts, all_points_identical).

(** Lines 266-273. *)
Definition prep_inner (s : t) (last : Z) (results : list float)
  : result (list float) :=
  for_range 1 (size_sub last 1)
    (fun i results =>
       pn <- vget (m_points s) (i + 1) ;;
       pp <- vget (m_points s) (i - 1) ;;
       vset results i
         (F32.mul F32.three
            (loop_space_difference (a pn) (a pp) (m_spatial_extent s))))
    results.

(** [UNNAN(n)]: [if (n != n) n = 0.0f]. *)
Definition unnan (n : float) : float :=
  if F32.neb n n then F32.zero else n.

(** Lines 275-299. *)
Definition set_results (s : t) (last : Z) (diagonals results : list float)
  : result t :=
  results <-
    for_range 0 last
      (fun i results =>
         ri <- vget results i ;;
         di <- vget diagonals i ;;
         vset results i (F32.div ri di))
      results ;;
  pts <-
    for_range 0 last
      (fun i pts =>
         let next := (i + 1) mod last in
         pn <- vget pts next ;;
         pi <- vget pts i ;;
         let diff :=
           loop_space_difference (a pn) (a pi) (m_spatial_extent s) in
         ri <- vget results i ;;
         rn <- vget results next ;;
         let vb := ri in
         let vc := F32.sub (F32.sub (F32.mul F32.three diff)
                                    (F32.mul F32.two ri)) rn in
         let vd := F32.add (F32.add (F32.mul F32.two (F32.neg diff)) ri)
                           rn in
         vset pts i (set_bcd (unnan vb) (unnan vc) (unnan vd) pi))
      (m_points s) ;;
  Ok (with_points s pts).

(** Lines 183-198: one turn of the loop of [solve_looped]. *)
Definition looped_step (diagonals : list float) (end_ : Z) (i : Z)
           (st : list float * float * float)
  : result (list float * float * float) :=
  let '(results, cedge, redge) := st in
  let next_cedge := F32.zero in
  let next_redge := F32.zero in
  di <- vget diagonals i ;;
  let diag_recip := F32.div F32.one di in
  let next_redge := F32.sub next_redge (F32.mul redge diag_recip) in
  rn <- vget results (i + 1) ;;
  ri <- vget results i ;;
  results <- vset results (i + 1) (F32.sub rn (F32.mul ri diag_recip)) ;;
  let next_cedge := F32.sub next_cedge (F32.mul cedge diag_recip) in
  re <- vget results end_ ;;
  ri <- vget results i ;;
  results <- vset results end_
               (F32.sub re (F32.mul ri (F32.div redge di))) ;;
  Ok (results, next_cedge, next_redge).

(** Lines 148-204. *)
Definition solve_looped (sc : SplineSolutionCache.t) (s : t)
  : result (SplineSolutionCache.t * t) :=
  '(s, solved) <- check_minimum_size s ;;
  if solved : bool then Ok (sc, s)
  else
    let pts := m_points s in
    let ext := m_spatial_extent s in
    let last := vsize pts in
    let results := repeat F32.zero (length pts) in
    let diagonals := repeat F32.zero (length pts) in
    '(sc, diagonals) <-
      SplineSolutionCache.solve_diagonals_looped sc diagonals ;;
    p1 <- vget pts 1 ;;
    pl <- vget pts (size_sub last 1) ;;
    results <- vset results 0
                 (F32.mul F32.three
                    (loop_space_difference (a p1) (a pl) ext)) ;;
    results <- prep_inner s last results ;;
    p0 <- vget pts 0 ;;
    pl2 <- vget pts (size_sub last 2) ;;
    results <- vset results (size_sub last 1)
                 (F32.mul F32.three
                    (loop_space_difference (a p0) (a pl2) ext)) ;;
    let end_ := size_sub last 1 in
    let stop := size_sub end_ 1 in
    '(results, cedge, redge) <-
      for_range 0 stop (looped_step diagonals end_)
        (results, F32.one, F32.one) ;;
    re <- vget results end_ ;;
    rs <- vget results stop ;;
    ds <- vget diagonals stop ;;
    results <- vset results end_
                 (F32.sub re
                    (F32.mul rs (F32.div (F32.sub F32.one redge) ds))) ;;
    s <- set_results s last diagonals results ;;
    Ok (sc, s).

(** Lines 228-233: the operations of [solve_straight] on [results]. *)
Definition straight_elimination (last : Z) (diagonals results : list float)
  : result (list float) :=
  r1 <- vget results 1 ;;
  r0 <- vget results 0 ;;
  results <- vset results 1 (F32.sub r1 (F32.mul r0 F32.half)) ;;
  for_range 1 (size_sub last 1)
    (fun i results =>
       ri <- vget results i ;;
       rp <- vget results (size_sub i 1) ;;
       di <- vget diagonals i ;;
       vset results i
         (F32.sub ri (F32.mul rp (F32.div F32.one di))))
    results.

(** Lines 206-235. *)
Definition solve_straight (sc : SplineSolutionCache.t) (s : t)
  : result (SplineSolutionCache.t * t) :=
  '(s, solved) <- check_minimum_size s ;;
  if solved : bool then Ok (sc, s)
  else
    let pts := m_points s in
    let ext := m_spatial_extent s in
    let last := vsize pts in
    let results := repeat F32.zero (length pts) in
    let diagonals := repeat F32.zero (length pts) in
    '(sc, diagonals) <-
      SplineSolutionCache.solve_diagonals_straight sc diagonals ;;
    p1 <- vget pts 1 ;;
    p0 <- vget pts 0 ;;
    results <- vset results 0
                 (F32.mul F32.three (F32.sub (a p1) (a p0))) ;;
    results <- prep_inner s last results ;;
    pl <- vget pts (size_sub last 1) ;;
    pl2 <- vget pts (size_sub last 2) ;;
    results <- vset results (size_sub last 1)
                 (F32.mul F32.three
                    (loop_space_difference (a pl) (a pl2) ext)) ;;
    results <- straight_elimination last diagonals results ;;
    s <- set_results s last diagonals results ;;
    Ok (sc, s).

(** [while(t >= max_t) { t-= max_t; }] *)
Fixpoint wrap_down (fuel : nat) (t max_t : float) : result float :=
  if F32.geb t max_t then
    match fuel with
    | O => OutOfFuel
    | S k => wrap_down k (F32.sub t max_t) max_t
    end
  else Ok t.

(** [while(t < 0.0f) { t+= max_t; }] *)
Fixpoint wrap_up (fuel : nat) (t max_t : float) : result float :=
  if F32.ltb t F32.zero then
    match fuel with
    | O => OutOfFuel
    | S k => wrap_up k (F32.add t max_t) max_t
    end
  else Ok t.

(** Lines 326-331: the polynomial of [evaluate]. *)
Definition evaluate_segment (pts : list SplinePoint) (t : float) (flort : Z)
  : result float :=
  let p := Z.min (size_of_int flort) (size_sub (vsize pts) 1) in
  let tfrac := F32.sub t (F32.of_Z flort) in
  let tsq := F32.mul tfrac tfrac in
  let tcub := F32.mul tsq tfrac in
  pt <- vget pts p ;;
  Ok (F32.add
        (F32.add (F32.add (a pt) (F32.mul (b pt) tfrac))
                 (F32.mul (c pt) tsq))
        (F32.mul (d pt) tcub)).

(** Lines 301-332.  [fuel] bounds the two [while] loops of the looped
    case. *)
Definition evaluate (fuel : nat) (s : t) (t : float) (loop : bool)
  : result float :=
  let pts := m_points s in
  if vsize pts =? 0 then Ok F32.zero
  else
    flort <- static_cast_int t ;;
    if loop then
      let max_t := F32.of_Z (vsize pts) in
      t <- wrap_down fuel t max_t ;;
      t <- wrap_up fuel t max_t ;;
      flort <- static_cast_int t ;;
      evaluate_segment pts t flort
    else if flort <=? 0 then
      p0 <- vget pts 0 ;; Ok (a p0)
    else if size_sub (vsize pts) 1 <=? size_of_int flort then
      pl <- vget pts (size_sub (vsize pts) 1) ;; Ok (a pl)
    else evaluate_segment pts t flort.

(** Lines 355-359: the polynomial of [evaluate_derivative]. *)
Definition evaluate_derivative_segment (pts : list SplinePoint) (t : float)
           (flort : Z) : result float :=
  let p := Z.min (size_of_int flort) (size_sub (vsize pts) 1) in
  let tfrac := F32.sub t (F32.of_Z flort) in
  let tsq := F32.mul tfrac tfrac in
  pt <- vget pts p ;;
  Ok (F32.add
        (F32.add (b pt) (F32.mul (F32.mul F32.two (c pt)) tfrac))
        (F32.mul (F32.mul F32.three (d pt)) tsq)).

(** Lines 334-360. *)
Definition evaluate_derivative (fuel : nat) (s : t) (t : float)
           (loop : bool) : result float :=
  let pts := m_points s in
  if vsize pts =? 0 then Ok F32.zero
  else
    flort <- static_cast_int t ;;
    if loop then
      let max_t := F32.of_Z (vsize pts) in
      t <- wrap_down fuel t max_t ;;
      t <- wrap_up fuel t max_t ;;
      flort <- static_cast_int t ;;
      evaluate_derivative_segment pts t flort
    else if size_sub (vsize pts) 1 <=? size_of_int flort then
      Ok F32.zero
    else evaluate_derivative_segment pts t flort.

(** Lines 362-366. *)
Definition set_point (s : t) (i : Z) (v : float) : result t :=
  _ <- assert_m (i <? vsize (m_points s)) ;;
  pts <- vmodify (m_points s) i (set_a v) ;;
  Ok (with_points s pts).

(** Lines 368-374. *)
Definition set_coefficients (s : t) (i : Z) (vb vc vd : float) : result t :=
  _ <- assert_m (i <? vsize (m_points s)) ;;
  pts <- vmodify (m_points s) i (set_bcd vb vc vd) ;;
  Ok (with_points s pts).

(** Lines 376-382. *)
Definition get_coefficients (s : t) (i : Z)
  : result (float * float * float) :=
  _ <- assert_m (i <? vsize (m_points s)) ;;
  p <- vget (m_points s) i ;;
  Ok (b p, c p, d p).

(** Lines 384-387. *)
Definition resize (s : t) (n : Z) : t :=
  with_points s (vresize zero_point (m_points s) n).

(** Lines 389-392. *)
Definition size (s : t) : Z := vsize (m_points s).

(** Lines 394-397. *)
Definition empty (s : t) : bool := vsize (m_points s) =? 0.

End CubicSpline.

(* ================================================================== *)
(** ** [CubicSplineN] (lines 399-522) *)
(* ================================================================== *)

Module CubicSplineN.

(** Modelled from the spec: the members declared in [CubicSpline.h]
    (absent): the splines, one per dimension, the [loop] flag and the
    [m_dirty] flag.  A bundle is constructed without splines. *)
Record t : Type := {
  m_splines : list CubicSpline.t;
  loop : bool;
  m_dirty : bool
}.

Definition initial : t :=
  {| m_splines := []; loop := false; m_dirty := true |}.

Definition with_splines (p : t) (l : list CubicSpline.t) (dirty : bool) : t :=
  {| m_splines := l; loop := loop p; m_dirty := dirty |}.

(** Lines 399-419. *)
Definition solve (sc : SplineSolutionCache.t) (p : t)
  : result (SplineSolutionCache.t * t) :=
  if negb (m_dirty p) then Ok (sc, p)
  else
    '(sc, splines) <-
      (if loop p
       then for_each CubicSpline.solve_looped sc (m_splines p)
       else for_each CubicSpline.solve_straight sc (m_splines p)) ;;
    Ok (sc, with_splines p splines false).

(** Lines 421-428: the values are pushed onto [v]. *)
Fixpoint evaluate_onto (fuel : nat) (splines : list CubicSpline.t)
         (lp : bool) (t : float) (v : list float) : result (list float) :=
  match splines with
  | [] => Ok v
  | s :: rest =>
      x <- CubicSpline.evaluate fuel s t lp ;;
      evaluate_onto fuel rest lp t (v ++ [x])
  end.

Definition evaluate (fuel : nat) (p : t) (t : float) (v : list float)
  : result (list float) :=
  evaluate_onto fuel (m_splines p) (loop p) t v.

(** Lines 430-437. *)
Fixpoint evaluate_derivative_onto (fuel : nat) (splines : list CubicSpline.t)
         (lp : bool) (t : float) (v : list float) : result (list float) :=
  match splines with
  | [] => Ok v
  | s :: rest =>
      x <- CubicSpline.evaluate_derivative fuel s t lp ;;
      evaluate_derivative_onto fuel rest lp t (v ++ [x])
  end.

Definition evaluate_derivative (fuel : nat) (p : t) (t : float)
           (v : list float) : result (list float) :=
  evaluate_derivative_onto fuel (m_splines p) (loop p) t v.

(** Lines 439-447. *)
Definition set_point (p : t) (i : Z) (v : list float) : result t :=
  _ <- assert_m (vsize v =? vsize (m_splines p)) ;;
  splines <-
    for_range 0 (vsize (m_splines p))
      (fun n splines =>
         s <- vget splines n ;;
         x <- vget v n ;;
         s <- CubicSpline.set_point s i x ;;
         vset splines n s)
      (m_splines p) ;;
  Ok (with_splines p splines true).

(** Lines 449-460. *)
Definition set_coefficients (p : t) (i : Z) (vb vc vd : list float)
  : result t :=
  _ <- assert_m ((vsize vb =? vsize vc) && (vsize vc =? vsize vd)
                 && (vsize vd =? vsize (m_splines p))) ;;
  splines <-
    for_range 0 (vsize (m_splines p))
      (fun n splines =>
         s <- vget splines n ;;
         xb <- vget vb n ;;
         xc <- vget vc n ;;
         xd <- vget vd n ;;
         s <- CubicSpline.set_coefficients s i xb xc xd ;;
         vset splines n s)
      (m_splines p) ;;
  Ok (with_splines p splines true).

(** Lines 462-472: the coefficients are written into the three vectors
    passed by reference. *)
Definition get_coefficients (p : t) (i : Z)
           (vb vc vd : list float)
  : result (list float * list float * list float) :=
  _ <- assert_m ((vsize vb =? vsize vc) && (vsize vc =? vsize vd)
                 && (vsize vd =? vsize (m_splines p))) ;;
  for_range 0 (vsize (m_splines p))
    (fun n '(vb, vc, vd) =>
       s <- vget (m_splines p) n ;;
       '(xb, xc, xd) <- CubicSpline.get_coefficients s i ;;
       vb <- vset vb n xb ;;
       vc <- vset vc n xc ;;
       vd <- vset vd n xd ;;
       Ok (vb, vc, vd))
    (vb, vc, vd).

(** Lines 474-480. *)
Definition set_spatial_extent (p : t) (i : Z) (extent : float) : result t :=
  _ <- assert_m (i <? vsize (m_splines p)) ;;
  splines <-
    vmodify (m_splines p) i
      (fun s => {| CubicSpline.m_points := CubicSpline.m_points s;
                   CubicSpline.m_spatial_extent := extent |}) ;;
  Ok (with_splines p splines true).

(** Lines 482-487. *)
Definition get_spatial_extent (p : t) (i : Z) : result float :=
  _ <- assert_m (i <? vsize (m_splines p)) ;;
  s <- vget (m_splines p) i ;;
  Ok (CubicSpline.m_spatial_extent s).

(** Lines 489-497. *)
Definition resize (p : t) (s : Z) : t :=
  with_splines p (map (fun spline => CubicSpline.resize spline s)
                      (m_splines p)) true.

(** Lines 499-506. *)
Definition size (p : t) : Z :=
  match m_splines p with
  | s :: _ => CubicSpline.size s
  | [] => 0
  end.

(** Lines 508-511. *)
Definition empty (p : t) : bool :=
  match m_splines p with
  | s :: _ => CubicSpline.empty s
  | [] => true
  end.

(** Lines 513-517: new dimensions are default-constructed splines. *)
Definition redimension (p : t) (d : Z) : t :=
  with_splines p (vresize CubicSpline.empty_spline (m_splines p) d) true.

(** Lines 519-522. *)
Definition dimension (p : t) : Z := vsize (m_splines p).

(** All member splines have the same number of points. *)
Definition uniform (p : t) : Prop :=
  forall s1 s2, In s1 (m_splines p) -> In s2 (m_splines p) ->
                CubicSpline.size s1 = CubicSpline.size s2.

(** The operations of the bundle that change it. *)
Inductive operation : Type :=
| OpSetPoint (i : Z) (v : list float)
| OpSetCoefficients (i : Z) (vb vc vd : list float)
| OpSetSpatialExtent (i : Z) (extent : float)
| OpResize (s : Z)
| OpRedimension (d : Z)
| OpSolve.

Definition run (sc : SplineSolutionCache.t) (p : t) (op : operation)
  : result (SplineSolutionCache.t * t) :=
  match op with
  | OpSetPoint i v => p <- set_point p i v ;; Ok (sc, p)
  | OpSetCoefficients i vb vc vd =>
      p <- set_coefficients p i vb vc vd ;; Ok (sc, p)
  | OpSetSpatialExtent i e => p <- set_spatial_extent p i e ;; Ok (sc, p)
  | OpResize s => Ok (sc, resize p s)
  | OpRedimension d => Ok (sc, redimension p d)
  | OpSolve => solve sc p
  end.

(** The states a bundle reaches from its construction. *)
Fixpoint run_all (sc : SplineSolutionCache.t) (p : t) (ops : list operation)
  : result (SplineSolutionCache.t * t) :=
  match ops with
  | [] => Ok (sc, p)
  | op :: rest => '(sc, p) <- run sc p op ;; run_all sc p rest
  end.

End CubicSplineN.

(* ================================================================== *)
(** ** The eliminations as the specification words them *)
(* ================================================================== *)

Module Spec.

(** Reading a vector inside its bounds. *)
Definition at_ (v : list float) (i : nat) : float := nth i v S754_nan.

(** The periodic elimination: at step [i], [recip = 1/d[i]];
    [d[i+1] -= recip]; [d[n-1] -= redge * (cedge * recip)];
    [cedge' = -cedge * recip]; [redge' = -redge * recip]. *)
Fixpoint periodic_steps (cnt i n : nat) (st : list float * float * float)
  : list float * float * float :=
  match cnt with
  | O => st
  | S k =>
      let '(d, cedge, redge) := st in
      let recip := F32.div F32.one (at_ d i) in
      let d := upd d (i + 1) (F32.sub (at_ d (i + 1)) recip) in
      let d := upd d (n - 1)
                   (F32.sub (at_ d (n - 1))
                            (F32.mul redge (F32.mul cedge recip))) in
      periodic_steps k (i + 1) n
        (d, F32.neg (F32.mul cedge recip), F32.neg (F32.mul redge recip))
  end.

(** Steps [0..n-3] from [cedge = redge = 1], then the final correction
    [d[n-1] -= redge * ((1 - cedge) / d[n-2])]. *)
Definition periodic_elimination (d : list float) : list float :=
  let n := length d in
  let '(d, cedge, redge) :=
    periodic_steps (n - 2) 0 n (d, F32.one, F32.one) in
  upd d (n - 1)
      (F32.sub (at_ d (n - 1))
               (F32.mul redge
                        (F32.div (F32.sub F32.one cedge) (at_ d (n - 2))))).

(** The open elimination of the right-hand side, mirroring the one of
    the diagonal: [rhs[1] -= rhs[0] * 0.5], then for [i] from 1 to
    [n-2], [rhs[i+1] -= rhs[i] / d[i]]. *)
Fixpoint open_rhs_steps (cnt i : nat) (d rhs : list float) : list float :=
  match cnt with
  | O => rhs
  | S k =>
      open_rhs_steps k (i + 1) d
        (upd rhs (i + 1)
             (F32.sub (at_ rhs (i + 1)) (F32.div (at_ rhs i) (at_ d i))))
  end.

Definition open_rhs_elimination (d rhs : list float) : list float :=
  let rhs := upd rhs 1 (F32.sub (at_ rhs 1) (F32.mul (at_ rhs 0) F32.half)) in
  open_rhs_steps (length rhs - 2) 1 d rhs.

End Spec.

(* ================================================================== *)
(** ** Derived notions about the cache *)
(* ================================================================== *)

(** The diagonals of a result, the cache left aside. *)
Definition diagonals_of (r : result (SplineSolutionCache.t * list float))
  : result (list float) :=
  '(_, d) <- r ;; Ok d.

(** The states of the cache that the program reaches: it starts empty and
    only the two solvers touch it. *)
Inductive reachable : SplineSolutionCache.t -> Prop :=
| reachable_initial : reachable SplineSolutionCache.initial
| reachable_straight sc d sc' d' :
    reachable sc ->
    SplineSolutionCache.solve_diagonals_straight sc d = Ok (sc', d') ->
    reachable sc'
| reachable_looped sc d sc' d' :
    reachable sc ->
    SplineSolutionCache.solve_diagonals_looped sc d = Ok (sc', d') ->
    reachable sc'.

(** Inserting the vectors of [ins] one after the other. *)
Definition insert_all (cache : list (list float)) (ins : list (list float))
  : list (list float) :=
  fold_left SplineSolutionCache.add_to_cache ins cache.

(** A vector holds at most [PTRDIFF_MAX / sizeof(SplinePoint)] points. *)
Definition max_points : Z := 2 ^ 59.

(* ================================================================== *)
(** ** Notions used by the proofs *)
(* ================================================================== *)

Import SplineSolutionCache.

(** The vector on which the open elimination starts. *)
Definition straight_init (n : nat) : list float :=
  F32.two :: repeat F32.four (n - 2) ++ [F32.two].

(** Lines 80-85 on that vector. *)
Definition straight_forward (n : nat) : result (list float) :=
  let diagonals := straight_init n in
  d1 <- vget diagonals 1 ;;
  diagonals <- vset diagonals 1 (F32.sub d1 F32.half) ;;
  for_range 1 (Z.of_nat n - 1)
    (fun i diagonals =>
       di <- vget diagonals i ;;
       dn <- vget diagonals (i + 1) ;;
       vset diagonals (i + 1) (F32.sub dn (F32.div F32.one di)))
    diagonals.

(** What one turn of the periodic elimination works on: the diagonal
    entry it divides by, the two edge values and the last diagonal. *)
Record edge_state : Type := {
  es_diag : float;
  es_cedge : float;
  es_redge : float;
  es_last : float
}.

(** One turn as the source computes it. *)
Definition code_turn (s : edge_state) : edge_state :=
  let recip := F32.div F32.one (es_diag s) in
  {| es_diag := F32.sub F32.four recip;
     es_cedge := F32.sub F32.zero (F32.mul (es_cedge s) recip);
     es_redge := F32.sub F32.zero (F32.mul (es_redge s) recip);
     es_last := F32.sub (es_last s)
                        (F32.mul (es_redge s)
                                 (F32.div (es_cedge s) (es_diag s))) |}.

(** One turn as the specification words it. *)
Definition spec_turn (s : edge_state) : edge_state :=
  let recip := F32.div F32.one (es_diag s) in
  {| es_diag := F32.sub F32.four recip;
     es_cedge := F32.neg (F32.mul (es_cedge s) recip);
     es_redge := F32.neg (F32.mul (es_redge s) recip);
     es_last := F32.sub (es_last s)
                        (F32.mul (es_redge s)
                                 (F32.mul (es_cedge s) recip)) |}.

Fixpoint turns (f : edge_state -> edge_state) (k : nat) (s : edge_state)
  : edge_state :=
  match k with
  | O => s
  | S k' => turns f k' (f s)
  end.

(** The diagonal entries left behind by [k] turns. *)
Fixpoint diag_trail (k : nat) (d : float) : list float :=
  match k with
  | O => []
  | S k' => d :: diag_trail k' (F32.sub F32.four (F32.div F32.one d))
  end.

(** The final correction of the last diagonal. *)
Definition final_last (s : edge_state) : float :=
  F32.sub (es_last s)
          (F32.mul (es_redge s)
                   (F32.div (F32.sub F32.one (es_cedge s)) (es_diag s))).

Definition edge_start : edge_state :=
  {| es_diag := F32.four; es_cedge := F32.one;
     es_redge := F32.one; es_last := F32.four |}.

(** Lines 100-124 on the vector of fours. *)
Definition looped_forward (n : nat) : result (list float) :=
  let diagonals := repeat F32.four n in
  let end_ := size_sub (Z.of_nat n) 1 in
  let stop := size_sub end_ 1 in
  '(diagonals, cedge, redge) <-
    for_range 0 stop (looped_step end_) (diagonals, F32.one, F32.one) ;;
  ds <- vget diagonals stop ;;
  de <- vget diagonals end_ ;;
  vset diagonals end_
    (F32.sub de (F32.mul redge (F32.div (F32.sub F32.one cedge) ds))).

(** The two turns differ in roundings and in the sign of a zero edge, yet
    they leave the same diagonal and the same corrected last diagonal. *)
Definition same_outcome (s s' : edge_state) : bool :=
  (if F32.eq_dec (es_diag s) (es_diag s') then true else false)
  && (if F32.eq_dec (final_last s) (final_last s') then true else false).

(** After 80 turns the edges have underflowed to zero and the diagonal
    has settled: the source's state no longer moves, the specification's
    alternates between two states. *)
Definition settled : nat := 80.

(** Every entry of a pool is what the elimination computes for its
    length. *)
Definition canonical_pools (sc : SplineSolutionCache.t) : Prop :=
  (forall e, In e (straight_diagonals sc) ->
             straight_elimination (repeat F32.zero (length e)) = Ok e) /\
  (forall e, In e (looped_diagonals sc) ->
             looped_elimination (repeat F32.zero (length e)) = Ok e).


(* ================================================================== *)
(** ** Inputs used as examples *)
(* ================================================================== *)

(** A point as [resize] and [set_point] leave it. *)
Definition point_of (v : Z) : CubicSpline.SplinePoint :=
  CubicSpline.set_a (F32.of_Z v) CubicSpline.zero_point.

(** A spline resized and given the values, its spatial extent 0. *)
Definition spline_of (values : list Z) : CubicSpline.t :=
  {| CubicSpline.m_points := map point_of values;
     CubicSpline.m_spatial_extent := F32.zero |}.

(** The open spline through 0, 10, 0, solved on a fresh cache. *)
Definition solved_0_10_0 : result (SplineSolutionCache.t * CubicSpline.t) :=
  CubicSpline.solve_straight SplineSolutionCache.initial
    (spline_of [0; 10; 0]).

(** That spline, then every point set to 5, solved again. *)
Definition solved_then_flattened
  : result (SplineSolutionCache.t * CubicSpline.t) :=
  '(sc, s) <- solved_0_10_0 ;;
  s <- CubicSpline.set_point s 0 (F32.of_Z 5) ;;
  s <- CubicSpline.set_point s 1 (F32.of_Z 5) ;;
  s <- CubicSpline.set_point s 2 (F32.of_Z 5) ;;
  CubicSpline.solve_straight sc s.

(** The diagonals and the right-hand side that [solve_straight] works on
    for the values 0, 10, 0: [3 * (10 - 0)], [3 * (0 - 0)],
    [3 * (0 - 10)]. *)
Definition diagonals_3 : list float :=
  match SplineSolutionCache.straight_elimination (repeat F32.zero 3) with
  | Ok d => d
  | _ => []
  end.

Definition rhs_0_10_0 : list float :=
  [F32.of_Z 30; F32.zero; F32.of_Z (-30)].

(** A bundle given one dimension, three points, then a second dimension. *)
Definition grown_bundle : result (SplineSolutionCache.t * CubicSplineN.t) :=
  CubicSplineN.run_all SplineSolutionCache.initial CubicSplineN.initial
    [CubicSplineN.OpRedimension 1; CubicSplineN.OpResize 3;
     CubicSplineN.OpRedimension 2].

(** Seventeen vectors of the lengths 3 to 19. *)
Definition seventeen_vectors : list (list float) :=
  map (fun n => repeat F32.zero n) (seq 3 17).

(** The cache after one open solve of 3 points. *)
Definition cache_after_3 : SplineSolutionCache.t :=
  {| straight_diagonals := [diagonals_3]; looped_diagonals := [] |}.

(** The diagonals of the open elimination for [n] points. *)
Definition straight_diagonals_for (n : nat) : list float :=
  match SplineSolutionCache.straight_elimination (repeat F32.zero n) with
  | Ok d => d
  | _ => []
  end.

(** Open solves of the diagonals for the point counts of [sizes], one
    after the other. *)
Fixpoint solve_straight_all (sc : SplineSolutionCache.t) (sizes : list nat)
  : result SplineSolutionCache.t :=
  match sizes with
  | [] => Ok sc
  | n :: rest =>
      '(sc, _) <- solve_diagonals_straight sc (repeat F32.zero n) ;;
      solve_straight_all sc rest
  end.

(* ================================================================== *)
(** ** Notions and inputs of the further properties *)
(* ================================================================== *)

(** Neither an infinity nor NaN. *)
Definition is_finite (x : float) : bool :=
  match x with
  | S754_zero _ | S754_finite _ _ _ => true
  | _ => false
  end.

(** The open spline through 0, 10, 0 once solved. *)
Definition spline_0_10_0 : CubicSpline.t :=
  match solved_0_10_0 with
  | Ok (_, s) => s
  | _ => CubicSpline.empty_spline
  end.

(** No coefficient of the point is NaN. *)
Definition clean_point (p : CubicSpline.SplinePoint) : Prop :=
  F32.is_nan (CubicSpline.b p) = false /\
  F32.is_nan (CubicSpline.c p) = false /\
  F32.is_nan (CubicSpline.d p) = false.

(** What a solve does not touch: the values and the spatial extent. *)
Definition same_input (s s' : CubicSpline.t) : Prop :=
  map CubicSpline.a (CubicSpline.m_points s')
  = map CubicSpline.a (CubicSpline.m_points s) /\
  CubicSpline.m_spatial_extent s' = CubicSpline.m_spatial_extent s.

(** One of the two solvers of a spline. *)
Definition solve_either (looped : bool) (sc : SplineSolutionCache.t)
           (s : CubicSpline.t)
  : result (SplineSolutionCache.t * CubicSpline.t) :=
  if looped then CubicSpline.solve_looped sc s
  else CubicSpline.solve_straight sc s.

(** A bundle of one closed spline through 0, 10, 0, not yet solved. *)
Definition closed_bundle : CubicSplineN.t :=
  {| CubicSplineN.m_splines := [spline_of [0; 10; 0]];
     CubicSplineN.loop := true;
     CubicSplineN.m_dirty := true |}.

(** The operation is a [redimension]. *)
Definition is_redimension (op : CubicSplineN.operation) : bool :=
  match op with
  | CubicSplineN.OpRedimension _ => true
  | _ => false
  end.

(** A bundle of two splines of three points. *)
Definition two_by_three : CubicSplineN.t :=
  {| CubicSplineN.m_splines := [spline_of [0; 10; 0]; spline_of [1; 2; 3]];
     CubicSplineN.loop := false;
     CubicSplineN.m_dirty := false |}.

(** The diagonal entry [k] turns after the entry [d]. *)
Fixpoint diag_after (k : nat) (d : float) : float :=
  match k with
  | O => d
  | S k' => diag_after k' (F32.sub F32.four (F32.div F32.one d))
  end.

(** A diagonal entry that the solvers can divide by: above 1 and at most
    4. *)
Definition usable_pivot (d : float) : bool :=
  F32.ltb F32.one d && F32.leb d F32.four.

(** The diagonal entries that the eliminations go through: from 4 (the
    closed spline) and from 3.5 (the open one) the recurrence has settled
    after 7 turns. *)
Definition pivot_orbit : list float :=
  map (fun k => diag_after k F32.four) (seq 0 8)
  ++ map (fun k => diag_after k (F32.sub F32.four F32.half)) (seq 0 8).

(** The states that the closed elimination goes through. *)
Definition edge_orbit : list edge_state :=
  map (fun k => turns code_turn k edge_start) (seq 0 (S settled)).

(** The cache after open solves of 3 and of 4 points and closed solves
    of 5 and of 3 points. *)
Definition cache_after_four_solves : SplineSolutionCache.t :=
  {| straight_diagonals :=
       [straight_diagonals_for 4; straight_diagonals_for 3];
     looped_diagonals :=
       match looped_elimination (repeat F32.zero 3),
             looped_elimination (repeat F32.zero 5) with
       | Ok d3, Ok d5 => [d3; d5]
       | _, _ => []
       end |}.

(** The cache and the bundle that the solve of [closed_bundle] on a fresh
    cache leaves. *)
Definition closed_bundle_solved : SplineSolutionCache.t * CubicSplineN.t :=
  match CubicSplineN.solve SplineSolutionCache.initial closed_bundle with
  | Ok r => r
  | _ => (SplineSolutionCache.initial, closed_bundle)
  end.

(** A spline of three points whose cubics all have the slope [slope] at
    their start. *)
Definition sloped (slope : Z) : CubicSpline.t :=
  {| CubicSpline.m_points :=
       map (fun v => {| CubicSpline.a := F32.of_Z v;
                        CubicSpline.b := F32.of_Z slope;
                        CubicSpline.c := F32.zero;
                        CubicSpline.d := F32.zero |}) [0; 1; 2];
     CubicSpline.m_spatial_extent := F32.zero |}.

(** A bundle of two such splines, of the slopes 1 and 2. *)
Definition sloped_bundle : CubicSplineN.t :=
  {| CubicSplineN.m_splines := [sloped 1; sloped 2];
     CubicSplineN.loop := false;
     CubicSplineN.m_dirty := true |}.

(** A spline of one point with the coefficients 1, 2 and 3. *)
Definition one_steep_point : CubicSpline.t :=
  {| CubicSpline.m_points :=
       [{| CubicSpline.a := F32.zero;
           CubicSpline.b := F32.of_Z 1;
           CubicSpline.c := F32.of_Z 2;
           CubicSpline.d := F32.of_Z 3 |}];
     CubicSpline.m_spatial_extent := F32.zero |}.
(* ================================================================== *)
(** ** Vectors and loops: basic facts *)
(* ================================================================== *)

Section VectorFacts.

Context {A : Type}.
Implicit Types (v : list A) (x y : A) (n : nat).

Lemma upd_length v n x : length (upd v n x) = length v.
Proof.
  revert n; induction v as [|h t IH]; intros [|n]; simpl; auto.
Qed.

Lemma upd_app_here (l1 l2 : list A) x y :
  upd (l1 ++ y :: l2) (length l1) x = l1 ++ x :: l2.
Proof.
  induction l1 as [|h t IH]; simpl; [reflexivity | now rewrite IH].
Qed.

Lemma nth_error_app_here (l1 l2 : list A) y :
  nth_error (l1 ++ y :: l2) (length l1) = Some y.
Proof.
  induction l1 as [|h t IH]; simpl; auto.
Qed.

Lemma vsize_nonneg v : 0 <= vsize v.
Proof. unfold vsize; lia. Qed.

Lemma vget_nat v n x :
  nth_error v n = Some x -> vget v (Z.of_nat n) = Ok x.
Proof.
  intros H. unfold vget, vsize.
  assert (n < length v)%nat by (apply nth_error_Some; congruence).
  replace ((0 <=? Z.of_nat n) && (Z.of_nat n <? Z.of_nat (length v)))
    with true by (symmetry; apply andb_true_iff; split; lia).
  now rewrite Nat2Z.id, H.
Qed.

Lemma vset_nat v n x :
  (n < length v)%nat -> vset v (Z.of_nat n) x = Ok (upd v n x).
Proof.
  intros H. unfold vset, vsize.
  replace ((0 <=? Z.of_nat n) && (Z.of_nat n <? Z.of_nat (length v)))
    with true by (symmetry; apply andb_true_iff; split; lia).
  now rewrite Nat2Z.id.
Qed.

Lemma vget_app_here (l1 l2 : list A) y i :
  i = Z.of_nat (length l1) -> vget (l1 ++ y :: l2) i = Ok y.
Proof. intros ->. apply vget_nat, nth_error_app_here. Qed.

Lemma vset_app_here (l1 l2 : list A) x y i :
  i = Z.of_nat (length l1) ->
  vset (l1 ++ y :: l2) i x = Ok (l1 ++ x :: l2).
Proof.
  intros ->. rewrite vset_nat.
  - now rewrite upd_app_here.
  - rewrite length_app; simpl; lia.
Qed.

Lemma vget_out_of_range v i : vsize v <= i -> vget v i = Undefined.
Proof.
  intros H. unfold vget.
  replace (i <? vsize v) with false by (symmetry; apply Z.ltb_ge; lia).
  now rewrite andb_false_r.
Qed.

Lemma vget_ok v i x : vget v i = Ok x -> 0 <= i < vsize v.
Proof.
  unfold vget. destruct ((0 <=? i) && (i <? vsize v)) eqn:E; [|discriminate].
  apply andb_true_iff in E. lia.
Qed.

Lemma vset_length v i x v' : vset v i x = Ok v' -> length v' = length v.
Proof.
  unfold vset. destruct ((0 <=? i) && (i <? vsize v)); [|discriminate].
  intros [= <-]. apply upd_length.
Qed.

(** Splitting a vector at one of its positions. *)
Lemma split_at v n :
  (n < length v)%nat ->
  exists y, v = firstn n v ++ y :: skipn (S n) v /\ length (firstn n v) = n.
Proof.
  revert n; induction v as [|h t IH]; intros n Hn; simpl in Hn; [lia|].
  destruct n as [|n].
  - exists h; split; reflexivity.
  - destruct (IH n ltac:(lia)) as (y & Hy & Hl).
    exists y. split.
    + simpl. f_equal. exact Hy.
    + simpl. now rewrite Hl.
Qed.

End VectorFacts.

Section LoopFacts.

Context {S : Type}.
Variable body : Z -> S -> result S.
Variable P : Z -> S -> Prop.

(** An invariant carried through a counted loop that never fails while
    the invariant holds. *)
Lemma for_loop_inv (cnt : nat) (lo : Z) (s : S) :
  P lo s ->
  (forall i s, lo <= i < lo + Z.of_nat cnt -> P i s ->
               exists s', body i s = Ok s' /\ P (i + 1) s') ->
  exists s', for_loop cnt lo body s = Ok s' /\ P (lo + Z.of_nat cnt) s'.
Proof.
  revert lo s; induction cnt as [|k IH]; intros lo s H0 Hstep.
  - exists s. simpl. split; [reflexivity|]. now rewrite Z.add_0_r.
  - destruct (Hstep lo s ltac:(lia) H0) as (s1 & E1 & P1).
    destruct (IH (lo + 1) s1 P1) as (s2 & E2 & P2).
    + intros i s' Hi. apply Hstep. lia.
    + exists s2. split.
      * simpl. rewrite E1. exact E2.
      * replace (lo + Z.of_nat (Datatypes.S k)) with (lo + 1 + Z.of_nat k)
          by lia.
        exact P2.
Qed.

Lemma for_range_inv (lo hi : Z) (s : S) :
  lo <= hi ->
  P lo s ->
  (forall i s, lo <= i < hi -> P i s ->
               exists s', body i s = Ok s' /\ P (i + 1) s') ->
  exists s', for_range lo hi body s = Ok s' /\ P hi s'.
Proof.
  intros Hle H0 Hstep. unfold for_range.
  destruct (for_loop_inv (Z.to_nat (hi - lo)) lo s H0) as (s' & E & Q).
  - intros i s1 Hi. apply Hstep. lia.
  - exists s'. split; [exact E|].
    replace hi with (lo + Z.of_nat (Z.to_nat (hi - lo))) by lia.
    exact Q.
Qed.

End LoopFacts.

(* ================================================================== *)
(** ** Comparisons and zeros of binary32 *)
(* ================================================================== *)

Section FloatFacts.

Implicit Types x y : float.

Lemma SFcompare_antisym x y :
  SFcompare y x = option_map CompOpp (SFcompare x y).
Proof.
  destruct x as [[|]|[|]| |[|] m1 e1], y as [[|]|[|]| |[|] m2 e2];
    simpl; try reflexivity;
    rewrite (Z.compare_antisym e1 e2);
    destruct (e1 ?= e2); simpl; try reflexivity;
    pose proof (Pos.compare_cont_antisym m1 m2 Eq) as H; simpl in H;
    rewrite <- H;
    now destruct (Pos.compare_cont Eq m1 m2).
Qed.

Lemma SFcompare_defined x y :
  F32.is_nan x = false -> F32.is_nan y = false ->
  exists c, SFcompare x y = Some c.
Proof.
  destruct x as [[|]|[|]| |[|] m1 e1], y as [[|]|[|]| |[|] m2 e2];
    simpl; intros; try discriminate; eauto.
Qed.

Lemma SFcompare_refl x : F32.is_nan x = false -> SFcompare x x = Some Eq.
Proof.
  destruct x as [[|]|[|]| |[|] m e]; simpl; intros; try discriminate;
    try reflexivity;
    now rewrite Z.compare_refl, Pos.compare_cont_refl.
Qed.

Lemma leb_refl x : F32.is_nan x = false -> F32.leb x x = true.
Proof.
  intros H. unfold F32.leb, SFleb. now rewrite SFcompare_refl.
Qed.

(** [!(x < y)] gives [y <= x] away from NaN. *)
Lemma not_ltb_leb x y :
  F32.is_nan x = false -> F32.is_nan y = false ->
  F32.ltb x y = false -> F32.leb y x = true.
Proof.
  intros Hx Hy. unfold F32.ltb, F32.leb, SFltb, SFleb.
  rewrite (SFcompare_antisym x y).
  destruct (SFcompare_defined x y Hx Hy) as (c & ->).
  destruct c; simpl; congruence.
Qed.

Lemma ltb_leb x y : F32.ltb x y = true -> F32.leb x y = true.
Proof.
  unfold F32.ltb, F32.leb, SFltb, SFleb.
  destruct (SFcompare x y) as [[| |]|]; congruence.
Qed.

Lemma is_nan_abs x : F32.is_nan (F32.abs x) = F32.is_nan x.
Proof. now destruct x. Qed.

(** Subtracting [+0] changes nothing, not even the sign of a zero. *)
Lemma sub_zero_r x : F32.sub x F32.zero = x.
Proof. now destruct x as [[|]|[|]| |[|] m e]. Qed.

(** Adding [+0] changes nothing but [-0], which becomes [+0]. *)
Lemma add_zero_r x : x <> S754_zero true -> F32.add x F32.zero = x.
Proof. destruct x as [[|]|[|]| |[|] m e]; intros H; try reflexivity.
       now elim H. Qed.

(** Adding [-0] changes nothing. *)
Lemma add_negzero_r x : F32.add x (S754_zero true) = x.
Proof. now destruct x as [[|]|[|]| |[|] m e]. Qed.

(** Subtracting [-0] changes nothing but [-0], which becomes [+0]. *)
Lemma sub_negzero_r x :
  x <> S754_zero true -> F32.sub x (S754_zero true) = x.
Proof. destruct x as [[|]|[|]| |[|] m e]; intros H; try reflexivity.
       now elim H. Qed.

(** Away from two zeros, subtracting a zero of either sign is the same. *)
Lemma sub_either_zero x (s1 s2 : bool) :
  F32.same_number (F32.sub x (S754_zero s1)) (F32.sub x (S754_zero s2)).
Proof.
  destruct x as [[|]|[|]| |[|] m e], s1, s2;
    try (left; reflexivity); right; split; reflexivity.
Qed.

End FloatFacts.

Ltac collapse_if :=
  match goal with |- context [if ?c then _ else _] => destruct c end.

(* ================================================================== *)
(** ** The error monad and loops: inversion *)
(* ================================================================== *)

Lemma bind_ok {A B : Type} (e : result A) (k : A -> result B) (r : B) :
  bind e k = Ok r -> exists x, e = Ok x /\ k x = Ok r.
Proof. destruct e; simpl; intros H; try discriminate. eauto. Qed.

Lemma for_loop_preserves {S : Type} (Q : S -> Prop)
      (body : Z -> S -> result S) :
  (forall i s s', Q s -> body i s = Ok s' -> Q s') ->
  forall cnt lo s s', Q s -> for_loop cnt lo body s = Ok s' -> Q s'.
Proof.
  intros Hb. induction cnt as [|k IH]; intros lo s s' Hq; simpl.
  - now intros [= <-].
  - intros H. apply bind_ok in H as (s1 & E1 & E2). eauto.
Qed.

Section ListFacts.

Context {A : Type}.
Implicit Types (v l : list A) (n k : nat).

Lemma skipn_cons v k y :
  nth_error v k = Some y -> skipn k v = y :: skipn (S k) v.
Proof.
  revert k; induction v as [|h t IH]; intros [|k] H; simpl in H;
    try discriminate.
  - now injection H as ->.
  - simpl. now rewrite (IH k H).
Qed.

Lemma firstn_snoc v k y :
  nth_error v k = Some y -> firstn (S k) v = firstn k v ++ [y].
Proof.
  revert k; induction v as [|h t IH]; intros [|k] H; simpl in H;
    try discriminate.
  - now injection H as ->.
  - change (h :: firstn (S k) t = h :: (firstn k t ++ [y])).
    now rewrite (IH k H).
Qed.

Lemma nth_error_in_range v k :
  (k < length v)%nat -> exists y, nth_error v k = Some y.
Proof.
  intros H. destruct (nth_error v k) eqn:E; eauto.
  apply nth_error_None in E. lia.
Qed.

Lemma firstn_app_firstn n l m :
  firstn n (l ++ firstn n m) = firstn n (l ++ m).
Proof.
  rewrite !firstn_app, firstn_firstn. do 2 f_equal. lia.
Qed.

End ListFacts.

Lemma vget_in_range {A : Type} (v : list A) (i : Z) :
  0 <= i < vsize v -> exists x, vget v i = Ok x.
Proof.
  intros H. unfold vsize in H.
  destruct (nth_error_in_range v (Z.to_nat i) ltac:(lia)) as (y & Hy).
  exists y. rewrite <- (Z2Nat.id i) by lia. now apply vget_nat.
Qed.

Lemma vset_in_range {A : Type} (v : list A) (i : Z) (x : A) :
  0 <= i < vsize v -> exists v', vset v i x = Ok v' /\ length v' = length v.
Proof.
  intros H. unfold vsize in H.
  exists (upd v (Z.to_nat i) x). split; [|apply upd_length].
  rewrite <- (Z2Nat.id i) at 1 by lia. apply vset_nat. lia.
Qed.

(* ================================================================== *)
(** ** The cache: lookup and insertion *)
(* ================================================================== *)


(** The copy loop of [find_in_cache] turns [out] into the entry. *)
Lemma copy_entry (entry out : list float) :
  length out = length entry ->
  for_range 0 (vsize out) (fun i out => x <- vget entry i ;; vset out i x) out
  = Ok entry.
Proof.
  intros Hlen.
  destruct (for_range_inv
              (fun i out => x <- vget entry i ;; vset out i x)
              (fun i o => 0 <= i <= vsize out /\
                          o = firstn (Z.to_nat i) entry
                                ++ skipn (Z.to_nat i) out)
              0 (vsize out) out)
    as (o & E & _ & Ho).
  - apply vsize_nonneg.
  - split; [pose proof (vsize_nonneg out); lia | reflexivity].
  - intros i o Hi (_ & ->). unfold vsize in Hi.
    set (k := Z.to_nat i).
    destruct (nth_error_in_range entry k ltac:(lia)) as (y & Hy).
    destruct (nth_error_in_range out k ltac:(lia)) as (z & Hz).
    exists (firstn (S k) entry ++ skipn (S k) out). split.
    + rewrite <- (Z2Nat.id i) by lia. fold k.
      rewrite (vget_nat _ _ _ Hy). cbn [bind].
      rewrite (skipn_cons _ _ _ Hz), (firstn_snoc _ _ _ Hy), <- app_assoc.
      apply vset_app_here. rewrite length_firstn. lia.
    + split; [unfold vsize; lia|].
      replace (Z.to_nat (i + 1)) with (S k) by lia. reflexivity.
  - rewrite E, Ho. f_equal. unfold vsize. rewrite Nat2Z.id.
    rewrite firstn_all2, skipn_all2 by lia. apply app_nil_r.
Qed.

(** [find_in_cache] returns the first entry of the length of [out]. *)
Lemma find_in_cache_find (cache : list (list float)) (out : list float) :
  find_in_cache cache out
  = Ok (match find (fun e => vsize out =? vsize e) cache with
        | Some e => (true, e)
        | None => (false, out)
        end).
Proof.
  induction cache as [|entry rest IH]; simpl; [reflexivity|].
  destruct (vsize out =? vsize entry) eqn:E; [|exact IH].
  apply Z.eqb_eq in E. unfold vsize in E.
  rewrite copy_entry by lia. reflexivity.
Qed.

Lemma add_to_cache_firstn (cache : list (list float)) (out : list float) :
  vsize cache <= solution_cache_limit ->
  add_to_cache cache out = firstn 16 (out :: cache).
Proof.
  unfold add_to_cache, solution_cache_limit, vsize. intros H.
  destruct (16 <=? Z.of_nat (length cache)) eqn:E.
  - apply Z.leb_le in E.
    rewrite removelast_firstn_len.
    replace (Nat.pred (length cache)) with 15%nat by lia.
    change 16%nat with (S 15). now rewrite firstn_cons.
  - apply Z.leb_gt in E.
    change 16%nat with (S 15). rewrite firstn_cons.
    f_equal. symmetry. apply firstn_all2. lia.
Qed.

Lemma add_to_cache_bounded (cache : list (list float)) (out : list float) :
  vsize cache <= solution_cache_limit ->
  vsize (add_to_cache cache out) <= solution_cache_limit.
Proof.
  intros H. rewrite add_to_cache_firstn by exact H.
  unfold vsize, solution_cache_limit. rewrite length_firstn. lia.
Qed.

Lemma insert_all_firstn (ins cache : list (list float)) :
  vsize cache <= solution_cache_limit ->
  insert_all cache ins = firstn 16 (rev ins ++ cache).
Proof.
  revert cache; induction ins as [|x ins IH]; intros cache H.
  - unfold insert_all. cbn [fold_left rev app]. symmetry. apply firstn_all2.
    unfold vsize, solution_cache_limit in H. lia.
  - unfold insert_all in *. cbn [fold_left rev].
    rewrite IH by now apply add_to_cache_bounded.
    rewrite add_to_cache_firstn by exact H.
    rewrite firstn_app_firstn, <- app_assoc. reflexivity.
Qed.

(** With pairwise different lengths, the lookup finds the entry itself. *)
Lemma find_by_length (l : list (list float)) (e out : list float) :
  NoDup (map (@length float) l) -> In e l -> length out = length e ->
  find (fun e' => vsize out =? vsize e') l = Some e.
Proof.
  induction l as [|h t IH]; intros Hnd Hin Hlen; [contradiction|].
  simpl in Hnd. inversion Hnd as [|? ? Hnotin Hnd']; subst.
  simpl. destruct Hin as [->|Hin].
  - unfold vsize. rewrite Hlen, Z.eqb_refl. reflexivity.
  - destruct (vsize out =? vsize h) eqn:E.
    + exfalso. apply Hnotin. apply Z.eqb_eq in E. unfold vsize in E.
      replace (length h) with (length e) by lia. now apply in_map.
    + now apply IH.
Qed.

Lemma find_no_length (l : list (list float)) (out : list float) :
  ~ In (length out) (map (@length float) l) ->
  find (fun e' => vsize out =? vsize e') l = None.
Proof.
  induction l as [|h t IH]; intros Hnotin; [reflexivity|].
  simpl. destruct (vsize out =? vsize h) eqn:E.
  - exfalso. apply Hnotin. left. apply Z.eqb_eq in E. unfold vsize in E. lia.
  - apply IH. intros H. apply Hnotin. now right.
Qed.

Lemma solve_diagonals_straight_cases sc d sc' d' :
  solve_diagonals_straight sc d = Ok (sc', d') ->
  (sc' = sc /\
   find (fun e => vsize d =? vsize e) (straight_diagonals sc) = Some d')
  \/ (find (fun e => vsize d =? vsize e) (straight_diagonals sc) = None /\
      straight_elimination d = Ok d' /\
      sc' = {| straight_diagonals := add_to_cache (straight_diagonals sc) d';
               looped_diagonals := looped_diagonals sc |}).
Proof.
  unfold solve_diagonals_straight. rewrite find_in_cache_find.
  destruct (find _ _) as [e|]; cbn [bind].
  - intros [= <- <-]. now left.
  - intros H. apply bind_ok in H as (x & E & [= <- <-]). right. auto.
Qed.

Lemma solve_diagonals_looped_cases sc d sc' d' :
  solve_diagonals_looped sc d = Ok (sc', d') ->
  (sc' = sc /\
   find (fun e => vsize d =? vsize e) (looped_diagonals sc) = Some d')
  \/ (find (fun e => vsize d =? vsize e) (looped_diagonals sc) = None /\
      looped_elimination d = Ok d' /\
      sc' = {| straight_diagonals := straight_diagonals sc;
               looped_diagonals := add_to_cache (looped_diagonals sc) d' |}).
Proof.
  unfold solve_diagonals_looped. rewrite find_in_cache_find.
  destruct (find _ _) as [e|]; cbn [bind].
  - intros [= <- <-]. now left.
  - intros H. apply bind_ok in H as (x & E & [= <- <-]). right. auto.
Qed.

Lemma reachable_bounded sc :
  reachable sc ->
  vsize (straight_diagonals sc) <= solution_cache_limit /\
  vsize (looped_diagonals sc) <= solution_cache_limit.
Proof.
  induction 1 as [|sc d sc' d' _ [IH1 IH2] E|sc d sc' d' _ [IH1 IH2] E].
  - split; discriminate.
  - apply solve_diagonals_straight_cases in E
      as [(-> & _)|(_ & _ & ->)]; [auto|].
    split; [now apply add_to_cache_bounded | exact IH2].
  - apply solve_diagonals_looped_cases in E
      as [(-> & _)|(_ & _ & ->)]; [auto|].
    split; [exact IH1 | now apply add_to_cache_bounded].
Qed.

(* ================================================================== *)
(** ** The eliminations of the cache: lengths and initial vectors *)
(* ================================================================== *)

Ltac invert_bind H :=
  let x := fresh "x" in
  let E := fresh "E" in
  apply bind_ok in H as (x & E & H).

Lemma for_range_length {S : Type} (len : S -> nat)
      (body : Z -> S -> result S) (lo hi : Z) (s s' : S) :
  (forall i s s', body i s = Ok s' -> len s' = len s) ->
  for_range lo hi body s = Ok s' -> len s' = len s.
Proof.
  intros Hb H.
  apply (for_loop_preserves (fun x => len x = len s) body) in H; auto.
  intros i s1 s2 H1 H2. rewrite <- H1. eauto.
Qed.

Lemma prep_inner_length last out out' :
  prep_inner last out = Ok out' -> length out' = length out.
Proof.
  apply (for_range_length (@length float)).
  intros i s s'. apply vset_length.
Qed.

Lemma straight_elimination_length out d :
  straight_elimination out = Ok d -> length d = length out.
Proof.
  unfold straight_elimination. intros H.
  invert_bind H. invert_bind H. invert_bind H. invert_bind H. invert_bind H.
  apply (for_range_length (@length float)) in H.
  - apply vset_length in E, E1, E3. apply prep_inner_length in E0. congruence.
  - intros i s s' Hs. invert_bind Hs. invert_bind Hs.
    now apply vset_length in Hs.
Qed.

Lemma looped_step_length end_ i st st' :
  looped_step end_ i st = Ok st' ->
  length (fst (fst st')) = length (fst (fst st)).
Proof.
  destruct st as [[d ce] re]. unfold looped_step. intros H.
  invert_bind H. invert_bind H. invert_bind H. invert_bind H. invert_bind H.
  invert_bind H. injection H as <-. cbn [fst].
  apply vset_length in E1, E4. congruence.
Qed.

Lemma looped_elimination_length out d :
  looped_elimination out = Ok d -> length d = length out.
Proof.
  unfold looped_elimination. intros H.
  invert_bind H. invert_bind H. invert_bind H.
  destruct x1 as [[d1 ce] re]. cbv beta iota in H.
  invert_bind H. invert_bind H.
  apply (for_range_length (fun st => length (fst (fst st)))) in E1.
  - cbn [fst] in E1. apply vset_length in E, H.
    apply prep_inner_length in E0. congruence.
  - intros i s s'. apply looped_step_length.
Qed.

(** [prep_inner] writes 4 at the positions [1 .. last-1]. *)
Lemma prep_inner_closed (v : list float) (last : Z) :
  1 <= last <= vsize v ->
  prep_inner last v
  = Ok (firstn 1 v ++ repeat F32.four (Z.to_nat last - 1)
               ++ skipn (Z.to_nat last) v).
Proof.
  intros Hl. unfold prep_inner.
  destruct (for_range_inv
              (fun i out => vset out i F32.four)
              (fun i o => o = firstn 1 v ++ repeat F32.four (Z.to_nat i - 1)
                                ++ skipn (Z.to_nat i) v)
              1 last v) as (o & E & Ho).
  - lia.
  - destruct v as [|x t]; [unfold vsize in Hl; simpl in Hl; lia|].
    reflexivity.
  - intros i o Hi ->. unfold vsize in Hl.
    set (k := Z.to_nat i).
    destruct (nth_error_in_range v k ltac:(lia)) as (y & Hy).
    exists (firstn 1 v ++ repeat F32.four (S k - 1) ++ skipn (S k) v).
    split.
    + rewrite (skipn_cons _ _ _ Hy), app_assoc.
      rewrite (vset_app_here (firstn 1 v ++ repeat F32.four (k - 1))
                             (skipn (S k) v) F32.four y)
        by (rewrite length_app, length_firstn, repeat_length; lia).
      replace (S k - 1)%nat with (S (k - 1)) by lia.
      cbn [repeat]. rewrite repeat_cons, <- !app_assoc. reflexivity.
    + replace (Z.to_nat (i + 1)) with (S k) by lia. reflexivity.
  - rewrite E, Ho. reflexivity.
Qed.

Lemma size_sub_1 (n : Z) : 1 <= n -> size_sub n 1 = n - 1.
Proof.
  intros H. unfold size_sub.
  now replace (1 <=? n) with true by (symmetry; apply Z.leb_le; lia).
Qed.

Lemma straight_elimination_init (out : list float) :
  (2 <= length out)%nat ->
  straight_elimination out = straight_forward (length out).
Proof.
  intros Hn. unfold straight_elimination, straight_forward.
  destruct out as [|x t]; [simpl in Hn; lia|].
  set (n := length (x :: t)) in *.
  assert (Hs : vsize (x :: t) = Z.of_nat n) by reflexivity.
  rewrite Hs, size_sub_1 by lia.
  change (vset (x :: t) 0 F32.two) with (Ok (F32.two :: t)). cbn [bind].
  rewrite prep_inner_closed
    by (unfold vsize; change (length (F32.two :: t)) with n; lia).
  cbn [bind].
  assert (Ht : length t = (n - 1)%nat) by (subst n; simpl; lia).
  destruct (nth_error_in_range (F32.two :: t) (n - 1)) as (z & Hz);
    [simpl; lia|].
  replace (Z.to_nat (Z.of_nat n - 1)) with (n - 1)%nat by lia.
  rewrite (skipn_cons _ _ _ Hz).
  rewrite skipn_all2 by (simpl; lia).
  change (firstn 1 (F32.two :: t)) with [F32.two].
  replace (n - 1 - 1)%nat with (n - 2)%nat by lia.
  change ([F32.two] ++ repeat F32.four (n - 2) ++ [z])
    with ((F32.two :: repeat F32.four (n - 2)) ++ [z]).
  rewrite (vset_app_here (F32.two :: repeat F32.four (n - 2)) [] F32.two z)
    by (cbn [length]; rewrite repeat_length; lia).
  reflexivity.
Qed.

(** The result of the open elimination depends on the length alone. *)
Lemma straight_elimination_by_length (out out' : list float) :
  length out = length out' ->
  straight_elimination out = straight_elimination out'.
Proof.
  intros H.
  destruct out as [|x [|y t]], out' as [|x' [|y' t']];
    try discriminate; try reflexivity.
  rewrite !straight_elimination_init by (simpl; lia). now rewrite H.
Qed.

Lemma straight_init_length n : (2 <= n)%nat -> length (straight_init n) = n.
Proof.
  intros H. unfold straight_init. cbn [length].
  rewrite length_app, repeat_length. simpl. lia.
Qed.

(** From 2 entries on, the open elimination stays inside the vector. *)
Lemma straight_forward_defined (n : nat) :
  (2 <= n)%nat -> exists d, straight_forward n = Ok d.
Proof.
  intros Hn. unfold straight_forward.
  pose proof (straight_init_length n Hn) as Hlen.
  destruct (vget_in_range (straight_init n) 1) as (d1 & ->);
    [unfold vsize; lia|].
  cbn [bind].
  destruct (vset_in_range (straight_init n) 1 (F32.sub d1 F32.half))
    as (v & -> & Hv); [unfold vsize; lia|].
  cbn [bind].
  destruct (for_range_inv
              (fun i diagonals =>
                 di <- vget diagonals i ;;
                 dn <- vget diagonals (i + 1) ;;
                 vset diagonals (i + 1) (F32.sub dn (F32.div F32.one di)))
              (fun _ d => length d = n)
              1 (Z.of_nat n - 1) v) as (d & E & _).
  - lia.
  - congruence.
  - intros i s Hi Hs.
    destruct (vget_in_range s i) as (di & ->); [unfold vsize; lia|].
    destruct (vget_in_range s (i + 1)) as (dn & ->); [unfold vsize; lia|].
    cbn [bind].
    destruct (vset_in_range s (i + 1) (F32.sub dn (F32.div F32.one di)))
      as (s' & -> & Hs'); [unfold vsize; lia|].
    exists s'. split; [reflexivity | congruence].
  - eauto.
Qed.


(* ================================================================== *)
(** ** The periodic elimination on its scalars *)
(* ================================================================== *)

Lemma turns_add f j k s : turns f (j + k) s = turns f k (turns f j s).
Proof. revert s; induction j as [|j IH]; intros s; simpl; auto. Qed.

Lemma app_cons_assoc {A : Type} (l1 l2 : list A) (x : A) :
  l1 ++ x :: l2 = (l1 ++ [x]) ++ l2.
Proof. now rewrite <- app_assoc. Qed.

(** One turn of the source's loop on the vector. *)
Lemma looped_step_turn (pre X : list float) (y : float) (s : edge_state) :
  looped_step (Z.of_nat (length pre + 2 + length X))
              (Z.of_nat (length pre))
              (pre ++ es_diag s :: y :: X ++ [es_last s],
               es_cedge s, es_redge s)
  = Ok (pre ++ es_diag s
            :: F32.sub y (F32.div F32.one (es_diag s))
            :: X ++ [es_last (code_turn s)],
        es_cedge (code_turn s), es_redge (code_turn s)).
Proof.
  unfold looped_step.
  rewrite (vget_app_here pre _ (es_diag s)) by reflexivity. cbn [bind].
  rewrite (app_cons_assoc pre _ (es_diag s)).
  rewrite (vget_app_here (pre ++ [es_diag s]) _ y)
    by (rewrite length_app; simpl; lia).
  cbn [bind].
  rewrite (vset_app_here (pre ++ [es_diag s]) _ _ y)
    by (rewrite length_app; simpl; lia).
  cbn [bind]. rewrite <- (app_cons_assoc pre _ (es_diag s)).
  rewrite (vget_app_here pre _ (es_diag s)) by reflexivity. cbn [bind].
  set (y' := F32.sub y (F32.div F32.one (es_diag s))).
  assert (Hshape : forall z,
             pre ++ es_diag s :: y' :: X ++ [z]
             = (pre ++ es_diag s :: y' :: X) ++ [z]).
  { intros z. rewrite <- app_assoc. reflexivity. }
  rewrite Hshape.
  assert (Hlen : Z.of_nat (length pre + 2 + length X)
                 = Z.of_nat (length (pre ++ es_diag s :: y' :: X))).
  { rewrite length_app. simpl. lia. }
  rewrite (vget_app_here _ [] (es_last s) _ Hlen). cbn [bind].
  rewrite (vset_app_here _ [] _ (es_last s) _ Hlen). cbn [bind].
  rewrite <- Hshape. reflexivity.
Qed.

(** The source's loop on the vector, [k] turns from position [length pre]. *)
Lemma looped_loop_turns (k : nat) :
  forall (pre : list float) (s : edge_state),
    for_loop k (Z.of_nat (length pre))
             (looped_step (Z.of_nat (length pre + k + 1)))
             (pre ++ es_diag s :: repeat F32.four k ++ [es_last s],
              es_cedge s, es_redge s)
    = Ok (pre ++ diag_trail k (es_diag s)
              ++ [es_diag (turns code_turn k s);
                  es_last (turns code_turn k s)],
          es_cedge (turns code_turn k s), es_redge (turns code_turn k s)).
Proof.
  induction k as [|k IH]; intros pre s.
  - reflexivity.
  - cbn [for_loop repeat app].
    replace (length pre + S k + 1)%nat
      with (length pre + 2 + length (repeat F32.four k))%nat
      by (rewrite repeat_length; lia).
    rewrite looped_step_turn. cbn [bind].
    rewrite (app_cons_assoc pre _ (es_diag s)).
    replace (Z.of_nat (length pre) + 1)
      with (Z.of_nat (length (pre ++ [es_diag s])))
      by (rewrite length_app; simpl; lia).
    replace (length pre + 2 + length (repeat F32.four k))%nat
      with (length (pre ++ [es_diag s]) + k + 1)%nat
      by (rewrite length_app, repeat_length; simpl; lia).
    change (F32.sub F32.four (F32.div F32.one (es_diag s)))
      with (es_diag (code_turn s)).
    rewrite IH. cbn [turns diag_trail].
    rewrite <- app_assoc. reflexivity.
Qed.

Lemma diag_trail_length k d : length (diag_trail k d) = k.
Proof. revert d; induction k as [|k IH]; intros d; simpl; auto. Qed.

Lemma repeat_ends {A : Type} (x : A) (n : nat) :
  (2 <= n)%nat -> repeat x n = x :: repeat x (n - 2) ++ [x].
Proof.
  intros H. replace n with (S (S (n - 2))) at 1 by lia.
  cbn [repeat]. f_equal. apply repeat_cons.
Qed.

Lemma looped_elimination_init (out : list float) :
  (1 <= length out)%nat ->
  looped_elimination out = looped_forward (length out).
Proof.
  intros Hn. unfold looped_elimination, looped_forward.
  destruct out as [|x t]; [simpl in Hn; lia|].
  change (vset (x :: t) 0 F32.four) with (Ok (F32.four :: t)). cbn [bind].
  rewrite prep_inner_closed
    by (unfold vsize; cbn [length]; lia).
  cbn [bind].
  replace (firstn 1 (F32.four :: t)
             ++ repeat F32.four (Z.to_nat (vsize (x :: t)) - 1)
             ++ skipn (Z.to_nat (vsize (x :: t))) (F32.four :: t))
    with (repeat F32.four (length (x :: t))); [reflexivity|].
  unfold vsize. rewrite Nat2Z.id.
  rewrite skipn_all2 by (cbn [length]; lia).
  rewrite app_nil_r. cbn [length firstn app repeat].
  do 2 f_equal. lia.
Qed.

(** The result of the periodic elimination depends on the length alone. *)
Lemma looped_elimination_by_length (out out' : list float) :
  length out = length out' ->
  looped_elimination out = looped_elimination out'.
Proof.
  intros H.
  destruct out as [|x t], out' as [|x' t']; try discriminate;
    try reflexivity.
  rewrite !looped_elimination_init by (simpl; lia). now rewrite H.
Qed.

(** The source's periodic elimination in closed form. *)
Lemma looped_forward_closed (n : nat) :
  (2 <= n)%nat ->
  let s := turns code_turn (n - 2) edge_start in
  looped_forward n
  = Ok (diag_trail (n - 2) F32.four ++ [es_diag s; final_last s]).
Proof.
  intros Hn s. unfold looped_forward.
  rewrite (size_sub_1 (Z.of_nat n)) by lia.
  rewrite (size_sub_1 (Z.of_nat n - 1)) by lia.
  unfold for_range.
  replace (Z.to_nat (Z.of_nat n - 1 - 1 - 0)) with (n - 2)%nat by lia.
  rewrite (repeat_ends F32.four n Hn).
  pose proof (looped_loop_turns (n - 2) [] edge_start) as L.
  cbn [length app] in L.
  replace (Z.of_nat (0 + (n - 2) + 1)) with (Z.of_nat n - 1) in L by lia.
  change (Z.of_nat 0) with 0 in L.
  change (es_diag edge_start) with F32.four in L.
  change (es_last edge_start) with F32.four in L.
  change (es_cedge edge_start) with F32.one in L.
  change (es_redge edge_start) with F32.one in L.
  rewrite L. cbn [bind]. fold s.
  rewrite (vget_app_here (diag_trail (n - 2) F32.four) _ (es_diag s))
    by (rewrite diag_trail_length; lia).
  cbn [bind].
  assert (Hshape : forall z,
             diag_trail (n - 2) F32.four ++ [es_diag s; z]
             = (diag_trail (n - 2) F32.four ++ [es_diag s]) ++ [z]).
  { intros z. rewrite <- app_assoc. reflexivity. }
  rewrite !Hshape.
  assert (Hlen : Z.of_nat n - 1
                 = Z.of_nat (length (diag_trail (n - 2) F32.four
                                       ++ [es_diag s]))).
  { rewrite length_app, diag_trail_length. simpl. lia. }
  rewrite (vget_app_here _ [] (es_last s) _ Hlen). cbn [bind].
  rewrite (vset_app_here _ [] _ (es_last s) _ Hlen).
  reflexivity.
Qed.

(** One step of the specification's elimination on the vector. *)
Lemma periodic_step_turn (pre X : list float) (y : float) (s : edge_state)
      (k : nat) :
  Spec.periodic_steps (S k) (length pre) (length pre + 3 + length X)
    (pre ++ es_diag s :: y :: X ++ [es_last s], es_cedge s, es_redge s)
  = Spec.periodic_steps k (length pre + 1) (length pre + 3 + length X)
      (pre ++ es_diag s
           :: F32.sub y (F32.div F32.one (es_diag s))
           :: X ++ [es_last (spec_turn s)],
       es_cedge (spec_turn s), es_redge (spec_turn s)).
Proof.
  cbn [Spec.periodic_steps]. unfold Spec.at_.
  rewrite (nth_middle pre _ (es_diag s)).
  rewrite (app_cons_assoc pre _ (es_diag s)).
  replace (length pre + 1)%nat with (length (pre ++ [es_diag s]))
    by (rewrite length_app; simpl; lia).
  rewrite (nth_middle (pre ++ [es_diag s]) _ y), upd_app_here.
  set (y' := F32.sub y (F32.div F32.one (es_diag s))).
  assert (Hshape : forall z,
             (pre ++ [es_diag s]) ++ y' :: X ++ [z]
             = ((pre ++ [es_diag s]) ++ y' :: X) ++ [z]).
  { intros z. rewrite <- !app_assoc. reflexivity. }
  rewrite Hshape.
  replace (length (pre ++ [es_diag s]))
    with (length pre + 1)%nat by (rewrite length_app; simpl; lia).
  replace (length pre + 3 + length X - 1)%nat
    with (length ((pre ++ [es_diag s]) ++ y' :: X))
    by (rewrite !length_app; simpl; lia).
  rewrite (nth_middle _ [] (es_last s)), upd_app_here.
  rewrite <- Hshape.
  replace (length ((pre ++ [es_diag s]) ++ y' :: X) + 1)%nat
    with (length pre + 3 + length X)%nat
    by (rewrite !length_app; simpl; lia).
  rewrite <- (app_cons_assoc pre _ (es_diag s)).
  reflexivity.
Qed.

Lemma periodic_steps_turns (k : nat) :
  forall (pre : list float) (s : edge_state),
    Spec.periodic_steps k (length pre) (length pre + k + 2)
      (pre ++ es_diag s :: repeat F32.four k ++ [es_last s],
       es_cedge s, es_redge s)
    = (pre ++ diag_trail k (es_diag s)
           ++ [es_diag (turns spec_turn k s);
               es_last (turns spec_turn k s)],
       es_cedge (turns spec_turn k s), es_redge (turns spec_turn k s)).
Proof.
  induction k as [|k IH]; intros pre s.
  - reflexivity.
  - cbn [repeat app].
    replace (length pre + S k + 2)%nat
      with (length pre + 3 + length (repeat F32.four k))%nat
      by (rewrite repeat_length; lia).
    rewrite periodic_step_turn.
    rewrite (app_cons_assoc pre _ (es_diag s)).
    replace (length pre + 1)%nat with (length (pre ++ [es_diag s]))
      by (rewrite length_app; simpl; lia).
    replace (length pre + 3 + length (repeat F32.four k))%nat
      with (length (pre ++ [es_diag s]) + k + 2)%nat
      by (rewrite length_app, repeat_length; simpl; lia).
    change (F32.sub F32.four (F32.div F32.one (es_diag s)))
      with (es_diag (spec_turn s)).
    rewrite IH. cbn [turns diag_trail].
    rewrite <- app_assoc. reflexivity.
Qed.

(** The specification's periodic elimination in closed form. *)
Lemma periodic_elimination_closed (n : nat) :
  (2 <= n)%nat ->
  let s := turns spec_turn (n - 2) edge_start in
  Spec.periodic_elimination (repeat F32.four n)
  = diag_trail (n - 2) F32.four ++ [es_diag s; final_last s].
Proof.
  intros Hn s. unfold Spec.periodic_elimination.
  rewrite repeat_length.
  rewrite (repeat_ends F32.four n Hn).
  pose proof (periodic_steps_turns (n - 2) [] edge_start) as L.
  cbn [length app] in L.
  replace (0 + (n - 2) + 2)%nat with n in L by lia.
  change (es_diag edge_start) with F32.four in L.
  change (es_last edge_start) with F32.four in L.
  change (es_cedge edge_start) with F32.one in L.
  change (es_redge edge_start) with F32.one in L.
  rewrite L. fold s. unfold Spec.at_.
  assert (Hshape : forall z,
             diag_trail (n - 2) F32.four ++ [es_diag s; z]
             = (diag_trail (n - 2) F32.four ++ [es_diag s]) ++ [z]).
  { intros z. rewrite <- app_assoc. reflexivity. }
  replace (nth (n - 2) (diag_trail (n - 2) F32.four
                          ++ [es_diag s; es_last s]) S754_nan)
    with (es_diag s).
  2:{ rewrite <- (diag_trail_length (n - 2) F32.four) at 1.
      now rewrite nth_middle. }
  rewrite !Hshape.
  replace (n - 1)%nat
    with (length (diag_trail (n - 2) F32.four ++ [es_diag s]))
    by (rewrite length_app, diag_trail_length; simpl; lia).
  rewrite (nth_middle _ [] (es_last s)), upd_app_here.
  reflexivity.
Qed.

Lemma same_outcome_eq s s' :
  same_outcome s s' = true ->
  es_diag s = es_diag s' /\ final_last s = final_last s'.
Proof.
  unfold same_outcome. intros H. apply andb_true_iff in H as [H1 H2].
  destruct (F32.eq_dec (es_diag s) (es_diag s')); [|discriminate].
  destruct (F32.eq_dec (final_last s) (final_last s')); [|discriminate].
  auto.
Qed.

Lemma same_outcome_early :
  forallb (fun k => same_outcome (turns code_turn k edge_start)
                                 (turns spec_turn k edge_start))
          (seq 0 settled) = true.
Proof. vm_compute. reflexivity. Qed.

Lemma code_turn_settled :
  code_turn (turns code_turn settled edge_start)
  = turns code_turn settled edge_start.
Proof. vm_compute. reflexivity. Qed.

Lemma spec_turn_settled :
  spec_turn (spec_turn (turns spec_turn settled edge_start))
  = turns spec_turn settled edge_start.
Proof. vm_compute. reflexivity. Qed.

Lemma same_outcome_settled :
  same_outcome (turns code_turn settled edge_start)
               (turns spec_turn settled edge_start) = true /\
  same_outcome (turns code_turn settled edge_start)
               (spec_turn (turns spec_turn settled edge_start)) = true.
Proof. split; vm_compute; reflexivity. Qed.

Lemma turns_fixed f s j : f s = s -> turns f j s = s.
Proof. intros H. induction j as [|j IH]; simpl; [|rewrite H]; auto. Qed.

Lemma turns_two_cycle f s j :
  f (f s) = s -> turns f j s = s \/ turns f j s = f s.
Proof.
  intros H. revert s H. induction j as [|j IH]; intros s H; simpl; auto.
  destruct (IH (f s)) as [E|E].
  - now rewrite H.
  - now right.
  - rewrite E, H. now left.
Qed.

Lemma same_outcome_always (k : nat) :
  same_outcome (turns code_turn k edge_start)
               (turns spec_turn k edge_start) = true.
Proof.
  destruct (Nat.lt_ge_cases k settled) as [Hlt|Hge].
  - pose proof same_outcome_early as H.
    rewrite forallb_forall in H. apply H. apply in_seq. lia.
  - replace k with (settled + (k - settled))%nat by lia.
    rewrite !turns_add.
    rewrite (turns_fixed code_turn _ _ code_turn_settled).
    destruct (turns_two_cycle spec_turn _ (k - settled) spec_turn_settled)
      as [-> | ->]; apply same_outcome_settled.
Qed.

(* ================================================================== *)
(** ** What the reachable caches hold *)
(* ================================================================== *)

Lemma in_removelast {A : Type} (l : list A) (x : A) :
  In x (removelast l) -> In x l.
Proof.
  induction l as [|h t IH]; simpl; [auto|].
  destruct t as [|h' t']; [contradiction|].
  intros [->|H]; [now left | right; now apply IH].
Qed.

Lemma in_add_to_cache cache out e :
  In e (add_to_cache cache out) -> e = out \/ In e cache.
Proof.
  unfold add_to_cache. intros [->|H]; [now left|right].
  destruct (solution_cache_limit <=? vsize cache); [|exact H].
  now apply in_removelast.
Qed.

Lemma reachable_canonical sc : reachable sc -> canonical_pools sc.
Proof.
  induction 1 as [|sc d sc' d' _ [IH1 IH2] E|sc d sc' d' _ [IH1 IH2] E].
  - split; intros e [].
  - apply solve_diagonals_straight_cases in E
      as [(-> & _)|(_ & E & ->)]; [now split|].
    split; [|exact IH2]. cbn [straight_diagonals].
    intros e He. apply in_add_to_cache in He as [->|He]; [|now apply IH1].
    rewrite <- E. apply straight_elimination_by_length.
    rewrite repeat_length. now apply straight_elimination_length.
  - apply solve_diagonals_looped_cases in E
      as [(-> & _)|(_ & E & ->)]; [now split|].
    split; [exact IH1|]. cbn [looped_diagonals].
    intros e He. apply in_add_to_cache in He as [->|He]; [|now apply IH2].
    rewrite <- E. apply looped_elimination_by_length.
    rewrite repeat_length. now apply looped_elimination_length.
Qed.

(** The solvers return what the elimination computes for the length of
    [out], whether the lookup hits or misses. *)
Lemma solve_diagonals_straight_reachable sc out :
  reachable sc ->
  diagonals_of (solve_diagonals_straight sc out)
  = straight_elimination (repeat F32.zero (length out)).
Proof.
  intros Hr. destruct (reachable_canonical sc Hr) as [Hc _].
  unfold solve_diagonals_straight. rewrite find_in_cache_find.
  destruct (find _ _) as [e|] eqn:F; cbn [bind diagonals_of].
  - apply find_some in F as [Hin Hlen].
    apply Z.eqb_eq in Hlen. unfold vsize in Hlen.
    replace (length out) with (length e) by lia.
    symmetry. now apply Hc.
  - rewrite (straight_elimination_by_length
               (repeat F32.zero (length out)) out)
      by apply repeat_length.
    now destruct (straight_elimination out).
Qed.

Lemma solve_diagonals_looped_reachable sc out :
  reachable sc ->
  diagonals_of (solve_diagonals_looped sc out)
  = looped_elimination (repeat F32.zero (length out)).
Proof.
  intros Hr. destruct (reachable_canonical sc Hr) as [_ Hc].
  unfold solve_diagonals_looped. rewrite find_in_cache_find.
  destruct (find _ _) as [e|] eqn:F; cbn [bind diagonals_of].
  - apply find_some in F as [Hin Hlen].
    apply Z.eqb_eq in Hlen. unfold vsize in Hlen.
    replace (length out) with (length e) by lia.
    symmetry. now apply Hc.
  - rewrite (looped_elimination_by_length
               (repeat F32.zero (length out)) out)
      by apply repeat_length.
    now destruct (looped_elimination out).
Qed.


(* ================================================================== *)
(** ** Solving for several point counts in a row *)
(* ================================================================== *)

Lemma straight_diagonals_for_spec (n : nat) :
  (2 <= n)%nat ->
  straight_elimination (repeat F32.zero n) = Ok (straight_diagonals_for n) /\
  length (straight_diagonals_for n) = n.
Proof.
  intros Hn. unfold straight_diagonals_for.
  destruct (straight_forward_defined n Hn) as (d & Hd).
  rewrite straight_elimination_init by (rewrite repeat_length; lia).
  rewrite repeat_length, Hd. split; [reflexivity|].
  transitivity (length (repeat F32.zero n)); [|apply repeat_length].
  apply straight_elimination_length.
  rewrite straight_elimination_init by (rewrite repeat_length; lia).
  now rewrite repeat_length.
Qed.

(** Solves of pairwise different point counts, none of them in the pool,
    each miss and insert their diagonals. *)
Lemma solve_straight_all_inserts (sizes : list nat) :
  forall sc,
    (forall n, In n sizes -> (2 <= n)%nat) ->
    NoDup sizes ->
    (forall e, In e (straight_diagonals sc) -> ~ In (length e) sizes) ->
    solve_straight_all sc sizes
    = Ok {| straight_diagonals :=
              insert_all (straight_diagonals sc)
                         (map straight_diagonals_for sizes);
            looped_diagonals := looped_diagonals sc |}.
Proof.
  induction sizes as [|n rest IH]; intros sc H2 Hnd Hfresh.
  - now destruct sc.
  - cbn [solve_straight_all map]. unfold insert_all. cbn [fold_left].
    inversion Hnd as [|? ? Hn Hnd']; subst.
    destruct (straight_diagonals_for_spec n) as [Hd Hl];
      [apply H2; now left|].
    unfold solve_diagonals_straight. rewrite find_in_cache_find.
    rewrite find_no_length.
    + cbn [bind]. rewrite Hd. cbn [bind].
      rewrite IH; [reflexivity | | exact Hnd' |].
      * intros m Hm. apply H2. now right.
      * cbn [straight_diagonals]. intros e He.
        apply in_add_to_cache in He as [->|He].
        -- now rewrite Hl.
        -- intros Hin. apply (Hfresh e He). now right.
    + rewrite repeat_length. intros Hin.
      apply in_map_iff in Hin as (e & He & Hin).
      apply (Hfresh e Hin). left. now rewrite He.
Qed.

Lemma map_length_straight_diagonals_for (sizes : list nat) :
  (forall n, In n sizes -> (2 <= n)%nat) ->
  map (@length float) (map straight_diagonals_for sizes) = sizes.
Proof.
  induction sizes as [|n rest IH]; intros H; [reflexivity|].
  cbn [map]. f_equal.
  - apply straight_diagonals_for_spec. apply H. now left.
  - apply IH. intros m Hm. apply H. now right.
Qed.

(* ================================================================== *)
(** ** Truncation of a [float] to an [int] *)
(* ================================================================== *)

Lemma digits2_pos_bounds (m : positive) :
  2 ^ (Z.pos (digits2_pos m) - 1) <= Z.pos m < 2 ^ Z.pos (digits2_pos m).
Proof.
  induction m as [m IH|m IH|]; cbn [digits2_pos].
  - rewrite Pos2Z.inj_succ.
    replace (Z.succ (Z.pos (digits2_pos m)) - 1)
      with (Z.succ (Z.pos (digits2_pos m) - 1)) by lia.
    rewrite !Z.pow_succ_r by lia. lia.
  - rewrite Pos2Z.inj_succ.
    replace (Z.succ (Z.pos (digits2_pos m)) - 1)
      with (Z.succ (Z.pos (digits2_pos m) - 1)) by lia.
    rewrite !Z.pow_succ_r by lia. lia.
  - simpl. lia.
Qed.

(** The mantissa of a valid number has at most 24 bits, and exactly 24
    above the smallest exponent. *)
Lemma valid_mantissa (s : bool) (m : positive) (e : Z) :
  F32.valid (S754_finite s m e) = true ->
  Z.pos m < 2 ^ 24 /\ (-149 < e -> 2 ^ 23 <= Z.pos m).
Proof.
  unfold F32.valid, valid_binary, bounded, canonical_mantissa, fexp, emin.
  intros H. apply andb_true_iff in H as [H _]. apply Z.eqb_eq in H.
  change (3 - F32.emax - F32.prec) with (-149) in H.
  change F32.prec with 24 in H.
  pose proof (digits2_pos_bounds m) as [Hlo Hhi].
  split.
  - assert (Z.pos (digits2_pos m) <= 24) by lia.
    eapply Z.lt_le_trans; [exact Hhi|]. apply Z.pow_le_mono_r; lia.
  - intros He. assert (Z.pos (digits2_pos m) = 24) as E by lia.
    rewrite E in Hlo. exact Hlo.
Qed.

Lemma leb_finite_negative_cases (m1 m2 : positive) (e1 e2 : Z) :
  F32.leb (S754_finite true m1 e1) (S754_finite true m2 e2) = true ->
  e2 < e1 \/ (e1 = e2 /\ Z.pos m2 <= Z.pos m1).
Proof.
  unfold F32.leb, SFleb. cbn [SFcompare].
  destruct (e1 ?= e2) eqn:E.
  - apply Z.compare_eq in E. intros H. right. split; [exact E|].
    fold (Pos.compare m1 m2) in H.
    destruct (Pos.compare_spec m1 m2); try discriminate; lia.
  - discriminate.
  - intros _. left. apply Z.compare_gt_iff in E. lia.
Qed.

Lemma ltb_finite_negative_cases (m1 m2 : positive) (e1 e2 : Z) :
  F32.ltb (S754_finite true m1 e1) (S754_finite true m2 e2) = true ->
  e2 < e1 \/ (e1 = e2 /\ Z.pos m2 < Z.pos m1).
Proof.
  unfold F32.ltb, SFltb. cbn [SFcompare].
  destruct (e1 ?= e2) eqn:E.
  - apply Z.compare_eq in E. intros H. right. split; [exact E|].
    fold (Pos.compare m1 m2) in H.
    destruct (Pos.compare_spec m1 m2); try discriminate; lia.
  - discriminate.
  - intros _. left. apply Z.compare_gt_iff in E. lia.
Qed.

(** A valid number in [[-2^31, -1]] converts to an [int] below zero. *)
Lemma static_cast_int_negative (t : float) :
  F32.valid t = true ->
  F32.leb (F32.of_Z INT_MIN) t = true ->
  F32.leb t (F32.of_Z (-1)) = true ->
  exists k, static_cast_int t = Ok k /\ INT_MIN <= k <= -1.
Proof.
  intros Hv Hlo Hhi.
  destruct t as [s|s| |s m e]; try (destruct s; discriminate);
    try discriminate.
  destruct s; [|discriminate].
  change (F32.of_Z INT_MIN) with (S754_finite true 8388608 8) in Hlo.
  change (F32.of_Z (-1)) with (S754_finite true 8388608 (-23)) in Hhi.
  apply leb_finite_negative_cases in Hlo, Hhi.
  apply valid_mantissa in Hv as [Hm24 Hm23].
  specialize (Hm23 ltac:(lia)).
  change (2 ^ 24) with 16777216 in Hm24.
  change (2 ^ 23) with 8388608 in Hm23.
  unfold static_cast_int, F32.trunc, INT_MIN, INT_MAX.
  change (- 2 ^ 31) with (-2147483648). change (2 ^ 31 - 1) with 2147483647.
  assert (Hmag : 1 <= match e with
                      | Z.neg p => Z.shiftr (Z.pos m) (Z.pos p)
                      | _ => Z.shiftl (Z.pos m) e
                      end <= 2147483648).
  { destruct e as [|p|p].
    - rewrite Z.shiftl_0_r. lia.
    - rewrite Z.shiftl_mul_pow2 by lia.
      assert (0 < 2 ^ Z.pos p) by (apply Z.pow_pos_nonneg; lia).
      destruct Hlo as [Hlo|[Hlo Hm]].
      + assert (2 ^ Z.pos p <= 2 ^ 7) by (apply Z.pow_le_mono_r; lia).
        change (2 ^ 7) with 128 in *. nia.
      + rewrite <- Hlo. change (2 ^ 8) with 256. nia.
    - rewrite Z.shiftr_div_pow2 by lia.
      assert (0 < 2 ^ Z.pos p) by (apply Z.pow_pos_nonneg; lia).
      assert (2 ^ Z.pos p <= 2 ^ 23) by (apply Z.pow_le_mono_r; lia).
      change (2 ^ 23) with 8388608 in *.
      split.
      + apply Z.div_le_lower_bound; lia.
      + apply Z.div_le_upper_bound; nia. }
  set (mag := match e with
              | Z.neg p => Z.shiftr (Z.pos m) (Z.pos p)
              | _ => Z.shiftl (Z.pos m) e
              end) in *.
  exists (- mag).
  replace ((-2147483648 <=? - mag) && (- mag <=? 2147483647)) with true.
  - split; [reflexivity | lia].
  - symmetry. apply andb_true_iff. split; apply Z.leb_le; lia.
Qed.

(** A valid number strictly between -1 and 0 converts to 0. *)
Lemma static_cast_int_fraction (t : float) :
  F32.valid t = true ->
  F32.ltb (F32.of_Z (-1)) t = true ->
  F32.ltb t F32.zero = true ->
  static_cast_int t = Ok 0.
Proof.
  intros Hv Hlo Hhi.
  destruct t as [s|s| |s m e]; try (destruct s; discriminate);
    try discriminate.
  destruct s; [|discriminate].
  change (F32.of_Z (-1)) with (S754_finite true 8388608 (-23)) in Hlo.
  apply ltb_finite_negative_cases in Hlo.
  apply valid_mantissa in Hv as [Hm24 _].
  change (2 ^ 24) with 16777216 in Hm24.
  unfold static_cast_int, F32.trunc.
  destruct e as [|p|p]; try lia.
  rewrite Z.shiftr_div_pow2 by lia.
  replace (Z.pos m / 2 ^ Z.pos p) with 0; [reflexivity|].
  symmetry. apply Z.div_small. split; [lia|].
  destruct Hlo as [Hlo|[Hlo Hm]].
  - assert (2 ^ 24 <= 2 ^ Z.pos p) by (apply Z.pow_le_mono_r; lia).
    change (2 ^ 24) with 16777216 in *. lia.
  - replace (Z.pos p) with 23 by lia. change (2 ^ 23) with 8388608. lia.
Qed.

(* ================================================================== *)
(** ** [evaluate] and [evaluate_derivative] without looping *)
(* ================================================================== *)

Lemma vget_head {A : Type} (x : A) (l : list A) : vget (x :: l) 0 = Ok x.
Proof. unfold vget, vsize. cbn [length]. rewrite Nat2Z.inj_succ.
       replace ((0 <=? 0) && (0 <? Z.succ (Z.of_nat (length l)))) with true
         by (symmetry; apply andb_true_iff; split; [reflexivity|];
             apply Z.ltb_lt; lia).
       reflexivity. Qed.

(** Whenever the integer part of [t] is 0 or less, that is for every
    [t < 1], [evaluate] returns the value of the first point. *)
Lemma evaluate_first_point (fuel : nat) (s : CubicSpline.t) (t : float)
      (p0 : CubicSpline.SplinePoint) (rest : list CubicSpline.SplinePoint)
      (flort : Z) :
  CubicSpline.m_points s = p0 :: rest ->
  static_cast_int t = Ok flort -> flort <= 0 ->
  CubicSpline.evaluate fuel s t false = Ok (CubicSpline.a p0).
Proof.
  intros Hp Hc Hf. unfold CubicSpline.evaluate. rewrite Hp, Hc.
  cbn [bind].
  replace (vsize (p0 :: rest) =? 0) with false
    by (symmetry; apply Z.eqb_neq; unfold vsize; cbn [length]; lia).
  replace (flort <=? 0) with true by (symmetry; apply Z.leb_le; lia).
  now rewrite vget_head.
Qed.

(** From [n - 1] on, [evaluate] returns the value of the last point. *)
Lemma evaluate_last_point (fuel : nat) (s : CubicSpline.t) (t : float)
      (flort : Z) :
  static_cast_int t = Ok flort ->
  1 <= vsize (CubicSpline.m_points s) ->
  0 < flort -> vsize (CubicSpline.m_points s) - 1 <= flort ->
  CubicSpline.evaluate fuel s t false
  = (pl <- vget (CubicSpline.m_points s)
                (vsize (CubicSpline.m_points s) - 1) ;;
     Ok (CubicSpline.a pl)).
Proof.
  intros Hc H1 H0 Hn. unfold CubicSpline.evaluate. rewrite Hc. cbn [bind].
  replace (vsize (CubicSpline.m_points s) =? 0) with false
    by (symmetry; apply Z.eqb_neq; lia).
  replace (flort <=? 0) with false by (symmetry; apply Z.leb_gt; lia).
  rewrite size_sub_1 by lia. unfold size_of_int.
  replace (0 <=? flort) with true by (symmetry; apply Z.leb_le; lia).
  now replace (vsize (CubicSpline.m_points s) - 1 <=? flort) with true
    by (symmetry; apply Z.leb_le; lia).
Qed.

(** Between 1 and [n - 1], [evaluate] returns the cubic of the segment
    of the integer part, at the fraction. *)
Lemma evaluate_inner_segment (fuel : nat) (s : CubicSpline.t) (t : float)
      (flort : Z) :
  static_cast_int t = Ok flort ->
  0 < flort < vsize (CubicSpline.m_points s) - 1 ->
  CubicSpline.evaluate fuel s t false
  = (pt <- vget (CubicSpline.m_points s) flort ;;
     let f := F32.sub t (F32.of_Z flort) in
     Ok (F32.add
           (F32.add (F32.add (CubicSpline.a pt)
                             (F32.mul (CubicSpline.b pt) f))
                    (F32.mul (CubicSpline.c pt) (F32.mul f f)))
           (F32.mul (CubicSpline.d pt) (F32.mul (F32.mul f f) f)))).
Proof.
  intros Hc Hf. unfold CubicSpline.evaluate. rewrite Hc. cbn [bind].
  replace (vsize (CubicSpline.m_points s) =? 0) with false
    by (symmetry; apply Z.eqb_neq; lia).
  replace (flort <=? 0) with false by (symmetry; apply Z.leb_gt; lia).
  rewrite size_sub_1 by lia. unfold size_of_int.
  replace (0 <=? flort) with true by (symmetry; apply Z.leb_le; lia).
  replace (vsize (CubicSpline.m_points s) - 1 <=? flort) with false
    by (symmetry; apply Z.leb_gt; lia).
  unfold CubicSpline.evaluate_segment, size_of_int.
  replace (0 <=? flort) with true by (symmetry; apply Z.leb_le; lia).
  rewrite size_sub_1 by lia. rewrite Z.min_l by lia. reflexivity.
Qed.

(* ================================================================== *)
(** ** [check_minimum_size] *)
(* ================================================================== *)

(** From 3 points on, [check_minimum_size] clears the coefficients of the
    points 1, 2, ... and leaves the first point as it is; the flag tells
    whether every value equals the first. *)
Lemma check_minimum_size_from_three
      (s : CubicSpline.t) (p0 : CubicSpline.SplinePoint)
      (rest : list CubicSpline.SplinePoint) :
  CubicSpline.m_points s = p0 :: rest ->
  (2 <= length rest)%nat ->
  CubicSpline.check_minimum_size s
  = Ok (CubicSpline.with_points s
          (p0 :: map (CubicSpline.set_bcd F32.zero F32.zero F32.zero) rest),
        forallb (fun p => F32.eqb (CubicSpline.a p) (CubicSpline.a p0)) rest).
Proof.
  intros Hp Hlen. unfold CubicSpline.check_minimum_size. rewrite Hp.
  set (clear := CubicSpline.set_bcd F32.zero F32.zero F32.zero).
  set (same := fun p => F32.eqb (CubicSpline.a p) (CubicSpline.a p0)).
  assert (Hs : vsize (p0 :: rest) = Z.of_nat (length rest) + 1)
    by (unfold vsize; cbn [length]; lia).
  replace (vsize (p0 :: rest) <? 2) with false
    by (symmetry; apply Z.ltb_ge; lia).
  replace (vsize (p0 :: rest) =? 2) with false
    by (symmetry; apply Z.eqb_neq; lia).
  rewrite vget_head. cbn [bind].
  destruct (for_range_inv
              (fun i '(pts, all_points_identical) =>
                 pts <- vmodify pts i clear ;;
                 pi <- vget pts i ;;
                 Ok (pts, if F32.neb (CubicSpline.a pi) (CubicSpline.a p0)
                          then false else all_points_identical))
              (fun i st =>
                 st = (p0 :: map clear (firstn (Z.to_nat i - 1) rest)
                          ++ skipn (Z.to_nat i - 1) rest,
                       forallb same (firstn (Z.to_nat i - 1) rest)))
              1 (vsize (p0 :: rest)) (p0 :: rest, true))
    as (st & E & Hst).
  - lia.
  - reflexivity.
  - intros i st Hi ->.
    set (k := (Z.to_nat i - 1)%nat).
    destruct (nth_error_in_range rest k ltac:(lia)) as (y & Hy).
    exists (p0 :: map clear (firstn (S k) rest) ++ skipn (S k) rest,
            forallb same (firstn (S k) rest)).
    split.
    + rewrite (skipn_cons _ _ _ Hy), (firstn_snoc _ _ _ Hy).
      assert (Hi' : i = Z.of_nat (length (p0 :: map clear (firstn k rest)))).
      { cbn [length]. rewrite length_map, length_firstn. lia. }
      unfold vmodify.
      change (p0 :: map clear (firstn k rest) ++ y :: skipn (S k) rest)
        with ((p0 :: map clear (firstn k rest)) ++ y :: skipn (S k) rest).
      rewrite (vget_app_here _ _ y i Hi'). cbn [bind].
      rewrite (vset_app_here _ _ (clear y) y i Hi'). cbn [bind].
      rewrite (vget_app_here _ _ (clear y) i Hi'). cbn [bind].
      rewrite map_app, forallb_app, <- app_assoc. cbn [map forallb app].
      unfold F32.neb. change (CubicSpline.a (clear y)) with (CubicSpline.a y).
      fold (same y).
      destruct (same y); cbn [negb];
        rewrite ?andb_true_r, ?andb_false_r; reflexivity.
    + replace (Z.to_nat (i + 1) - 1)%nat with (S k) by lia. reflexivity.
  - rewrite E, Hst. cbn [bind].
    replace (Z.to_nat (vsize (p0 :: rest)) - 1)%nat with (length rest)
      by lia.
    rewrite firstn_all, skipn_all, app_nil_r. reflexivity.
Qed.

(* ================================================================== *)
(** ** The point counts of a bundle *)
(* ================================================================== *)

Ltac invert_binds H :=
  repeat
    match type of H with
    | bind _ _ = Ok _ =>
        let x := fresh "x" in
        let E := fresh "E" in
        apply bind_ok in H as (x & E & H); cbv beta in H
    | context [match ?p with (_, _) => _ end] =>
        is_var p; destruct p; cbv beta iota in H
    end.

Lemma vget_nth_error {A : Type} (v : list A) (i : Z) (x : A) :
  vget v i = Ok x -> nth_error v (Z.to_nat i) = Some x.
Proof.
  unfold vget. destruct ((0 <=? i) && (i <? vsize v)); [|discriminate].
  destruct (nth_error v (Z.to_nat i)); [|discriminate].
  now intros [= ->].
Qed.

Lemma vset_upd {A : Type} (v : list A) (i : Z) (x : A) (v' : list A) :
  vset v i x = Ok v' -> v' = upd v (Z.to_nat i) x.
Proof.
  unfold vset. destruct ((0 <=? i) && (i <? vsize v)); [|discriminate].
  now intros [= <-].
Qed.

Lemma map_upd_same {A B : Type} (f : A -> B) (l : list A) (k : nat)
      (x y : A) :
  nth_error l k = Some y -> f x = f y -> map f (upd l k x) = map f l.
Proof.
  revert k; induction l as [|h t IH]; intros [|k] H E; simpl in H;
    try discriminate; simpl.
  - injection H as ->. now rewrite E.
  - now rewrite (IH k H E).
Qed.

(** Rewriting one element of a vector by a function that keeps [f]. *)
Lemma vmodify_map {A B : Type} (f : A -> B) (g : A -> A) (v v' : list A)
      (i : Z) :
  (forall x, f (g x) = f x) ->
  vmodify v i g = Ok v' -> map f v' = map f v.
Proof.
  intros Hg H. unfold vmodify in H.
  apply bind_ok in H as (x & Ex & H).
  apply vset_upd in H. subst v'.
  apply (map_upd_same f v _ (g x) x); [now apply vget_nth_error | apply Hg].
Qed.

Lemma vmodify_length {A : Type} (g : A -> A) (v v' : list A) (i : Z) :
  vmodify v i g = Ok v' -> length v' = length v.
Proof.
  intros H. apply (vmodify_map (fun _ => tt)) in H; [|reflexivity].
  rewrite <- (length_map (fun _ => tt) v'), H. apply length_map.
Qed.

Lemma check_minimum_size_size (s s' : CubicSpline.t) (flag : bool) :
  CubicSpline.check_minimum_size s = Ok (s', flag) ->
  CubicSpline.size s' = CubicSpline.size s.
Proof.
  unfold CubicSpline.check_minimum_size, CubicSpline.size, vsize.
  destruct (Z.of_nat (length (CubicSpline.m_points s)) <? 2).
  - intros H. invert_bind H. injection H as <- _.
    cbn [CubicSpline.with_points CubicSpline.m_points].
    now rewrite (vmodify_length _ _ _ _ E).
  - destruct (Z.of_nat (length (CubicSpline.m_points s)) =? 2).
    + intros H. do 6 invert_bind H. injection H as <- _.
      cbn [CubicSpline.with_points CubicSpline.m_points].
      apply vset_length in E1, E4. congruence.
    + intros H. invert_bind H. invert_bind H.
      destruct x0 as [pts fl]. injection H as <- _.
      cbn [CubicSpline.with_points CubicSpline.m_points].
      apply (for_range_length (fun st => length (fst st))) in E0.
      * cbn [fst] in E0. now rewrite E0.
      * intros i [p f] st H. do 2 invert_bind H. injection H as <-.
        cbn [fst]. now apply vmodify_length in E1.
Qed.

Lemma set_results_size (s s' : CubicSpline.t) (last : Z)
      (diagonals results : list float) :
  CubicSpline.set_results s last diagonals results = Ok s' ->
  CubicSpline.size s' = CubicSpline.size s.
Proof.
  unfold CubicSpline.set_results, CubicSpline.size, vsize.
  intros H. do 2 invert_bind H. injection H as <-.
  cbn [CubicSpline.with_points CubicSpline.m_points].
  apply (for_range_length (@length CubicSpline.SplinePoint)) in E0.
  - now rewrite E0.
  - intros i p p' Hp. do 4 invert_bind Hp. now apply vset_length in Hp.
Qed.

Lemma solve_straight_size sc s sc' s' :
  CubicSpline.solve_straight sc s = Ok (sc', s') ->
  CubicSpline.size s' = CubicSpline.size s.
Proof.
  unfold CubicSpline.solve_straight. intros H. invert_bind H.
  destruct x as [s1 flag]. apply check_minimum_size_size in E.
  destruct flag.
  - injection H as _ <-. exact E.
  - cbv beta iota in H. invert_binds H. injection H as _ <-.
    match goal with
    | R : CubicSpline.set_results _ _ _ _ = Ok _ |- _ =>
        apply set_results_size in R
    end.
    congruence.
Qed.

Lemma solve_looped_size sc s sc' s' :
  CubicSpline.solve_looped sc s = Ok (sc', s') ->
  CubicSpline.size s' = CubicSpline.size s.
Proof.
  unfold CubicSpline.solve_looped. intros H. invert_bind H.
  destruct x as [s1 flag]. apply check_minimum_size_size in E.
  destruct flag.
  - injection H as _ <-. exact E.
  - cbv beta iota in H. invert_binds H. injection H as _ <-.
    match goal with
    | R : CubicSpline.set_results _ _ _ _ = Ok _ |- _ =>
        apply set_results_size in R
    end.
    congruence.
Qed.

Lemma for_each_sizes {S : Type}
      (body : S -> CubicSpline.t -> result (S * CubicSpline.t)) :
  (forall s x s' x', body s x = Ok (s', x') ->
                     CubicSpline.size x' = CubicSpline.size x) ->
  forall l s s' l',
    for_each body s l = Ok (s', l') ->
    map CubicSpline.size l' = map CubicSpline.size l.
Proof.
  intros Hb. induction l as [|x t IH]; intros s s' l' H; simpl in H.
  - now injection H as _ <-.
  - invert_bind H. destruct x0 as [s1 x1]. cbv beta iota in H.
    invert_bind H. destruct x0 as [s2 t']. injection H as _ <-.
    simpl. f_equal; eauto.
Qed.

(** An operation on the members, one after the other, that keeps the
    point count of each. *)
Lemma members_loop_sizes
      (step : Z -> CubicSpline.t -> result CubicSpline.t)
      (lo hi : Z) (l l' : list CubicSpline.t) :
  (forall n s s', step n s = Ok s' ->
                  CubicSpline.size s' = CubicSpline.size s) ->
  for_range lo hi
    (fun n splines =>
       s <- vget splines n ;; s <- step n s ;; vset splines n s) l
  = Ok l' ->
  map CubicSpline.size l' = map CubicSpline.size l.
Proof.
  intros Hs H.
  apply (for_loop_preserves
           (fun x => map CubicSpline.size x = map CubicSpline.size l)) in H;
    auto.
  intros i v v' Hv Hb. do 2 invert_bind Hb.
  apply vset_upd in Hb. subst v'. rewrite <- Hv.
  apply (map_upd_same CubicSpline.size v _ x0 x).
  - now apply vget_nth_error.
  - eauto.
Qed.

Lemma spline_set_point_size s i v s' :
  CubicSpline.set_point s i v = Ok s' ->
  CubicSpline.size s' = CubicSpline.size s.
Proof.
  unfold CubicSpline.set_point, CubicSpline.size, vsize. intros H.
  invert_binds H. injection H as <-.
  cbn [CubicSpline.with_points CubicSpline.m_points].
  match goal with
  | R : vmodify _ _ _ = Ok _ |- _ => now rewrite (vmodify_length _ _ _ _ R)
  end.
Qed.

Lemma spline_set_coefficients_size s i vb vc vd s' :
  CubicSpline.set_coefficients s i vb vc vd = Ok s' ->
  CubicSpline.size s' = CubicSpline.size s.
Proof.
  unfold CubicSpline.set_coefficients, CubicSpline.size, vsize. intros H.
  invert_binds H. injection H as <-.
  cbn [CubicSpline.with_points CubicSpline.m_points].
  match goal with
  | R : vmodify _ _ _ = Ok _ |- _ => now rewrite (vmodify_length _ _ _ _ R)
  end.
Qed.

Lemma member_replaced_sizes (v v' : list CubicSpline.t) (n : Z)
      (s s' : CubicSpline.t) :
  vget v n = Ok s -> CubicSpline.size s' = CubicSpline.size s ->
  vset v n s' = Ok v' ->
  map CubicSpline.size v' = map CubicSpline.size v.
Proof.
  intros Hg Hs Hv. apply vset_upd in Hv. subst v'.
  apply (map_upd_same CubicSpline.size v _ s' s); [|exact Hs].
  now apply vget_nth_error.
Qed.

Lemma set_point_sizes p i v p' :
  CubicSplineN.set_point p i v = Ok p' ->
  map CubicSpline.size (CubicSplineN.m_splines p')
  = map CubicSpline.size (CubicSplineN.m_splines p).
Proof.
  unfold CubicSplineN.set_point. intros H. invert_binds H.
  injection H as <-. cbn [CubicSplineN.with_splines CubicSplineN.m_splines].
  match goal with
  | R : for_range _ _ _ _ = Ok _ |- _ =>
      apply (for_loop_preserves
               (fun x => map CubicSpline.size x
                         = map CubicSpline.size (CubicSplineN.m_splines p)))
        in R; auto
  end.
  intros n l l' Hl Hb. invert_binds Hb. rewrite <- Hl.
  match goal with
  | G : vget l n = Ok ?s, R : CubicSpline.set_point ?s _ _ = Ok ?s' |- _ =>
      exact (member_replaced_sizes l l' n s s' G
               (spline_set_point_size _ _ _ _ R) Hb)
  end.
Qed.

Lemma set_coefficients_sizes p i vb vc vd p' :
  CubicSplineN.set_coefficients p i vb vc vd = Ok p' ->
  map CubicSpline.size (CubicSplineN.m_splines p')
  = map CubicSpline.size (CubicSplineN.m_splines p).
Proof.
  unfold CubicSplineN.set_coefficients. intros H. invert_binds H.
  injection H as <-. cbn [CubicSplineN.with_splines CubicSplineN.m_splines].
  match goal with
  | R : for_range _ _ _ _ = Ok _ |- _ =>
      apply (for_loop_preserves
               (fun x => map CubicSpline.size x
                         = map CubicSpline.size (CubicSplineN.m_splines p)))
        in R; auto
  end.
  intros n l l' Hl Hb. invert_binds Hb. rewrite <- Hl.
  match goal with
  | G : vget l n = Ok ?s,
    R : CubicSpline.set_coefficients ?s _ _ _ _ = Ok ?s' |- _ =>
      exact (member_replaced_sizes l l' n s s' G
               (spline_set_coefficients_size _ _ _ _ _ _ R) Hb)
  end.
Qed.

Lemma set_spatial_extent_sizes p i extent p' :
  CubicSplineN.set_spatial_extent p i extent = Ok p' ->
  map CubicSpline.size (CubicSplineN.m_splines p')
  = map CubicSpline.size (CubicSplineN.m_splines p).
Proof.
  unfold CubicSplineN.set_spatial_extent. intros H. invert_binds H.
  injection H as <-. cbn [CubicSplineN.with_splines CubicSplineN.m_splines].
  match goal with
  | R : vmodify _ _ _ = Ok _ |- _ =>
      apply (vmodify_map CubicSpline.size) in R; [exact R|reflexivity]
  end.
Qed.

Lemma solve_sizes sc p sc' p' :
  CubicSplineN.solve sc p = Ok (sc', p') ->
  map CubicSpline.size (CubicSplineN.m_splines p')
  = map CubicSpline.size (CubicSplineN.m_splines p).
Proof.
  unfold CubicSplineN.solve.
  destruct (negb (CubicSplineN.m_dirty p)).
  - now intros [= _ <-].
  - intros H. invert_binds H. injection H as _ <-.
    cbn [CubicSplineN.with_splines CubicSplineN.m_splines].
    destruct (CubicSplineN.loop p).
    + eapply for_each_sizes; [|eassumption]. apply solve_looped_size.
    + eapply for_each_sizes; [|eassumption]. apply solve_straight_size.
Qed.

Lemma uniform_by_sizes (p p' : CubicSplineN.t) :
  incl (map CubicSpline.size (CubicSplineN.m_splines p'))
       (map CubicSpline.size (CubicSplineN.m_splines p)) ->
  CubicSplineN.uniform p -> CubicSplineN.uniform p'.
Proof.
  intros Hincl Hu s1 s2 H1 H2.
  apply (in_map CubicSpline.size) in H1, H2.
  apply Hincl in H1, H2.
  apply in_map_iff in H1 as (t1 & <- & T1), H2 as (t2 & <- & T2).
  now apply Hu.
Qed.

Lemma resize_uniform (p : CubicSplineN.t) (s : Z) :
  CubicSplineN.uniform (CubicSplineN.resize p s).
Proof.
  assert (Hsize : forall x, In x (CubicSplineN.m_splines
                                    (CubicSplineN.resize p s)) ->
                            CubicSpline.size x = Z.of_nat (Z.to_nat s)).
  { cbn [CubicSplineN.resize CubicSplineN.with_splines
           CubicSplineN.m_splines].
    intros x Hx. apply in_map_iff in Hx as (y & <- & _).
    unfold CubicSpline.resize, CubicSpline.size, vsize, vresize.
    cbn [CubicSpline.with_points CubicSpline.m_points].
    rewrite length_app, length_firstn, repeat_length. lia. }
  intros s1 s2 H1 H2. now rewrite (Hsize s1 H1), (Hsize s2 H2).
Qed.

(** [redimension] keeps the point counts equal when it removes
    dimensions, and when it adds some to a bundle of splines without
    points. *)
Lemma redimension_uniform (p : CubicSplineN.t) (d : Z) :
  d <= CubicSplineN.dimension p \/ CubicSplineN.size p = 0 ->
  CubicSplineN.uniform p ->
  CubicSplineN.uniform (CubicSplineN.redimension p d).
Proof.
  unfold CubicSplineN.dimension, CubicSplineN.size, vsize.
  intros Hd Hu s1 s2.
  cbn [CubicSplineN.redimension CubicSplineN.with_splines
         CubicSplineN.m_splines]. unfold vresize.
  assert (Hin : forall x,
             In x (firstn (Z.to_nat d) (CubicSplineN.m_splines p)
                     ++ repeat CubicSpline.empty_spline
                          (Z.to_nat d - length (CubicSplineN.m_splines p)))
             -> In x (CubicSplineN.m_splines p)
                \/ (CubicSplineN.size p = 0 /\ CubicSpline.size x = 0)).
  { intros x Hx. apply in_app_or in Hx as [Hx|Hx].
    - left. rewrite <- (firstn_skipn (Z.to_nat d) (CubicSplineN.m_splines p)).
      apply in_or_app. now left.
    - destruct Hd as [Hd|Hd].
      + unfold CubicSplineN.dimension, vsize in Hd.
        replace (Z.to_nat d - length (CubicSplineN.m_splines p))%nat
          with 0%nat in Hx by lia.
        contradiction.
      + apply repeat_spec in Hx. subst x.
        right. split; [exact Hd | reflexivity]. }
  assert (Hzero : CubicSplineN.size p = 0 ->
                  forall x, In x (CubicSplineN.m_splines p) ->
                            CubicSpline.size x = 0).
  { unfold CubicSplineN.size. intros Hz x Hx.
    destruct (CubicSplineN.m_splines p) as [|h t] eqn:E; [contradiction|].
    rewrite <- Hz. apply Hu; rewrite E; [exact Hx | now left]. }
  intros H1 H2. apply Hin in H1, H2.
  destruct H1 as [H1|[Z1 H1]], H2 as [H2|[Z2 H2]].
  - now apply Hu.
  - rewrite H2. now apply Hzero.
  - rewrite H1. symmetry. now apply Hzero.
  - congruence.
Qed.

(** Every operation of the bundle keeps the point counts of its members
    equal, [redimension] only under the condition above. *)
Lemma run_keeps_uniform sc p op sc' p' :
  CubicSplineN.uniform p ->
  (forall d, op = CubicSplineN.OpRedimension d ->
             d <= CubicSplineN.dimension p \/ CubicSplineN.size p = 0) ->
  CubicSplineN.run sc p op = Ok (sc', p') ->
  CubicSplineN.uniform p'.
Proof.
  intros Hu Hd. destruct op; cbn [CubicSplineN.run]; intros H.
  - invert_binds H. injection H as _ <-.
    eapply uniform_by_sizes; [|exact Hu].
    erewrite set_point_sizes by eassumption. apply incl_refl.
  - invert_binds H. injection H as _ <-.
    eapply uniform_by_sizes; [|exact Hu].
    erewrite set_coefficients_sizes by eassumption. apply incl_refl.
  - invert_binds H. injection H as _ <-.
    eapply uniform_by_sizes; [|exact Hu].
    erewrite set_spatial_extent_sizes by eassumption. apply incl_refl.
  - injection H as _ <-. apply resize_uniform.
  - injection H as _ <-. apply redimension_uniform; auto.
  - eapply uniform_by_sizes; [|exact Hu].
    erewrite solve_sizes by eassumption. apply incl_refl.
Qed.
(* ================================================================== *)
(** ** [loop_space_difference] *)
(* ================================================================== *)

(** C9.  [loop_space_difference a b extent] is one of the two wrapped
    candidates [a - (b + extent)] and [a - (b - extent)], never a third
    value: the first when its magnitude is strictly smaller, the second
    otherwise, so that, unless a candidate is NaN, its magnitude is at
    most that of either candidate.  With [extent = 0.0f] the result is
    exactly [a - b] and the two candidates are the same number; with
    [extent = -0.0f] the result is the same number as [a - b].  The
    function is a total function of its three arguments. *)
Theorem loop_space_difference_two_candidates (a b extent : float) :
  let plus_diff := F32.sub a (F32.add b extent) in
  let minus_diff := F32.sub a (F32.sub b extent) in
  let r := loop_space_difference a b extent in
  (r = plus_diff \/ r = minus_diff) /\
  r = (if F32.ltb (F32.abs plus_diff) (F32.abs minus_diff)
       then plus_diff else minus_diff) /\
  (F32.is_nan plus_diff || F32.is_nan minus_diff
   || (F32.leb (F32.abs r) (F32.abs plus_diff)
       && F32.leb (F32.abs r) (F32.abs minus_diff)) = true) /\
  loop_space_difference a b F32.zero = F32.sub a b /\
  F32.same_number (F32.sub a (F32.add b F32.zero))
                  (F32.sub a (F32.sub b F32.zero)) /\
  F32.same_number (loop_space_difference a b (S754_zero true)) (F32.sub a b).
Proof.
  intros plus_diff minus_diff r.
  assert (Hr : r = if F32.ltb (F32.abs plus_diff) (F32.abs minus_diff)
                   then plus_diff else minus_diff) by reflexivity.
  split; [|split; [exact Hr|split; [|split; [|split]]]].
  - rewrite Hr. collapse_if; auto.
  - destruct (F32.is_nan plus_diff) eqn:Np; [reflexivity|].
    destruct (F32.is_nan minus_diff) eqn:Nm; [reflexivity|]. simpl.
    rewrite Hr.
    destruct (F32.ltb (F32.abs plus_diff) (F32.abs minus_diff)) eqn:L.
    + rewrite leb_refl by now rewrite is_nan_abs.
      now rewrite (ltb_leb _ _ L).
    + rewrite leb_refl by now rewrite is_nan_abs.
      rewrite (not_ltb_leb _ _) ; auto; now rewrite is_nan_abs.
  - unfold loop_space_difference; cbv zeta. rewrite !sub_zero_r.
    destruct (F32.eq_dec b (S754_zero true)) as [->|Hb].
    + destruct a as [[|]|[|]| |[|] m e]; cbn; try reflexivity;
        now collapse_if.
    + rewrite add_zero_r by exact Hb. now collapse_if.
  - rewrite sub_zero_r.
    destruct (F32.eq_dec b (S754_zero true)) as [->|Hb].
    + apply sub_either_zero.
    + rewrite add_zero_r by exact Hb. now left.
  - unfold loop_space_difference; cbv zeta. rewrite !add_negzero_r.
    destruct (F32.eq_dec b (S754_zero true)) as [->|Hb].
    + destruct a as [[|]|[|]| |[|] m e]; cbn;
        try (left; reflexivity); try (right; split; reflexivity);
        left; now collapse_if.
    + rewrite sub_negzero_r by exact Hb. left. now collapse_if.
Qed.
(* ================================================================== *)
(** ** The periodic diagonal solve *)
(* ================================================================== *)

Lemma looped_elimination_spec (diagonals : list float) :
  (2 <= length diagonals)%nat ->
  looped_elimination diagonals
  = Ok (Spec.periodic_elimination (repeat F32.four (length diagonals))).
Proof.
  intros Hn.
  rewrite looped_elimination_init by lia.
  rewrite looped_forward_closed by lia.
  rewrite periodic_elimination_closed by lia.
  destruct (same_outcome_eq _ _ (same_outcome_always (length diagonals - 2)))
    as [-> ->].
  reflexivity.
Qed.

(** C5.  For every vector of at least 3 entries, the computation of
    [solve_diagonals_looped] (every entry first set to 4) yields exactly
    the vector of the specified elimination: [cedge] and [redge] start at
    1; step [i], for [i] from 0 to [n-3], takes [recip = 1/d[i]], updates
    [d[i+1] -= recip] and [d[n-1] -= redge * (cedge * recip)] and passes
    on [-cedge * recip] and [-redge * recip]; the final correction is
    [d[n-1] -= redge * ((1 - cedge) / d[n-2])].  These are the diagonals
    that [solve_diagonals_looped] returns from every cache the program
    reaches. *)
Theorem looped_elimination_as_specified (diagonals : list float) :
  (3 <= length diagonals)%nat ->
  looped_elimination diagonals
  = Ok (Spec.periodic_elimination (repeat F32.four (length diagonals))) /\
  (forall sc,
      reachable sc ->
      diagonals_of (solve_diagonals_looped sc diagonals)
      = Ok (Spec.periodic_elimination
              (repeat F32.four (length diagonals)))).
Proof.
  intros Hn. split.
  - apply looped_elimination_spec. lia.
  - intros sc Hr. rewrite solve_diagonals_looped_reachable by exact Hr.
    rewrite looped_elimination_spec by (rewrite repeat_length; lia).
    now rewrite repeat_length.
Qed.

(* ================================================================== *)
(** ** The bound of the cache pools *)
(* ================================================================== *)

(** Seventeen insertions of vectors of pairwise different lengths. *)
Lemma seventeen_insertions (cache ins : list (list float)) :
  vsize cache <= 16 ->
  length ins = 17%nat ->
  NoDup (map (@length float) ins) ->
  insert_all cache ins = rev (tl ins) /\
  (forall e out,
      In e (tl ins) -> length out = length e ->
      find_in_cache (insert_all cache ins) out = Ok (true, e)) /\
  (forall out,
      length out = length (hd [] ins) ->
      find_in_cache (insert_all cache ins) out = Ok (false, out)).
Proof.
  intros Hc Hlen Hnd.
  destruct ins as [|x0 rest]; [discriminate|].
  assert (Hrest : length rest = 16%nat) by (simpl in Hlen; lia).
  assert (Hpool : insert_all cache (x0 :: rest) = rev rest).
  { rewrite insert_all_firstn by exact Hc. cbn [rev].
    rewrite <- app_assoc, firstn_app, length_rev, Hrest, Nat.sub_diag.
    rewrite firstn_all2 by (rewrite length_rev; lia).
    rewrite firstn_O. apply app_nil_r. }
  cbn [tl hd]. rewrite Hpool. cbn [map] in Hnd.
  inversion Hnd as [|? ? Hnotin Hnd']; subst.
  split; [reflexivity|split].
  - intros e out Hin Hout. rewrite find_in_cache_find.
    rewrite (find_by_length (rev rest) e out); auto.
    + rewrite map_rev. apply NoDup_rev. exact Hnd'.
    + now apply in_rev in Hin.
  - intros out Hout. rewrite find_in_cache_find.
    rewrite find_no_length; [reflexivity|].
    rewrite map_rev, <- in_rev, Hout. exact Hnotin.
Qed.

(** C7.  A pool never holds more than 16 entries: [add_to_cache] puts the
    new entry at the front, after removing the back entry when the pool
    already holds 16, and every cache the program reaches has both pools
    within the bound.  After 17 vectors of pairwise different lengths
    have been inserted into a pool, the pool holds the last 16 of them,
    the newest at the front: each of these is found again by a lookup of
    its length, and a lookup of the length of the first one misses.  So
    it is after open solves for 17 different point counts on the cache
    of a starting program.  A solve that finds its length in the pool
    returns the entry found and leaves the cache as it is: a hit moves
    no entry, the order of a pool is the order of the insertions. *)
Theorem cache_pool_bounded_oldest_evicted :
  (forall cache out,
      add_to_cache cache out
      = out :: (if 16 <=? vsize cache then removelast cache else cache)) /\
  (forall cache out,
      vsize cache <= 16 -> vsize (add_to_cache cache out) <= 16) /\
  (forall sc,
      reachable sc ->
      vsize (straight_diagonals sc) <= 16 /\
      vsize (looped_diagonals sc) <= 16) /\
  (forall cache ins,
      vsize cache <= 16 ->
      length ins = 17%nat ->
      NoDup (map (@length float) ins) ->
      insert_all cache ins = rev (tl ins) /\
      (forall e out,
          In e (tl ins) -> length out = length e ->
          find_in_cache (insert_all cache ins) out = Ok (true, e)) /\
      (forall out,
          length out = length (hd [] ins) ->
          find_in_cache (insert_all cache ins) out = Ok (false, out))) /\
  (forall sizes,
      length sizes = 17%nat ->
      NoDup sizes ->
      (forall n, In n sizes -> (2 <= n)%nat) ->
      exists sc,
        solve_straight_all SplineSolutionCache.initial sizes = Ok sc /\
        straight_diagonals sc
        = rev (map straight_diagonals_for (tl sizes)) /\
        (forall n,
            In n (tl sizes) ->
            find_in_cache (straight_diagonals sc) (repeat F32.zero n)
            = Ok (true, straight_diagonals_for n)) /\
        find_in_cache (straight_diagonals sc)
                      (repeat F32.zero (hd 0%nat sizes))
        = Ok (false, repeat F32.zero (hd 0%nat sizes))) /\
  (forall sc out e sc' d,
      (find (fun e' => vsize out =? vsize e') (straight_diagonals sc)
       = Some e ->
       solve_diagonals_straight sc out = Ok (sc', d) ->
       sc' = sc /\ d = e) /\
      (find (fun e' => vsize out =? vsize e') (looped_diagonals sc)
       = Some e ->
       solve_diagonals_looped sc out = Ok (sc', d) ->
       sc' = sc /\ d = e)).
Proof.
  split; [reflexivity|].
  split; [exact add_to_cache_bounded|].
  split; [exact reachable_bounded|].
  split; [exact seventeen_insertions|].
  split.
  2: { intros sc out e sc' d. split; intros Hf Hs.
       - apply solve_diagonals_straight_cases in Hs
           as [(-> & F)|(F & _)]; [|congruence].
         split; [reflexivity | congruence].
       - apply solve_diagonals_looped_cases in Hs
           as [(-> & F)|(F & _)]; [|congruence].
         split; [reflexivity | congruence]. }
  intros sizes Hlen Hnd H2.
  eexists. split.
  - apply solve_straight_all_inserts; auto.
  - cbn [straight_diagonals SplineSolutionCache.initial].
    destruct (seventeen_insertions [] (map straight_diagonals_for sizes))
      as (Hpool & Hhit & Hmiss).
    + discriminate.
    + now rewrite length_map.
    + now rewrite map_length_straight_diagonals_for.
    + rewrite Hpool in *.
      destruct sizes as [|n0 rest]; [discriminate|]. cbn [map tl hd] in *.
      split; [reflexivity|split].
      * intros n Hn. apply Hhit; [now apply in_map|].
        rewrite repeat_length. symmetry.
        apply straight_diagonals_for_spec. apply H2. now right.
      * apply Hmiss. rewrite repeat_length. symmetry.
        apply straight_diagonals_for_spec. apply H2. now left.
Qed.

(* ================================================================== *)
(** ** Hits and misses return the same diagonals *)
(* ================================================================== *)

(** C8.  Whatever the cache the program has reached, the diagonals that
    [solve_diagonals_straight] and [solve_diagonals_looped] return for a
    vector are those that the elimination computes for a vector of that
    length, so two solves of equal length return identical diagonals,
    one through a hit and the other through a miss alike; from 2 entries
    on both solvers do return diagonals. *)
Theorem cache_transparency (sc1 sc2 : SplineSolutionCache.t)
        (out1 out2 : list float) :
  reachable sc1 -> reachable sc2 -> length out1 = length out2 ->
  diagonals_of (solve_diagonals_straight sc1 out1)
  = diagonals_of (solve_diagonals_straight sc2 out2) /\
  diagonals_of (solve_diagonals_looped sc1 out1)
  = diagonals_of (solve_diagonals_looped sc2 out2) /\
  diagonals_of (solve_diagonals_straight sc1 out1)
  = straight_elimination (repeat F32.zero (length out1)) /\
  diagonals_of (solve_diagonals_looped sc1 out1)
  = looped_elimination (repeat F32.zero (length out1)) /\
  ((2 <= length out1)%nat ->
   exists ds dl,
     diagonals_of (solve_diagonals_straight sc1 out1) = Ok ds /\
     diagonals_of (solve_diagonals_looped sc1 out1) = Ok dl).
Proof.
  intros H1 H2 Hlen.
  rewrite !solve_diagonals_straight_reachable,
          !solve_diagonals_looped_reachable by assumption.
  rewrite Hlen. repeat split.
  intros Hn.
  destruct (straight_forward_defined (length out2) Hn) as (ds & Es).
  exists ds. eexists. split.
  - rewrite straight_elimination_init by (rewrite repeat_length; lia).
    rewrite repeat_length. exact Es.
  - rewrite looped_elimination_init by (rewrite repeat_length; lia).
    rewrite repeat_length. apply looped_forward_closed. exact Hn.
Qed.


(* ================================================================== *)
(** ** The derivative before the first point *)
(* ================================================================== *)

(** C10.  On a spline that is not empty, [evaluate_derivative] without
    looping returns 0 for every [t <= -1] (that [static_cast<int>]
    converts, that is from [-2^31] on): the integer part is negative,
    its conversion to [size_t] wraps around to at least [2^64 - 2^31] and
    so is not below [n - 1].  For [-1 < t < 0] the integer part is 0 and,
    on a spline of at least 2 points, the polynomial of segment 0 is
    evaluated at the negative fraction [t]; on a spline of one point the
    integer part 0 is not below [n - 1 = 0] and the result is 0 there
    too. *)
Theorem evaluate_derivative_before_start
        (fuel : nat) (s : CubicSpline.t) (t : float) :
  1 <= vsize (CubicSpline.m_points s) <= max_points ->
  F32.valid t = true ->
  (F32.leb (F32.of_Z INT_MIN) t = true ->
   F32.leb t (F32.of_Z (-1)) = true ->
   CubicSpline.evaluate_derivative fuel s t false = Ok F32.zero) /\
  (2 <= vsize (CubicSpline.m_points s) ->
   F32.ltb (F32.of_Z (-1)) t = true ->
   F32.ltb t F32.zero = true ->
   exists p0 rest,
     CubicSpline.m_points s = p0 :: rest /\
     CubicSpline.evaluate_derivative fuel s t false
     = Ok (F32.add
             (F32.add (CubicSpline.b p0)
                      (F32.mul (F32.mul F32.two (CubicSpline.c p0)) t))
             (F32.mul (F32.mul F32.three (CubicSpline.d p0))
                      (F32.mul t t)))) /\
  (vsize (CubicSpline.m_points s) = 1 ->
   F32.ltb (F32.of_Z (-1)) t = true ->
   F32.ltb t F32.zero = true ->
   CubicSpline.evaluate_derivative fuel s t false = Ok F32.zero).
Proof.
  intros Hn Hv.
  assert (Hne : (vsize (CubicSpline.m_points s) =? 0) = false)
    by (apply Z.eqb_neq; lia).
  split; [|split].
  - intros Hlo Hhi.
    destruct (static_cast_int_negative t Hv Hlo Hhi) as (k & Hk & Hk1 & Hk2).
    unfold CubicSpline.evaluate_derivative. rewrite Hne, Hk. cbn [bind].
    unfold size_sub, size_of_int, SIZE_MODULUS.
    replace (1 <=? vsize (CubicSpline.m_points s)) with true
      by (symmetry; apply Z.leb_le; lia).
    replace (0 <=? k) with false by (symmetry; apply Z.leb_gt; lia).
    unfold INT_MIN in Hk1. unfold max_points in Hn.
    change (- 2 ^ 31) with (-2147483648) in Hk1.
    change (2 ^ 59) with 576460752303423488 in Hn.
    change (2 ^ 64) with 18446744073709551616.
    replace (vsize (CubicSpline.m_points s) - 1
             <=? k + 18446744073709551616) with true
      by (symmetry; apply Z.leb_le; lia).
    reflexivity.
  - intros H2 Hlo Hhi.
    destruct (CubicSpline.m_points s) as [|p0 rest] eqn:Hp;
      [unfold vsize in H2; simpl in H2; lia|].
    exists p0, rest. split; [reflexivity|].
    unfold CubicSpline.evaluate_derivative.
    rewrite Hp, Hne, (static_cast_int_fraction t Hv Hlo Hhi). cbn [bind].
    unfold CubicSpline.evaluate_derivative_segment.
    unfold size_sub, size_of_int.
    replace (1 <=? vsize (p0 :: rest)) with true
      by (symmetry; apply Z.leb_le; lia).
    change (0 <=? 0) with true. cbv iota.
    replace (vsize (p0 :: rest) - 1 <=? 0) with false
      by (symmetry; apply Z.leb_gt; lia).
    rewrite Z.min_l by lia. rewrite vget_head. cbn [bind].
    change (F32.of_Z 0) with F32.zero. rewrite sub_zero_r. reflexivity.
  - intros H1 Hlo Hhi.
    unfold CubicSpline.evaluate_derivative.
    rewrite Hne, (static_cast_int_fraction t Hv Hlo Hhi), H1.
    reflexivity.
Qed.

(* ================================================================== *)
(** ** Where the code departs from its specification *)
(* ================================================================== *)

(** C1.  The open spline through 0, 10, 0 is solved, every point is set
    to 5 and the spline is solved again.  [check_minimum_size] finds the
    points identical and skips the solve, yet the first point keeps the
    coefficients of the earlier solve ([b = 15]): its loop starts at
    point 1.  The curve is not flat: at [t = 0.5] the looped evaluation
    is not 5 and the derivative is not 0. *)
Theorem flattened_spline_keeps_first_coefficients :
  exists sc s v v',
    solved_then_flattened = Ok (sc, s) /\
    map CubicSpline.a (CubicSpline.m_points s)
    = [F32.of_Z 5; F32.of_Z 5; F32.of_Z 5] /\
    map CubicSpline.b (CubicSpline.m_points s)
    = [F32.of_Z 15; F32.zero; F32.zero] /\
    CubicSpline.check_minimum_size s = Ok (s, true) /\
    CubicSpline.evaluate 1 s F32.half true = Ok v /\
    F32.eqb v (F32.of_Z 5) = false /\
    CubicSpline.evaluate_derivative 0 s F32.half false = Ok v' /\
    F32.eqb v' F32.zero = false.
Proof.
  do 4 eexists.
  split; [vm_compute; reflexivity|].
  split; [vm_compute; reflexivity|].
  split; [vm_compute; reflexivity|].
  split; [vm_compute; reflexivity|].
  split; [vm_compute; reflexivity|].
  split; [vm_compute; reflexivity|].
  split; vm_compute; reflexivity.
Qed.

(** C2.  On the solved open spline through 0, 10, 0, [evaluate] at
    [t = 0.5] without looping returns the value 0 of the first point:
    the test [flort <= 0] holds for every [t < 1].  The cubic of segment
    0 at the fraction 0.5 is another number (about 7.72). *)
Theorem evaluate_clamps_first_segment :
  exists sc s v,
    solved_0_10_0 = Ok (sc, s) /\
    static_cast_int F32.half = Ok 0 /\
    CubicSpline.evaluate 0 s F32.half false = Ok F32.zero /\
    CubicSpline.evaluate_segment (CubicSpline.m_points s) F32.half 0
    = Ok v /\
    F32.eqb v F32.zero = false /\
    CubicSpline.evaluate_derivative_segment (CubicSpline.m_points s)
                                            F32.half 0
    = CubicSpline.evaluate_derivative 0 s F32.half false.
Proof.
  do 3 eexists.
  split; [vm_compute; reflexivity|].
  split; [vm_compute; reflexivity|].
  split; [vm_compute; reflexivity|].
  split; [vm_compute; reflexivity|].
  split; vm_compute; reflexivity.
Qed.

(** C3.  On a spline without points, [check_minimum_size] writes the
    coefficients of [m_points[0]], which is outside the vector: both
    solves are undefined, and so is [solve] on a bundle given a dimension
    and no points.  With one point the coefficients are set to 0. *)
Theorem solve_without_points_is_undefined
        (sc : SplineSolutionCache.t) (extent : float) :
  let s := {| CubicSpline.m_points := [];
              CubicSpline.m_spatial_extent := extent |} in
  CubicSpline.check_minimum_size s = Undefined /\
  CubicSpline.solve_straight sc s = Undefined /\
  CubicSpline.solve_looped sc s = Undefined /\
  CubicSplineN.run_all sc CubicSplineN.initial
    [CubicSplineN.OpRedimension 1; CubicSplineN.OpSolve] = Undefined /\
  (forall p,
      CubicSpline.check_minimum_size
        {| CubicSpline.m_points := [p];
           CubicSpline.m_spatial_extent := extent |}
      = Ok ({| CubicSpline.m_points :=
                 [CubicSpline.set_bcd F32.zero F32.zero F32.zero p];
               CubicSpline.m_spatial_extent := extent |}, true)).
Proof.
  repeat split.
Qed.

(** C4.  On the right-hand side of the values 0, 10, 0 the loop of
    [solve_straight] computes [rhs[1] -= rhs[0] * (1 / d[1])] and leaves
    [rhs[2]] as it was, where the elimination that mirrors the one of the
    diagonal computes [rhs[2] -= rhs[1] / d[1]]: the two results differ
    in the entries 1 and 2. *)
Theorem straight_rhs_elimination_differs :
  exists r,
    CubicSpline.straight_elimination 3 diagonals_3 rhs_0_10_0 = Ok r /\
    r <> Spec.open_rhs_elimination diagonals_3 rhs_0_10_0 /\
    nth 2 r F32.zero = F32.of_Z (-30) /\
    F32.eqb (nth 1 (Spec.open_rhs_elimination diagonals_3 rhs_0_10_0)
                 F32.zero)
            (F32.of_Z (-15)) = true /\
    F32.eqb (nth 1 r F32.zero) (F32.of_Z (-15)) = false /\
    F32.eqb (nth 2 (Spec.open_rhs_elimination diagonals_3 rhs_0_10_0)
                 F32.zero)
            (F32.of_Z (-30)) = false.
Proof.
  eexists.
  split; [vm_compute; reflexivity|].
  split; [vm_compute; discriminate|].
  split; [vm_compute; reflexivity|].
  split; [vm_compute; reflexivity|].
  split; vm_compute; reflexivity.
Qed.

(** C6.  A bundle is given one dimension, three points and then a second
    dimension: [redimension] appends a spline without points, so the two
    member splines have 3 and 0 points.  The index 1 is below the size
    that the bundle reports, yet [set_point] at 1 fails the assertion of
    the second spline. *)
Theorem redimension_breaks_equal_sizes :
  exists sc p,
    grown_bundle = Ok (sc, p) /\
    map CubicSpline.size (CubicSplineN.m_splines p) = [3; 0] /\
    ~ CubicSplineN.uniform p /\
    CubicSplineN.size p = 3 /\
    CubicSplineN.set_point p 1 [F32.zero; F32.zero] = AssertFailed.
Proof.
  do 2 eexists.
  split; [vm_compute; reflexivity|].
  split; [reflexivity|].
  split.
  - intros H.
    specialize (H _ _ (or_introl eq_refl) (or_intror (or_introl eq_refl))).
    discriminate H.
  - split; reflexivity.
Qed.

(* ================================================================== *)
(** ** The theorems at concrete inputs *)
(* ================================================================== *)

(** The periodic solve of 5 points. *)
Lemma looped_elimination_as_specified_witness :
  looped_elimination (repeat F32.zero 5)
  = Ok (Spec.periodic_elimination (repeat F32.four 5)) /\
  (forall sc,
      reachable sc ->
      diagonals_of (solve_diagonals_looped sc (repeat F32.zero 5))
      = Ok (Spec.periodic_elimination (repeat F32.four 5))).
Proof.
  apply (looped_elimination_as_specified (repeat F32.zero 5)).
  simpl. lia.
Defined.

Lemma seventeen_vectors_distinct :
  NoDup (map (@length float) seventeen_vectors).
Proof.
  unfold seventeen_vectors. rewrite map_map.
  rewrite (map_ext _ (fun n => n)) by (intros n; apply repeat_length).
  rewrite map_id. apply seq_NoDup.
Qed.

(** Seventeen insertions into an empty pool, the initial cache, and the
    open solves for 3 to 19 points. *)
Lemma cache_pool_bounded_oldest_evicted_witness :
  (insert_all [] seventeen_vectors = rev (tl seventeen_vectors) /\
   find_in_cache (insert_all [] seventeen_vectors) (repeat F32.one 19)
   = Ok (true, repeat F32.zero 19) /\
   find_in_cache (insert_all [] seventeen_vectors) (repeat F32.one 3)
   = Ok (false, repeat F32.one 3)) /\
  vsize (straight_diagonals SplineSolutionCache.initial) <= 16 /\
  exists sc,
    solve_straight_all SplineSolutionCache.initial (seq 3 17) = Ok sc /\
    straight_diagonals sc
    = rev (map straight_diagonals_for (seq 4 16)) /\
    find_in_cache (straight_diagonals sc) (repeat F32.zero 3)
    = Ok (false, repeat F32.zero 3).
Proof.
  destruct cache_pool_bounded_oldest_evicted as (_ & _ & Hr & H & Hs & _).
  split; [|split].
  - destruct (H [] seventeen_vectors) as (H1 & H2 & H3).
    + unfold vsize. simpl. lia.
    + reflexivity.
    + exact seventeen_vectors_distinct.
    + split; [exact H1|]. split.
      * apply H2; [|reflexivity].
        unfold seventeen_vectors. simpl. tauto.
      * apply H3. reflexivity.
  - apply (Hr SplineSolutionCache.initial). constructor.
  - destruct (Hs (seq 3 17)) as (sc & E & Hp & _ & Hm).
    + reflexivity.
    + apply seq_NoDup.
    + intros n Hn. apply in_seq in Hn. lia.
    + exists sc. split; [exact E|]. split; [exact Hp | exact Hm].
Defined.

Lemma cache_after_3_reachable : reachable cache_after_3.
Proof.
  apply (reachable_straight SplineSolutionCache.initial
           (repeat F32.zero 3) cache_after_3 diagonals_3
           reachable_initial).
  vm_compute. reflexivity.
Qed.

(** A miss on the fresh cache and a hit on the cache after one solve. *)
Lemma cache_transparency_witness :
  diagonals_of (solve_diagonals_straight SplineSolutionCache.initial
                  (repeat F32.zero 3))
  = diagonals_of (solve_diagonals_straight cache_after_3
                    (repeat F32.one 3)) /\
  diagonals_of (solve_diagonals_looped SplineSolutionCache.initial
                  (repeat F32.zero 3))
  = diagonals_of (solve_diagonals_looped cache_after_3
                    (repeat F32.one 3)) /\
  diagonals_of (solve_diagonals_straight SplineSolutionCache.initial
                  (repeat F32.zero 3))
  = straight_elimination (repeat F32.zero 3) /\
  diagonals_of (solve_diagonals_looped SplineSolutionCache.initial
                  (repeat F32.zero 3))
  = looped_elimination (repeat F32.zero 3) /\
  exists ds dl,
    diagonals_of (solve_diagonals_straight SplineSolutionCache.initial
                    (repeat F32.zero 3)) = Ok ds /\
    diagonals_of (solve_diagonals_looped SplineSolutionCache.initial
                    (repeat F32.zero 3)) = Ok dl.
Proof.
  destruct (cache_transparency SplineSolutionCache.initial cache_after_3
              (repeat F32.zero 3) (repeat F32.one 3)
              reachable_initial cache_after_3_reachable eq_refl)
    as (H1 & H2 & H3 & H4 & H5).
  repeat (split; [assumption|]).
  apply H5. simpl. lia.
Defined.

(** The derivative of the solved spline through 0, 10, 0 at [t = -2]
    and at [t = -0.5], and of a spline of one point at [t = -0.5]. *)
Lemma evaluate_derivative_before_start_witness :
  CubicSpline.evaluate_derivative 0 spline_0_10_0 (F32.of_Z (-2)) false
  = Ok F32.zero /\
  (exists p0 rest,
      CubicSpline.m_points spline_0_10_0 = p0 :: rest /\
      CubicSpline.evaluate_derivative 0 spline_0_10_0
                                      (F32.neg F32.half) false
      = Ok (F32.add
              (F32.add (CubicSpline.b p0)
                       (F32.mul (F32.mul F32.two (CubicSpline.c p0))
                                (F32.neg F32.half)))
              (F32.mul (F32.mul F32.three (CubicSpline.d p0))
                       (F32.mul (F32.neg F32.half) (F32.neg F32.half))))) /\
  CubicSpline.evaluate_derivative 0 one_steep_point (F32.neg F32.half) false
  = Ok F32.zero.
Proof.
  split; [|split].
  - refine (proj1 (evaluate_derivative_before_start 0 spline_0_10_0
                     (F32.of_Z (-2)) _ _) _ _).
    + vm_compute. split; discriminate.
    + reflexivity.
    + reflexivity.
    + reflexivity.
  - refine (proj1 (proj2 (evaluate_derivative_before_start 0 spline_0_10_0
                            (F32.neg F32.half) _ _)) _ _ _).
    + vm_compute. split; discriminate.
    + reflexivity.
    + vm_compute. discriminate.
    + reflexivity.
    + reflexivity.
  - refine (proj2 (proj2 (evaluate_derivative_before_start 0 one_steep_point
                            (F32.neg F32.half) _ _)) _ _ _).
    + vm_compute. split; discriminate.
    + reflexivity.
    + reflexivity.
    + reflexivity.
    + reflexivity.
Defined.

(* ================================================================== *)
(** ** Where two claims fail as they are worded *)
(* ================================================================== *)

(** C7, as it is worded, fails: open solves for 3, 4, ..., 18 points
    fill the pool, a further solve for 3 points uses the entry of 3, and
    the solve for 19 points then evicts that entry, the one used last,
    and keeps the entry of 4 points, the one used longest ago. *)
Lemma cache_evicts_entry_used_last :
  exists sc,
    solve_straight_all SplineSolutionCache.initial (seq 3 16 ++ [3; 19])%nat
    = Ok sc /\
    find_in_cache (straight_diagonals sc) (repeat F32.zero 3)
    = Ok (false, repeat F32.zero 3) /\
    find_in_cache (straight_diagonals sc) (repeat F32.zero 4)
    = Ok (true, straight_diagonals_for 4).
Proof.
  eexists. split; [vm_compute; reflexivity|].
  split; vm_compute; reflexivity.
Qed.

(** C10, as it is worded, fails twice.  At [t = -3000000000], below the
    range of [int], the conversion [static_cast<int>(t)] is undefined
    and no 0 is returned; and on a spline of one point the derivative at
    [t = -0.5] is 0, not the value 1.25 of the polynomial of the point. *)
Lemma evaluate_derivative_outside_int_or_one_point :
  F32.leb (F32.of_Z (-3000000000)) (F32.of_Z (-1)) = true /\
  CubicSpline.evaluate_derivative 0 (spline_of [1; 2])
    (F32.of_Z (-3000000000)) false = Undefined /\
  CubicSpline.evaluate_derivative 0 one_steep_point (F32.neg F32.half) false
  = Ok F32.zero /\
  F32.add
    (F32.add (F32.of_Z 1)
             (F32.mul (F32.mul F32.two (F32.of_Z 2)) (F32.neg F32.half)))
    (F32.mul (F32.mul F32.three (F32.of_Z 3))
             (F32.mul (F32.neg F32.half) (F32.neg F32.half)))
  = F32.div (F32.of_Z 5) F32.four.
Proof.
  repeat split; vm_compute; reflexivity.
Qed.

(* ================================================================== *)
(** ** Further properties: the cache *)
(* ================================================================== *)

Lemma find_pointwise {A : Type} (f g : A -> bool) (l : list A) :
  (forall x, f x = g x) -> find f l = find g l.
Proof.
  intros H. induction l as [|h t IH]; [reflexivity|].
  simpl. now rewrite H, IH.
Qed.

(** X1.  [find_in_cache] returns [true] and a copy of the first entry of
    the pool whose length is that of [out], and [false] with [out]
    untouched when the pool has no entry of that length. *)
Theorem find_in_cache_first_of_length
        (cache : list (list float)) (out : list float) :
  find_in_cache cache out
  = Ok (match find (fun e => length e =? length out)%nat cache with
        | Some e => (true, e)
        | None => (false, out)
        end).
Proof.
  rewrite find_in_cache_find.
  rewrite (find_pointwise (fun e => vsize out =? vsize e)
                          (fun e => (length e =? length out)%nat)).
  - reflexivity.
  - intros e. unfold vsize.
    destruct (Nat.eqb_spec (length e) (length out)) as [E|E].
    + rewrite E. apply Z.eqb_refl.
    + apply Z.eqb_neq. lia.
Qed.

(** X2.  Insert, then look up: after [add_to_cache] has put [entry] into
    a pool, whatever the pool held, a lookup with a vector of the length
    of [entry] hits and returns [entry]. *)
Theorem lookup_after_insert
        (cache : list (list float)) (entry out : list float) :
  length out = length entry ->
  find_in_cache (add_to_cache cache entry) out = Ok (true, entry).
Proof.
  intros H. rewrite find_in_cache_find. unfold add_to_cache.
  cbn [find]. unfold vsize. rewrite H, Z.eqb_refl. reflexivity.
Qed.

Lemma lookup_after_insert_witness :
  find_in_cache (add_to_cache [[F32.one]] [F32.two; F32.four])
                [F32.zero; F32.zero]
  = Ok (true, [F32.two; F32.four]).
Proof.
  apply (lookup_after_insert [[F32.one]] [F32.two; F32.four]
                             [F32.zero; F32.zero]).
  reflexivity.
Defined.

Lemma NoDup_removelast {A : Type} (l : list A) :
  NoDup l -> NoDup (removelast l).
Proof.
  induction l as [|h t IH]; intros H; [exact H|].
  inversion H as [|? ? Hn Ht]; subst.
  destruct t as [|h' t']; [constructor|].
  change (NoDup (h :: removelast (h' :: t'))).
  constructor; [|now apply IH].
  intros Hin. apply Hn.
  clear -Hin. revert h' Hin.
  induction t' as [|x t' IH']; intros h' Hin.
  - contradiction.
  - change (In h (h' :: removelast (x :: t'))) in Hin.
    destruct Hin as [->|Hin]; [now left|right; now apply IH'].
Qed.

Lemma map_removelast {A B : Type} (f : A -> B) (l : list A) :
  map f (removelast l) = removelast (map f l).
Proof.
  induction l as [|h t IH]; [reflexivity|].
  destruct t as [|h' t']; [reflexivity|].
  change (f h :: map f (removelast (h' :: t'))
          = f h :: removelast (map f (h' :: t'))).
  now rewrite IH.
Qed.

Lemma add_to_cache_distinct (cache : list (list float)) (d : list float) :
  NoDup (map (@length float) cache) ->
  find (fun e => vsize d =? vsize e) cache = None ->
  NoDup (map (@length float) (add_to_cache cache d)).
Proof.
  intros Hnd Hfind. unfold add_to_cache. cbn [map].
  assert (Hfresh : ~ In (length d) (map (@length float) cache)).
  { intros Hin. apply in_map_iff in Hin as (e & He & Hin).
    apply (find_none _ _ Hfind) in Hin. apply Z.eqb_neq in Hin.
    unfold vsize in Hin. lia. }
  constructor.
  - destruct (solution_cache_limit <=? vsize cache); [|exact Hfresh].
    intros Hin. apply Hfresh.
    apply in_map_iff in Hin as (e & He & Hin).
    apply in_removelast in Hin. rewrite <- He. now apply in_map.
  - destruct (solution_cache_limit <=? vsize cache); [|exact Hnd].
    rewrite map_removelast. now apply NoDup_removelast.
Qed.

(** X3.  In every cache that the program reaches, the entries of a pool
    have pairwise different lengths: a vector is inserted only after the
    lookup of its length has missed. *)
Theorem reachable_pools_distinct_lengths (sc : SplineSolutionCache.t) :
  reachable sc ->
  NoDup (map (@length float) (straight_diagonals sc)) /\
  NoDup (map (@length float) (looped_diagonals sc)).
Proof.
  induction 1 as [|sc d sc' d' _ [IH1 IH2] E|sc d sc' d' _ [IH1 IH2] E].
  - split; constructor.
  - apply solve_diagonals_straight_cases in E
      as [(-> & _)|(F & E & ->)]; [now split|].
    split; [|exact IH2]. cbn [straight_diagonals].
    apply add_to_cache_distinct; [exact IH1|].
    rewrite <- F. apply find_pointwise. intros e. unfold vsize.
    now rewrite (straight_elimination_length _ _ E).
  - apply solve_diagonals_looped_cases in E
      as [(-> & _)|(F & E & ->)]; [now split|].
    split; [exact IH1|]. cbn [looped_diagonals].
    apply add_to_cache_distinct; [exact IH2|].
    rewrite <- F. apply find_pointwise. intros e. unfold vsize.
    now rewrite (looped_elimination_length _ _ E).
Qed.

(** An equation between a computation on concrete inputs and its result. *)
Ltac run_solve :=
  match goal with
  | |- ?l = _ =>
      let v := eval vm_compute in l in
      transitivity v; [vm_compute; reflexivity | reflexivity]
  end.

(** Two open solves and two closed solves from the cache of a starting
    program. *)
Lemma cache_after_four_solves_reachable : reachable cache_after_four_solves.
Proof.
  eapply (reachable_looped _ (repeat F32.zero 3)).
  - eapply (reachable_looped _ (repeat F32.zero 5)).
    + eapply (reachable_straight _ (repeat F32.zero 4)).
      * eapply (reachable_straight _ (repeat F32.zero 3)).
        -- exact reachable_initial.
        -- run_solve.
      * run_solve.
    + run_solve.
  - run_solve.
Qed.

Lemma reachable_pools_distinct_lengths_witness :
  NoDup (map (@length float) (straight_diagonals cache_after_four_solves)) /\
  NoDup (map (@length float) (looped_diagonals cache_after_four_solves)).
Proof.
  apply (reachable_pools_distinct_lengths cache_after_four_solves).
  exact cache_after_four_solves_reachable.
Defined.

(* ================================================================== *)
(** ** Further properties: evaluation *)
(* ================================================================== *)

Lemma static_cast_int_range (t : float) (k : Z) :
  static_cast_int t = Ok k -> INT_MIN <= k <= INT_MAX.
Proof.
  unfold static_cast_int. destruct (F32.trunc t) as [z|]; [|discriminate].
  destruct ((INT_MIN <=? z) && (z <=? INT_MAX)) eqn:E; [|discriminate].
  intros [= <-]. apply andb_true_iff in E. lia.
Qed.

Lemma vget_nth_error_ok {A : Type} (v : list A) (i : Z) :
  0 <= i < vsize v ->
  exists x, nth_error v (Z.to_nat i) = Some x /\ vget v i = Ok x.
Proof.
  intros H. destruct (vget_in_range v i H) as (x & Hx).
  exists x. split; [now apply vget_nth_error | exact Hx].
Qed.

(** X4.  Without looping, [evaluate] on a spline that is not empty is
    decided by the integer part [flort] of [t]: the value of the first
    point when [flort <= 0], the value of the last point when
    [flort >= n - 1], and otherwise the cubic of the point [flort] at the
    fraction [t - flort], computed as
    [((a + b*f) + c*(f*f)) + d*((f*f)*f)]. *)
Theorem evaluate_by_integer_part
        (fuel : nat) (s : CubicSpline.t) (t : float) (flort : Z) :
  1 <= vsize (CubicSpline.m_points s) ->
  static_cast_int t = Ok flort ->
  let pts := CubicSpline.m_points s in
  let n := vsize pts in
  (flort <= 0 ->
   exists p, nth_error pts 0 = Some p /\
             CubicSpline.evaluate fuel s t false = Ok (CubicSpline.a p)) /\
  (0 < flort -> n - 1 <= flort ->
   exists p, nth_error pts (Z.to_nat (n - 1)) = Some p /\
             CubicSpline.evaluate fuel s t false = Ok (CubicSpline.a p)) /\
  (0 < flort < n - 1 ->
   exists p, nth_error pts (Z.to_nat flort) = Some p /\
             CubicSpline.evaluate fuel s t false
             = Ok (let f := F32.sub t (F32.of_Z flort) in
                   F32.add
                     (F32.add (F32.add (CubicSpline.a p)
                                       (F32.mul (CubicSpline.b p) f))
                              (F32.mul (CubicSpline.c p) (F32.mul f f)))
                     (F32.mul (CubicSpline.d p)
                              (F32.mul (F32.mul f f) f)))).
Proof.
  intros Hn Hc pts n. subst pts n. repeat split.
  - intros Hf.
    destruct (CubicSpline.m_points s) as [|p0 rest] eqn:Hp;
      [unfold vsize in Hn; simpl in Hn; lia|].
    exists p0. split; [reflexivity|].
    now apply (evaluate_first_point fuel s t p0 rest flort).
  - intros H0 Hl.
    destruct (vget_nth_error_ok (CubicSpline.m_points s)
                (vsize (CubicSpline.m_points s) - 1)) as (p & Hp & Hg);
      [lia|].
    exists p. split; [exact Hp|].
    rewrite (evaluate_last_point fuel s t flort Hc Hn H0 Hl), Hg.
    reflexivity.
  - intros Hf.
    destruct (vget_nth_error_ok (CubicSpline.m_points s) flort)
      as (p & Hp & Hg); [lia|].
    exists p. split; [exact Hp|].
    rewrite (evaluate_inner_segment fuel s t flort Hc Hf), Hg.
    reflexivity.
Qed.

Lemma evaluate_by_integer_part_witness :
  exists p,
    nth_error (CubicSpline.m_points (spline_of [1; 2; 3])) 0 = Some p /\
    CubicSpline.evaluate 0 (spline_of [1; 2; 3]) F32.half false
    = Ok (CubicSpline.a p).
Proof.
  refine (proj1 (evaluate_by_integer_part 0 (spline_of [1; 2; 3])
                   F32.half 0 _ _) _).
  - unfold vsize. simpl. lia.
  - reflexivity.
  - lia.
Defined.

(** X5.  Without looping, [evaluate_derivative] on a spline that is not
    empty returns 0 when the integer part [flort] of [t] is negative or
    at least [n - 1], and otherwise, from [flort = 0] on, the derivative
    [(b + (2*c)*f) + (3*d)*(f*f)] of the cubic of the point [flort] at
    the fraction [f = t - flort]. *)
Theorem evaluate_derivative_by_integer_part
        (fuel : nat) (s : CubicSpline.t) (t : float) (flort : Z) :
  1 <= vsize (CubicSpline.m_points s) <= max_points ->
  static_cast_int t = Ok flort ->
  let pts := CubicSpline.m_points s in
  let n := vsize pts in
  (flort < 0 \/ n - 1 <= flort ->
   CubicSpline.evaluate_derivative fuel s t false = Ok F32.zero) /\
  (0 <= flort < n - 1 ->
   exists p, nth_error pts (Z.to_nat flort) = Some p /\
             CubicSpline.evaluate_derivative fuel s t false
             = Ok (let f := F32.sub t (F32.of_Z flort) in
                   F32.add
                     (F32.add (CubicSpline.b p)
                              (F32.mul (F32.mul F32.two (CubicSpline.c p))
                                       f))
                     (F32.mul (F32.mul F32.three (CubicSpline.d p))
                              (F32.mul f f)))).
Proof.
  intros Hn Hc pts n. subst pts n.
  pose proof (static_cast_int_range t flort Hc) as Hr.
  unfold INT_MIN, INT_MAX, max_points in *.
  change (- 2 ^ 31) with (-2147483648) in Hr.
  change (2 ^ 31 - 1) with 2147483647 in Hr.
  change (2 ^ 59) with 576460752303423488 in Hn.
  unfold CubicSpline.evaluate_derivative. rewrite Hc. cbn [bind].
  replace (vsize (CubicSpline.m_points s) =? 0) with false
    by (symmetry; apply Z.eqb_neq; lia).
  rewrite size_sub_1 by lia.
  unfold size_of_int, SIZE_MODULUS.
  change (2 ^ 64) with 18446744073709551616.
  split.
  - intros Hf. destruct (Z.leb_spec 0 flort).
    + now replace (vsize (CubicSpline.m_points s) - 1 <=? flort) with true
        by (symmetry; apply Z.leb_le; lia).
    + now replace (vsize (CubicSpline.m_points s) - 1
                   <=? flort + 18446744073709551616) with true
        by (symmetry; apply Z.leb_le; lia).
  - intros Hf.
    replace (0 <=? flort) with true by (symmetry; apply Z.leb_le; lia).
    replace (vsize (CubicSpline.m_points s) - 1 <=? flort) with false
      by (symmetry; apply Z.leb_gt; lia).
    destruct (vget_nth_error_ok (CubicSpline.m_points s) flort)
      as (p & Hp & Hg); [lia|].
    exists p. split; [exact Hp|].
    unfold CubicSpline.evaluate_derivative_segment, size_of_int.
    replace (0 <=? flort) with true by (symmetry; apply Z.leb_le; lia).
    rewrite size_sub_1 by lia. rewrite Z.min_l by lia. rewrite Hg.
    reflexivity.
Qed.

Lemma evaluate_derivative_by_integer_part_witness :
  exists p,
    nth_error (CubicSpline.m_points (spline_of [1; 2; 3])) 0 = Some p /\
    CubicSpline.evaluate_derivative 0 (spline_of [1; 2; 3]) F32.half false
    = Ok (let f := F32.sub F32.half (F32.of_Z 0) in
          F32.add
            (F32.add (CubicSpline.b p)
                     (F32.mul (F32.mul F32.two (CubicSpline.c p)) f))
            (F32.mul (F32.mul F32.three (CubicSpline.d p))
                     (F32.mul f f))).
Proof.
  refine (proj2 (evaluate_derivative_by_integer_part 0
                   (spline_of [1; 2; 3]) F32.half 0 _ _) _).
  - unfold vsize, max_points. simpl. lia.
  - reflexivity.
  - unfold vsize. simpl. lia.
Defined.

Lemma sub_self (t : float) : is_finite t = true -> F32.sub t t = F32.zero.
Proof.
  destruct t as [[|]|[|]| |s m e]; try discriminate; try reflexivity.
  intros _. unfold F32.sub, SFsub.
  rewrite Z.min_id. unfold shl_align. rewrite Z.sub_diag. cbn [fst].
  reflexivity.
Qed.

Lemma mul_zero_r (x : float) :
  is_finite x = true -> exists s, F32.mul x F32.zero = S754_zero s.
Proof.
  destruct x as [sx|sx| |sx m e]; try discriminate; intros _;
    eexists; reflexivity.
Qed.

Lemma same_number_add_zero (x a : float) (s : bool) :
  F32.same_number x a -> F32.same_number (F32.add x (S754_zero s)) a.
Proof.
  intros [->|[Hx Ha]].
  - destruct a as [[|]|[|]| |sa m e], s;
      try (left; reflexivity); right; split; reflexivity.
  - destruct x as [[|]| | |]; try discriminate;
      destruct a as [[|]| | |]; try discriminate; destruct s;
        right; split; reflexivity.
Qed.

Lemma static_cast_int_finite (t : float) (k : Z) :
  static_cast_int t = Ok k -> is_finite t = true.
Proof.
  unfold static_cast_int. destruct t; try discriminate; reflexivity.
Qed.

(** X6.  The curve passes through its points: without looping, at the
    integer [t = k] of a point whose coefficients are neither infinite
    nor NaN, [evaluate] returns the value of that point (the same number;
    a zero may change its sign). *)
Theorem evaluate_at_point
        (fuel : nat) (s : CubicSpline.t) (k : Z)
        (p : CubicSpline.SplinePoint) :
  0 <= k ->
  nth_error (CubicSpline.m_points s) (Z.to_nat k) = Some p ->
  static_cast_int (F32.of_Z k) = Ok k ->
  is_finite (CubicSpline.b p) = true ->
  is_finite (CubicSpline.c p) = true ->
  is_finite (CubicSpline.d p) = true ->
  exists v,
    CubicSpline.evaluate fuel s (F32.of_Z k) false = Ok v /\
    F32.same_number v (CubicSpline.a p).
Proof.
  intros Hk Hp Hc Fb Fc Fd.
  assert (Hlt : (Z.to_nat k < length (CubicSpline.m_points s))%nat)
    by (apply nth_error_Some; congruence).
  assert (Hn : 1 <= vsize (CubicSpline.m_points s)) by (unfold vsize; lia).
  assert (Hg : vget (CubicSpline.m_points s) k = Ok p).
  { rewrite <- (Z2Nat.id k Hk). now apply vget_nat. }
  destruct (Z.leb_spec k 0) as [Hk0|Hk0].
  - destruct (CubicSpline.m_points s) as [|p0 rest] eqn:Ep;
      [simpl in Hlt; lia|].
    replace (Z.to_nat k) with 0%nat in Hp by lia.
    injection Hp as ->.
    exists (CubicSpline.a p). split; [|now left].
    now apply (evaluate_first_point fuel s (F32.of_Z k) p rest k).
  - destruct (Z.leb_spec (vsize (CubicSpline.m_points s) - 1) k)
      as [Hkl|Hkl].
    + exists (CubicSpline.a p). split; [|now left].
      rewrite (evaluate_last_point fuel s (F32.of_Z k) k Hc Hn Hk0 Hkl).
      replace (vsize (CubicSpline.m_points s) - 1) with k
        by (unfold vsize in *; lia).
      now rewrite Hg.
    + rewrite (evaluate_inner_segment fuel s (F32.of_Z k) k Hc
                 (conj Hk0 Hkl)).
      rewrite Hg. cbn [bind]. eexists. split; [reflexivity|]. cbv zeta.
      rewrite (sub_self _ (static_cast_int_finite _ _ Hc)).
      change (F32.mul F32.zero F32.zero) with F32.zero.
      change (F32.mul F32.zero F32.zero) with F32.zero.
      destruct (mul_zero_r _ Fb) as (sb & ->).
      destruct (mul_zero_r _ Fc) as (sc & ->).
      destruct (mul_zero_r _ Fd) as (sd & ->).
      do 3 apply same_number_add_zero. now left.
Qed.

Lemma evaluate_at_point_witness :
  exists v,
    CubicSpline.evaluate 0 spline_0_10_0 (F32.of_Z 1) false = Ok v /\
    F32.same_number v (F32.of_Z 10).
Proof.
  apply (evaluate_at_point 0 spline_0_10_0 1
           {| CubicSpline.a := F32.of_Z 10;
              CubicSpline.b := S754_finite true 14123678 (-21);
              CubicSpline.c := S754_finite false 16263648 (-24);
              CubicSpline.d := S754_finite true 8880798 (-21) |}).
  - lia.
  - vm_compute. reflexivity.
  - reflexivity.
  - reflexivity.
  - reflexivity.
  - reflexivity.
Defined.

(** X7.  With looping, a [t] that the subtraction of the point count
    does not change (the count is below half the spacing of the floats
    around [t]) is never brought below the count: the loop
    [while(t >= max_t) t -= max_t] of [evaluate] and of
    [evaluate_derivative] runs out of every amount of fuel. *)
Theorem looped_evaluation_never_ends
        (s : CubicSpline.t) (t : float) (flort : Z) :
  1 <= vsize (CubicSpline.m_points s) ->
  static_cast_int t = Ok flort ->
  F32.geb t (F32.of_Z (vsize (CubicSpline.m_points s))) = true ->
  F32.sub t (F32.of_Z (vsize (CubicSpline.m_points s))) = t ->
  forall fuel,
    CubicSpline.evaluate fuel s t true = OutOfFuel /\
    CubicSpline.evaluate_derivative fuel s t true = OutOfFuel.
Proof.
  intros Hn Hc Hge Habs fuel.
  assert (W : CubicSpline.wrap_down fuel t
                (F32.of_Z (vsize (CubicSpline.m_points s))) = OutOfFuel).
  { induction fuel as [|f IH]; cbn [CubicSpline.wrap_down]; rewrite Hge;
      [reflexivity|]. now rewrite Habs. }
  unfold CubicSpline.evaluate, CubicSpline.evaluate_derivative.
  replace (vsize (CubicSpline.m_points s) =? 0) with false
    by (symmetry; apply Z.eqb_neq; lia).
  rewrite Hc. cbn [bind]. rewrite W. split; reflexivity.
Qed.

Lemma looped_evaluation_never_ends_witness :
  CubicSpline.evaluate 1000 (spline_of [1; 2; 3])
                       (F32.of_Z (2 ^ 30)) true = OutOfFuel /\
  CubicSpline.evaluate_derivative 1000 (spline_of [1; 2; 3])
                                  (F32.of_Z (2 ^ 30)) true = OutOfFuel.
Proof.
  refine (looped_evaluation_never_ends (spline_of [1; 2; 3])
            (F32.of_Z (2 ^ 30)) (2 ^ 30) _ _ _ _ 1000%nat).
  - unfold vsize. simpl. lia.
  - vm_compute. reflexivity.
  - vm_compute. reflexivity.
  - vm_compute. reflexivity.
Defined.

(* ================================================================== *)
(** ** Further properties: points and coefficients *)
(* ================================================================== *)

Lemma nth_error_upd_same {A : Type} (v : list A) (k : nat) (x : A) :
  (k < length v)%nat -> nth_error (upd v k x) k = Some x.
Proof.
  revert k; induction v as [|h t IH]; intros [|k] H; simpl in *;
    try lia; auto. apply IH. lia.
Qed.

Lemma nth_error_upd_other {A : Type} (v : list A) (k j : nat) (x : A) :
  j <> k -> nth_error (upd v k x) j = nth_error v j.
Proof.
  revert k j; induction v as [|h t IH]; intros [|k] [|j] H; simpl;
    try reflexivity; try congruence. apply IH. congruence.
Qed.

Lemma vget_vset_same {A : Type} (v v' : list A) (i : Z) (x : A) :
  vset v i x = Ok v' -> vget v' i = Ok x.
Proof.
  unfold vset, vget. destruct ((0 <=? i) && (i <? vsize v)) eqn:E;
    [|discriminate].
  intros [= <-]. unfold vsize in *. rewrite upd_length, E.
  apply andb_true_iff in E as [E1 E2].
  apply Z.leb_le in E1. apply Z.ltb_lt in E2.
  rewrite nth_error_upd_same by lia. reflexivity.
Qed.

Lemma vget_vset_other {A : Type} (v v' : list A) (i j : Z) (x : A) :
  vset v i x = Ok v' -> j <> i -> vget v' j = vget v j.
Proof.
  unfold vset, vget. destruct ((0 <=? i) && (i <? vsize v)) eqn:E;
    [|discriminate].
  intros [= <-] Hj. unfold vsize in *. rewrite upd_length.
  destruct ((0 <=? j) && (j <? Z.of_nat (length v))) eqn:Ej; [|reflexivity].
  apply andb_true_iff in E as [E1 _], Ej as [Ej1 _].
  apply Z.leb_le in E1, Ej1.
  rewrite nth_error_upd_other by lia. reflexivity.
Qed.

(** X8.  Coefficients set are coefficients read: at an index inside the
    spline, [set_coefficients] succeeds, [get_coefficients] at that index
    then returns the three numbers given, the coefficients of every other
    point and all the values are as before.  At an index from the size
    on, [set_point], [set_coefficients] and [get_coefficients] fail their
    assertion. *)
Theorem coefficients_set_then_get
        (s : CubicSpline.t) (i : Z) (vb vc vd v : float) :
  0 <= i ->
  (i < CubicSpline.size s ->
   exists s',
     CubicSpline.set_coefficients s i vb vc vd = Ok s' /\
     CubicSpline.get_coefficients s' i = Ok (vb, vc, vd) /\
     (forall j, j <> i ->
                CubicSpline.get_coefficients s' j
                = CubicSpline.get_coefficients s j) /\
     map CubicSpline.a (CubicSpline.m_points s')
     = map CubicSpline.a (CubicSpline.m_points s) /\
     CubicSpline.m_spatial_extent s' = CubicSpline.m_spatial_extent s) /\
  (CubicSpline.size s <= i ->
   CubicSpline.set_point s i v = AssertFailed /\
   CubicSpline.set_coefficients s i vb vc vd = AssertFailed /\
   CubicSpline.get_coefficients s i = AssertFailed).
Proof.
  intros H0. unfold CubicSpline.size. split.
  - intros Hi.
    unfold CubicSpline.set_coefficients, CubicSpline.get_coefficients.
    replace (i <? vsize (CubicSpline.m_points s)) with true
      by (symmetry; apply Z.ltb_lt; lia).
    cbn [assert_m bind]. unfold vmodify.
    destruct (vget_in_range (CubicSpline.m_points s) i) as (p & Hp);
      [lia|].
    rewrite Hp. cbn [bind].
    destruct (vset_in_range (CubicSpline.m_points s) i
                (CubicSpline.set_bcd vb vc vd p)) as (pts' & Hs & Hl);
      [lia|].
    rewrite Hs. cbn [bind]. eexists. split; [reflexivity|].
    cbn [CubicSpline.with_points CubicSpline.m_points
           CubicSpline.m_spatial_extent].
    unfold vsize. rewrite Hl.
    replace (i <? Z.of_nat (length (CubicSpline.m_points s))) with true
      by (symmetry; apply Z.ltb_lt; unfold vsize in Hi; lia).
    cbn [assert_m bind].
    split; [|split; [|split]].
    + now rewrite (vget_vset_same _ _ _ _ Hs).
    + intros j Hj. rewrite (vget_vset_other _ _ _ _ _ Hs Hj).
      reflexivity.
    + apply vset_upd in Hs. subst pts'.
      apply (map_upd_same CubicSpline.a _ _ _ p);
        [now apply vget_nth_error | reflexivity].
    + reflexivity.
  - intros Hi.
    unfold CubicSpline.set_point, CubicSpline.set_coefficients,
      CubicSpline.get_coefficients.
    replace (i <? vsize (CubicSpline.m_points s)) with false
      by (symmetry; apply Z.ltb_ge; lia).
    repeat split.
Qed.

Lemma coefficients_set_then_get_witness :
  exists s',
    CubicSpline.set_coefficients (spline_of [1; 2; 3]) 1
                                 F32.one F32.two F32.four = Ok s' /\
    CubicSpline.get_coefficients s' 1 = Ok (F32.one, F32.two, F32.four) /\
    (forall j, j <> 1 ->
               CubicSpline.get_coefficients s' j
               = CubicSpline.get_coefficients (spline_of [1; 2; 3]) j) /\
    map CubicSpline.a (CubicSpline.m_points s')
    = map CubicSpline.a (CubicSpline.m_points (spline_of [1; 2; 3])) /\
    CubicSpline.m_spatial_extent s'
    = CubicSpline.m_spatial_extent (spline_of [1; 2; 3]).
Proof.
  apply (coefficients_set_then_get (spline_of [1; 2; 3]) 1
           F32.one F32.two F32.four F32.zero).
  - lia.
  - reflexivity.
Defined.

(** X9.  [set_point] changes one value and nothing else: at an index
    inside the spline it succeeds, the value of that point is the one
    given, the other values, every coefficient and the number of points
    are as before. *)
Theorem set_point_changes_one_value
        (s : CubicSpline.t) (i : Z) (v : float) :
  0 <= i < CubicSpline.size s ->
  exists s' p p',
    CubicSpline.set_point s i v = Ok s' /\
    vget (CubicSpline.m_points s) i = Ok p /\
    vget (CubicSpline.m_points s') i = Ok p' /\
    CubicSpline.a p' = v /\
    (forall j, j <> i ->
               vget (CubicSpline.m_points s') j
               = vget (CubicSpline.m_points s) j) /\
    (forall j, CubicSpline.get_coefficients s' j
               = CubicSpline.get_coefficients s j) /\
    CubicSpline.size s' = CubicSpline.size s.
Proof.
  unfold CubicSpline.size. intros Hi.
  unfold CubicSpline.set_point.
  replace (i <? vsize (CubicSpline.m_points s)) with true
    by (symmetry; apply Z.ltb_lt; lia).
  cbn [assert_m bind]. unfold vmodify.
  destruct (vget_in_range (CubicSpline.m_points s) i) as (p & Hp); [lia|].
  rewrite Hp. cbn [bind].
  destruct (vset_in_range (CubicSpline.m_points s) i
              (CubicSpline.set_a v p)) as (pts' & Hs & Hl); [lia|].
  rewrite Hs. cbn [bind].
  exists (CubicSpline.with_points s pts'), p, (CubicSpline.set_a v p).
  cbn [CubicSpline.with_points CubicSpline.m_points].
  split; [reflexivity|]. split; [reflexivity|].
  split; [exact (vget_vset_same _ _ _ _ Hs)|].
  split; [reflexivity|].
  split; [intros j Hj; exact (vget_vset_other _ _ _ _ _ Hs Hj)|].
  split; [|unfold vsize; now rewrite Hl].
  intros j. unfold CubicSpline.get_coefficients.
  cbn [CubicSpline.with_points CubicSpline.m_points].
  unfold vsize. rewrite Hl.
  destruct (Z.eq_dec j i) as [->|Hj].
  - rewrite (vget_vset_same _ _ _ _ Hs), Hp. reflexivity.
  - now rewrite (vget_vset_other _ _ _ _ _ Hs Hj).
Qed.

Lemma set_point_changes_one_value_witness :
  exists s' p p',
    CubicSpline.set_point (spline_of [1; 2; 3]) 1 F32.four = Ok s' /\
    vget (CubicSpline.m_points (spline_of [1; 2; 3])) 1 = Ok p /\
    vget (CubicSpline.m_points s') 1 = Ok p' /\
    CubicSpline.a p' = F32.four /\
    (forall j, j <> 1 ->
               vget (CubicSpline.m_points s') j
               = vget (CubicSpline.m_points (spline_of [1; 2; 3])) j) /\
    (forall j, CubicSpline.get_coefficients s' j
               = CubicSpline.get_coefficients (spline_of [1; 2; 3]) j) /\
    CubicSpline.size s' = CubicSpline.size (spline_of [1; 2; 3]).
Proof.
  apply (set_point_changes_one_value (spline_of [1; 2; 3]) 1 F32.four).
  unfold CubicSpline.size, vsize. simpl. lia.
Defined.

(* ================================================================== *)
(** ** Further properties: what a solve keeps and what it leaves *)
(* ================================================================== *)

Lemma for_loop_indexed {St : Type} (P : Z -> St -> Prop)
      (body : Z -> St -> result St) :
  forall cnt lo s s',
    P lo s ->
    (forall i x x', lo <= i < lo + Z.of_nat cnt -> P i x ->
                    body i x = Ok x' -> P (i + 1) x') ->
    for_loop cnt lo body s = Ok s' -> P (lo + Z.of_nat cnt) s'.
Proof.
  induction cnt as [|k IH]; intros lo s s' H0 Hstep H.
  - simpl in H. injection H as <-. now rewrite Z.add_0_r.
  - cbn [for_loop] in H. apply bind_ok in H as (s1 & E1 & H).
    replace (lo + Z.of_nat (S k)) with (lo + 1 + Z.of_nat k) by lia.
    apply (IH (lo + 1) s1 s'); [| |exact H].
    + apply (Hstep lo s s1); [lia|exact H0|exact E1].
    + intros i x x' Hi. apply Hstep. lia.
Qed.

Lemma unnan_not_nan (x : float) : F32.is_nan (CubicSpline.unnan x) = false.
Proof.
  destruct x; try reflexivity;
    unfold CubicSpline.unnan; now destruct (F32.neb _ _).
Qed.

Lemma vset_values (v v' : list CubicSpline.SplinePoint) (i : Z)
      (p q : CubicSpline.SplinePoint) :
  vget v i = Ok p -> CubicSpline.a q = CubicSpline.a p ->
  vset v i q = Ok v' ->
  map CubicSpline.a v' = map CubicSpline.a v.
Proof.
  intros Hg Ha Hs. apply vset_upd in Hs. subst v'.
  apply (map_upd_same CubicSpline.a v _ q p); [|exact Ha].
  now apply vget_nth_error.
Qed.

Lemma check_minimum_size_same_input (s s' : CubicSpline.t) (flag : bool) :
  CubicSpline.check_minimum_size s = Ok (s', flag) -> same_input s s'.
Proof.
  unfold CubicSpline.check_minimum_size, same_input.
  destruct (vsize (CubicSpline.m_points s) <? 2).
  - intros H. invert_binds H. injection H as <- _.
    cbn [CubicSpline.with_points CubicSpline.m_points
           CubicSpline.m_spatial_extent].
    split; [|reflexivity].
    match goal with
    | R : vmodify _ _ _ = Ok _ |- _ =>
        apply (vmodify_map CubicSpline.a) in R; [exact R|reflexivity]
    end.
  - destruct (vsize (CubicSpline.m_points s) =? 2).
    + intros H. invert_binds H. injection H as <- _.
      cbn [CubicSpline.with_points CubicSpline.m_points
             CubicSpline.m_spatial_extent].
      split; [|reflexivity].
      repeat match goal with
             | G : vget ?v ?i = Ok ?p,
               R : vset ?v ?i (CubicSpline.set_bcd ?x ?y ?z ?p) = Ok ?w |- _ =>
                 apply (vset_values v w i p (CubicSpline.set_bcd x y z p)
                          G eq_refl) in R
             end.

      congruence.
    + intros H. invert_binds H. injection H as <- _.
      cbn [CubicSpline.with_points CubicSpline.m_points
             CubicSpline.m_spatial_extent].
      split; [|reflexivity].
      match goal with
      | R : for_range _ _ _ _ = Ok _ |- _ =>
          apply (for_loop_preserves
                   (fun st => map CubicSpline.a (fst st)
                              = map CubicSpline.a (CubicSpline.m_points s)))
            in R; [exact R| |reflexivity]
      end.
      intros i [pts fl] st Hq Hb. invert_binds Hb. injection Hb as <-.
      cbn [fst] in *. rewrite <- Hq.
      match goal with
      | R : vmodify _ _ _ = Ok _ |- _ =>
          apply (vmodify_map CubicSpline.a) in R; [exact R|reflexivity]
      end.
Qed.

Lemma check_minimum_size_false (s s' : CubicSpline.t) :
  CubicSpline.check_minimum_size s = Ok (s', false) ->
  3 <= CubicSpline.size s.
Proof.
  unfold CubicSpline.check_minimum_size, CubicSpline.size.
  destruct (Z.ltb_spec (vsize (CubicSpline.m_points s)) 2).
  - intros H'. invert_binds H'. discriminate.
  - destruct (Z.eqb_spec (vsize (CubicSpline.m_points s)) 2).
    + intros H'. invert_binds H'. discriminate.
    + intros _. lia.
Qed.

(** The second loop of [set_results] leaves clean points and the
    values. *)
Lemma set_results_clean (s s' : CubicSpline.t)
      (diagonals results : list float) :
  CubicSpline.set_results s (CubicSpline.size s) diagonals results = Ok s' ->
  Forall clean_point (CubicSpline.m_points s') /\ same_input s s'.
Proof.
  unfold CubicSpline.set_results, CubicSpline.size, same_input.
  intros H. invert_binds H. injection H as <-.
  cbn [CubicSpline.with_points CubicSpline.m_points
         CubicSpline.m_spatial_extent].
  set (n := length (CubicSpline.m_points s)).
  match goal with
  | R : for_range 0 _ _ (CubicSpline.m_points s) = Ok ?r |- _ =>
      unfold for_range in R;
      apply (for_loop_indexed
               (fun i pts =>
                  length pts = n /\
                  map CubicSpline.a pts
                  = map CubicSpline.a (CubicSpline.m_points s) /\
                  forall k p, (Z.of_nat k < i) ->
                              nth_error pts k = Some p -> clean_point p))
        in R
  end.
  - match goal with
    | R : _ /\ _ /\ _ |- _ => destruct R as (Hl & Ha & Hc)
    end.
    split; [|split; [exact Ha | reflexivity]].
    apply Forall_forall. intros p Hp.
    apply In_nth_error in Hp as (k & Hk).
    apply (Hc k p); [|exact Hk].
    match type of Hk with
    | nth_error ?l _ = _ =>
        assert (k < length l)%nat by (apply nth_error_Some; congruence)
    end.
    unfold vsize. fold n. lia.
  - split; [reflexivity|]. split; [reflexivity|].
    intros k p Hk. lia.
  - intros i pts pts' Hi (Hl & Ha & Hc) Hb. cbv zeta in Hb.
    invert_binds Hb.
    match type of Hb with
    | vset _ _ (CubicSpline.set_bcd ?x ?y ?z ?p) = _ =>
        match goal with
        | G : vget pts i = Ok p |- _ =>
            pose proof (vset_values pts pts' i p (CubicSpline.set_bcd x y z p)
                          G eq_refl Hb) as Hv;
            pose proof (vset_length _ _ _ _ Hb) as Hl'
        end
    end.
    split; [congruence|]. split; [congruence|].
    intros k p Hk Hp. apply vset_upd in Hb. subst pts'.
    destruct (Nat.eq_dec k (Z.to_nat i)) as [->|Hne].
    + unfold vsize in Hi. fold n in Hi.
      rewrite nth_error_upd_same in Hp by lia.
      injection Hp as <-. repeat split; apply unnan_not_nan.
    + rewrite nth_error_upd_other in Hp by exact Hne.
      apply (Hc k p); [lia | exact Hp].
Qed.

(* ================================================================== *)
(** ** The solvers return *)
(* ================================================================== *)

Lemma bind_defined {A B : Type} (e : result A) (k : A -> result B)
      (P : A -> Prop) (Q : B -> Prop) :
  (exists x, e = Ok x /\ P x) ->
  (forall x, P x -> exists r, k x = Ok r /\ Q r) ->
  exists r, bind e k = Ok r /\ Q r.
Proof.
  intros (x & -> & Hp) Hk. simpl. now apply Hk.
Qed.

Ltac lengths := unfold vsize in *; lia.

(** One read or one write of a vector, in range. *)
Ltac step :=
  cbv zeta;
  match goal with
  | |- exists r, bind (vget ?v ?i) _ = Ok r /\ _ =>
      apply (bind_defined _ _ (fun _ => True));
      [ let x := fresh "x" in
        let E := fresh "E" in
        destruct (vget_in_range v i) as (x & E);
        [lengths | exists x; split; [exact E | exact I]]
      | intros ? _ ]
  | |- exists r, bind (vset ?v ?i ?x) _ = Ok r /\ _ =>
      apply (bind_defined _ _ (fun v' => length v' = length v));
      [ apply vset_in_range; lengths | intros ? ? ]
  | |- exists r, vset ?v ?i ?x = Ok r /\ length r = _ =>
      destruct (vset_in_range v i x) as (?v' & ?E & ?L);
      [ lengths | eexists; split; [eassumption | lengths] ]
  end.

Lemma spline_prep_inner_defined (s : CubicSpline.t) (results : list float) :
  2 <= CubicSpline.size s < SIZE_MODULUS ->
  length results = length (CubicSpline.m_points s) ->
  exists r, CubicSpline.prep_inner s (CubicSpline.size s) results = Ok r /\
            length r = length results.
Proof.
  unfold CubicSpline.size. intros Hn Hl. unfold CubicSpline.prep_inner.
  rewrite size_sub_1 by lia.
  apply (for_range_inv _ (fun _ r => length r = length results)).
  - lia.
  - reflexivity.
  - intros i r Hi Hr. repeat step.
Qed.

Lemma spline_straight_elimination_defined
      (last : Z) (diagonals results : list float) :
  3 <= last < SIZE_MODULUS ->
  vsize diagonals = last -> vsize results = last ->
  exists r, CubicSpline.straight_elimination last diagonals results = Ok r /\
            length r = length results.
Proof.
  intros Hn Hd Hr. unfold CubicSpline.straight_elimination.
  do 3 step.
  rewrite size_sub_1 by lia.
  match goal with
  | |- exists r, for_range _ _ ?body ?v = Ok r /\ _ =>
      destruct (for_range_inv body (fun _ r => length r = length results)
                  1 (last - 1) v) as (r & E & L)
  end.
  - lia.
  - assumption.
  - intros i r Hi Hl. rewrite size_sub_1 by lia. repeat step.
  - now exists r.
Qed.

Lemma set_results_defined (s : CubicSpline.t)
      (diagonals results : list float) :
  1 <= CubicSpline.size s ->
  vsize diagonals = CubicSpline.size s ->
  vsize results = CubicSpline.size s ->
  exists s', CubicSpline.set_results s (CubicSpline.size s) diagonals results
             = Ok s'.
Proof.
  unfold CubicSpline.size. intros Hn Hd Hr. unfold CubicSpline.set_results.
  destruct (for_range_inv
              (fun i r => x <- vget r i ;; y <- vget diagonals i ;;
                          vset r i (F32.div x y))
              (fun _ r => length r = length results)
              0 (vsize (CubicSpline.m_points s)) results)
    as (r & -> & L).
  - lia.
  - reflexivity.
  - intros i r Hi Hl. repeat step.
  - cbn [bind].
    match goal with
    | |- exists s', bind (for_range _ _ ?body ?v) _ = _ =>
        destruct (for_range_inv body
                    (fun _ p => length p = length (CubicSpline.m_points s))
                    0 (vsize (CubicSpline.m_points s)) v) as (p & -> & Lp)
    end.
    + lia.
    + reflexivity.
    + intros i p Hi Hl.
      assert (0 <= (i + 1) mod vsize (CubicSpline.m_points s)
              < vsize (CubicSpline.m_points s))
        by (apply Z.mod_pos_bound; lia).
      repeat step.
    + cbn [bind]. eauto.
Qed.

Lemma check_minimum_size_defined (s : CubicSpline.t) :
  1 <= CubicSpline.size s ->
  exists r, CubicSpline.check_minimum_size s = Ok r.
Proof.
  unfold CubicSpline.size. intros Hn.
  destruct (CubicSpline.m_points s) as [|p0 [|p1 [|p2 rest]]] eqn:Hp.
  - unfold vsize in Hn. simpl in Hn. lia.
  - unfold CubicSpline.check_minimum_size. rewrite Hp. simpl. eauto.
  - unfold CubicSpline.check_minimum_size. rewrite Hp. simpl. eauto.
  - rewrite (check_minimum_size_from_three s p0 (p1 :: p2 :: rest) Hp).
    + eauto.
    + simpl. lia.
Qed.

Lemma solve_diagonals_straight_length sc out sc' d :
  solve_diagonals_straight sc out = Ok (sc', d) -> length d = length out.
Proof.
  intros H. apply solve_diagonals_straight_cases in H as [(_ & F)|(_ & E & _)].
  - apply find_some in F as (_ & F). apply Z.eqb_eq in F.
    unfold vsize in F. lia.
  - now apply straight_elimination_length in E.
Qed.

Lemma solve_diagonals_looped_length sc out sc' d :
  solve_diagonals_looped sc out = Ok (sc', d) -> length d = length out.
Proof.
  intros H. apply solve_diagonals_looped_cases in H as [(_ & F)|(_ & E & _)].
  - apply find_some in F as (_ & F). apply Z.eqb_eq in F.
    unfold vsize in F. lia.
  - now apply looped_elimination_length in E.
Qed.

Lemma solve_diagonals_straight_defined sc out :
  reachable sc -> (2 <= length out)%nat ->
  exists sc' d, solve_diagonals_straight sc out = Ok (sc', d) /\
                reachable sc' /\ length d = length out.
Proof.
  intros Hr Hn.
  pose proof (solve_diagonals_straight_reachable sc out Hr) as H.
  rewrite straight_elimination_init in H by (rewrite repeat_length; lia).
  rewrite repeat_length in H.
  destruct (straight_forward_defined (length out) Hn) as (d & Hd).
  rewrite Hd in H.
  destruct (solve_diagonals_straight sc out) as [[sc' d']| | |] eqn:E;
    try discriminate.
  exists sc', d'. split; [reflexivity|]. split.
  - exact (reachable_straight sc out sc' d' Hr E).
  - exact (solve_diagonals_straight_length sc out sc' d' E).
Qed.

Lemma solve_diagonals_looped_defined sc out :
  reachable sc -> (2 <= length out)%nat ->
  exists sc' d, solve_diagonals_looped sc out = Ok (sc', d) /\
                reachable sc' /\ length d = length out.
Proof.
  intros Hr Hn.
  pose proof (solve_diagonals_looped_reachable sc out Hr) as H.
  rewrite looped_elimination_init in H by (rewrite repeat_length; lia).
  rewrite repeat_length in H.
  rewrite (looped_forward_closed (length out) Hn) in H.
  destruct (solve_diagonals_looped sc out) as [[sc' d']| | |] eqn:E;
    try discriminate.
  exists sc', d'. split; [reflexivity|]. split.
  - exact (reachable_looped sc out sc' d' Hr E).
  - exact (solve_diagonals_looped_length sc out sc' d' E).
Qed.

(** From a cache the program reaches, [solve_straight] returns for every
    spline with a point, and leaves such a cache. *)
Lemma solve_straight_defined sc s :
  reachable sc -> 1 <= CubicSpline.size s <= max_points ->
  exists sc' s', CubicSpline.solve_straight sc s = Ok (sc', s') /\
                 reachable sc'.
Proof.
  intros Hr Hn. unfold max_points in Hn.
  assert (Hmod : SIZE_MODULUS = 2 ^ 64) by reflexivity.
  assert (2 ^ 59 < 2 ^ 64) by (apply Z.pow_lt_mono_r; lia).
  destruct (check_minimum_size_defined s) as ([s1 fl] & Hc); [lia|].
  unfold CubicSpline.solve_straight. rewrite Hc. cbn [bind].
  destruct fl; [eauto|].
  pose proof (check_minimum_size_false s s1 Hc) as H3.
  pose proof (check_minimum_size_size s s1 false Hc) as Hs.
  unfold CubicSpline.size in *. cbv zeta.
  destruct (solve_diagonals_straight_defined sc
              (repeat F32.zero (length (CubicSpline.m_points s1))) Hr)
    as (sc' & d & -> & Hr' & Hd).
  { rewrite repeat_length. lengths. }
  rewrite repeat_length in Hd. cbn [bind].
  enough (exists r, (p1 <- vget (CubicSpline.m_points s1) 1 ;;
                     p0 <- vget (CubicSpline.m_points s1) 0 ;;
                     results <- vset (repeat F32.zero
                                        (length (CubicSpline.m_points s1))) 0
                                  (F32.mul F32.three
                                     (F32.sub (CubicSpline.a p1)
                                        (CubicSpline.a p0))) ;;
                     results <- CubicSpline.prep_inner s1
                                  (vsize (CubicSpline.m_points s1)) results ;;
                     pl <- vget (CubicSpline.m_points s1)
                             (size_sub (vsize (CubicSpline.m_points s1)) 1) ;;
                     pl2 <- vget (CubicSpline.m_points s1)
                              (size_sub (vsize (CubicSpline.m_points s1)) 2) ;;
                     results <- vset results
                                  (size_sub (vsize (CubicSpline.m_points s1)) 1)
                                  (F32.mul F32.three
                                     (loop_space_difference
                                        (CubicSpline.a pl) (CubicSpline.a pl2)
                                        (CubicSpline.m_spatial_extent s1))) ;;
                     results <- CubicSpline.straight_elimination
                                  (vsize (CubicSpline.m_points s1)) d results ;;
                     s2 <- CubicSpline.set_results s1
                             (vsize (CubicSpline.m_points s1)) d results ;;
                     Ok (sc', s2)) = Ok r /\ reachable (fst r))
    as ([sc2 s2] & E & R) by (exists sc2, s2; split; [exact E | exact R]).
  assert (E1 : size_sub (vsize (CubicSpline.m_points s1)) 1
               = vsize (CubicSpline.m_points s1) - 1)
    by (unfold size_sub;
        destruct (Z.leb_spec 1 (vsize (CubicSpline.m_points s1))); lia).
  assert (E2 : size_sub (vsize (CubicSpline.m_points s1)) 2
               = vsize (CubicSpline.m_points s1) - 2)
    by (unfold size_sub;
        destruct (Z.leb_spec 2 (vsize (CubicSpline.m_points s1))); lia).
  rewrite E1, E2.
  step. step.
  apply (bind_defined _ _
           (fun v' => length v' = length (CubicSpline.m_points s1))).
  { destruct (vset_in_range
                (repeat F32.zero (length (CubicSpline.m_points s1))) 0
                (F32.mul F32.three
                   (F32.sub (CubicSpline.a x) (CubicSpline.a x0))))
      as (v' & E & L).
    - unfold vsize. rewrite repeat_length. lengths.
    - exists v'. split; [exact E|]. now rewrite L, repeat_length. }
  intros r0 L0.
  apply (bind_defined _ _
           (fun v' => length v' = length (CubicSpline.m_points s1))).
  { destruct (spline_prep_inner_defined s1 r0) as (v' & E & L).
    - unfold CubicSpline.size. lengths.
    - exact L0.
    - exists v'. split; [exact E | congruence]. }
  intros r1 L1.
  do 3 step.
  apply (bind_defined _ _
           (fun v' => length v' = length (CubicSpline.m_points s1))).
  { match goal with
    | |- exists x, CubicSpline.straight_elimination ?l ?dd ?rr = _ /\ _ =>
        destruct (spline_straight_elimination_defined l dd rr)
        as (v' & E & L)
    end.
    - lengths.
    - lengths.
    - lengths.
    - exists v'. split; [exact E | lengths]. }
  intros r2 L2.
  apply (bind_defined _ _ (fun _ => True)).
  { destruct (set_results_defined s1 d r2) as (s2 & E).
    - unfold CubicSpline.size. lengths.
    - unfold CubicSpline.size. lengths.
    - unfold CubicSpline.size. lengths.
    - exists s2. split; [exact E | exact I]. }
  intros s2 _. exists (sc', s2). split; [reflexivity | exact Hr'].
Qed.

Lemma spline_looped_loop_defined
      (last : Z) (diagonals results : list float) :
  3 <= last -> vsize diagonals = last -> vsize results = last ->
  exists r, for_range 0 (last - 2)
              (CubicSpline.looped_step diagonals (last - 1))
              (results, F32.one, F32.one) = Ok r /\
            length (fst (fst r)) = length results.
Proof.
  intros Hn Hd Hr.
  apply (for_range_inv (CubicSpline.looped_step diagonals (last - 1))
           (fun _ st => length (fst (fst st)) = length results)).
  - lia.
  - reflexivity.
  - intros i [[r ce] re] Hi Hl. cbn [fst] in Hl.
    unfold CubicSpline.looped_step.
    enough (exists r', (di <- vget diagonals i ;;
                        rn <- vget r (i + 1) ;;
                        ri <- vget r i ;;
                        results <- vset r (i + 1)
                                     (F32.sub rn
                                        (F32.mul ri (F32.div F32.one di))) ;;
                        re' <- vget results (last - 1) ;;
                        ri <- vget results i ;;
                        vset results (last - 1)
                          (F32.sub re'
                             (F32.mul ri (F32.div re di))))
                       = Ok r' /\ length r' = length results)
      as (r' & E & L).
    { cbv zeta.
      repeat match goal with
             | |- context [bind ?e ?k] =>
                 match e with
                 | vget _ _ => idtac
                 | vset _ _ _ => idtac
                 end;
                 destruct e eqn:?; cbn [bind] in E |- *; try discriminate
             end.
      injection E as ->. eexists. split; [reflexivity|]. exact L. }
    repeat step.
Qed.

(** The same for [solve_looped]. *)
Lemma solve_looped_defined sc s :
  reachable sc -> 1 <= CubicSpline.size s <= max_points ->
  exists sc' s', CubicSpline.solve_looped sc s = Ok (sc', s') /\
                 reachable sc'.
Proof.
  intros Hr Hn. unfold max_points in Hn.
  assert (Hmod : SIZE_MODULUS = 2 ^ 64) by reflexivity.
  assert (2 ^ 59 < 2 ^ 64) by (apply Z.pow_lt_mono_r; lia).
  destruct (check_minimum_size_defined s) as ([s1 fl] & Hc); [lia|].
  unfold CubicSpline.solve_looped. rewrite Hc. cbn [bind].
  destruct fl; [eauto|].
  pose proof (check_minimum_size_false s s1 Hc) as H3.
  pose proof (check_minimum_size_size s s1 false Hc) as Hs.
  unfold CubicSpline.size in *. cbv zeta.
  destruct (solve_diagonals_looped_defined sc
              (repeat F32.zero (length (CubicSpline.m_points s1))) Hr)
    as (sc' & d & -> & Hr' & Hd).
  { rewrite repeat_length. lengths. }
  rewrite repeat_length in Hd. cbn [bind].
  assert (E1 : size_sub (vsize (CubicSpline.m_points s1)) 1
               = vsize (CubicSpline.m_points s1) - 1)
    by (unfold size_sub;
        destruct (Z.leb_spec 1 (vsize (CubicSpline.m_points s1))); lia).
  assert (E2 : size_sub (vsize (CubicSpline.m_points s1)) 2
               = vsize (CubicSpline.m_points s1) - 2)
    by (unfold size_sub;
        destruct (Z.leb_spec 2 (vsize (CubicSpline.m_points s1))); lia).
  assert (E3 : size_sub (vsize (CubicSpline.m_points s1) - 1) 1
               = vsize (CubicSpline.m_points s1) - 2)
    by (unfold size_sub;
        destruct (Z.leb_spec 1 (vsize (CubicSpline.m_points s1) - 1)); lia).
  rewrite !E1, !E2, !E3.
  destruct (vget_in_range (CubicSpline.m_points s1) 1) as (p1 & ->);
    [lengths|]. cbn [bind].
  destruct (vget_in_range (CubicSpline.m_points s1)
              (vsize (CubicSpline.m_points s1) - 1)) as (pl & ->);
    [lengths|]. cbn [bind].
  match goal with
  | |- context [vset ?v 0 ?x] =>
      destruct (vset_in_range v 0 x) as (r0 & -> & L0);
      [unfold vsize; rewrite repeat_length; lengths|]
  end.
  rewrite repeat_length in L0. cbn [bind].
  destruct (spline_prep_inner_defined s1 r0) as (r1 & E & L1);
    [unfold CubicSpline.size; lengths | exact L0 |].
  unfold CubicSpline.size in E. rewrite E. clear E. cbn [bind].
  destruct (vget_in_range (CubicSpline.m_points s1) 0) as (p0 & ->);
    [lengths|]. cbn [bind].
  destruct (vget_in_range (CubicSpline.m_points s1)
              (vsize (CubicSpline.m_points s1) - 2)) as (pl2 & ->);
    [lengths|]. cbn [bind].
  match goal with
  | |- context [vset r1 ?i ?x] =>
      destruct (vset_in_range r1 i x) as (r2 & -> & L2); [lengths|]
  end.
  cbn [bind].
  destruct (spline_looped_loop_defined (vsize (CubicSpline.m_points s1))
              d r2) as ([[r3 ce] re] & -> & L3); [lengths ..|].
  cbn [fst] in L3. cbn [bind].
  destruct (vget_in_range r3 (vsize (CubicSpline.m_points s1) - 1))
    as (x1 & ->); [lengths|]. cbn [bind].
  destruct (vget_in_range r3 (vsize (CubicSpline.m_points s1) - 2))
    as (x2 & ->); [lengths|]. cbn [bind].
  destruct (vget_in_range d (vsize (CubicSpline.m_points s1) - 2))
    as (x3 & ->); [lengths|]. cbn [bind].
  match goal with
  | |- context [vset r3 ?i ?x] =>
      destruct (vset_in_range r3 i x) as (r4 & -> & L4); [lengths|]
  end.
  cbn [bind].
  destruct (set_results_defined s1 d r4) as (s2 & E);
    [unfold CubicSpline.size; lengths ..|].
  unfold CubicSpline.size in E. rewrite E. cbn [bind].
  exists sc', s2. split; [reflexivity | exact Hr'].
Qed.

Lemma same_input_trans s1 s2 s3 :
  same_input s1 s2 -> same_input s2 s3 -> same_input s1 s3.
Proof. unfold same_input. intros [A1 B1] [A2 B2]. split; congruence. Qed.

Lemma solve_either_cases looped sc s sc' s' :
  solve_either looped sc s = Ok (sc', s') ->
  (CubicSpline.check_minimum_size s = Ok (s', true) /\ sc' = sc) \/
  (exists s1 d r,
      CubicSpline.check_minimum_size s = Ok (s1, false) /\
      CubicSpline.set_results s1 (CubicSpline.size s1) d r = Ok s').
Proof.
  unfold solve_either. destruct looped.
  - unfold CubicSpline.solve_looped. intros H.
    apply bind_ok in H as ([s1 fl] & Hc & H). cbv beta iota in H.
    destruct fl.
    + injection H as <- <-. now left.
    + right. cbv zeta in H. invert_binds H. injection H as _ <-.
      unfold CubicSpline.size. eauto.
  - unfold CubicSpline.solve_straight. intros H.
    apply bind_ok in H as ([s1 fl] & Hc & H). cbv beta iota in H.
    destruct fl.
    + injection H as <- <-. now left.
    + right. cbv zeta in H. invert_binds H. injection H as _ <-.
      unfold CubicSpline.size. eauto.
Qed.

Lemma for_each_defined {St A : Type} (body : St -> A -> result (St * A))
      (Inv : St -> Prop) (ok : A -> Prop) :
  (forall s x, Inv s -> ok x ->
               exists s' x', body s x = Ok (s', x') /\ Inv s') ->
  forall l s, Inv s -> Forall ok l ->
              exists s' l', for_each body s l = Ok (s', l') /\ Inv s'.
Proof.
  intros Hb. induction l as [|x t IH]; intros s Hs Hl.
  - exists s, []. now split.
  - inversion Hl as [|? ? Hx Ht]; subst.
    destruct (Hb s x Hs Hx) as (s1 & x' & E1 & Hs1).
    destruct (IH s1 Hs1 Ht) as (s2 & t' & E2 & Hs2).
    exists s2, (x' :: t'). cbn [for_each]. rewrite E1. cbn [bind].
    rewrite E2. cbn [bind]. now split.
Qed.

Lemma run_not_redimension sc p op sc' p' :
  is_redimension op = false ->
  CubicSplineN.uniform p ->
  CubicSplineN.run sc p op = Ok (sc', p') ->
  CubicSplineN.uniform p'.
Proof.
  intros Hop Hu. apply run_keeps_uniform; [exact Hu|].
  intros d ->. discriminate.
Qed.

Lemma run_all_keeps_uniform ops :
  forall sc p sc' p',
    Forall (fun op => is_redimension op = false) ops ->
    CubicSplineN.uniform p ->
    CubicSplineN.run_all sc p ops = Ok (sc', p') ->
    CubicSplineN.uniform p'.
Proof.
  induction ops as [|op rest IH]; intros sc p sc' p' Hf Hu H.
  - simpl in H. now injection H as _ <-.
  - inversion Hf as [|? ? Hop Hrest]; subst.
    cbn [CubicSplineN.run_all] in H.
    apply bind_ok in H as ([sc1 p1] & E & H). cbv beta iota in H.
    apply (IH sc1 p1 sc' p' Hrest); [|exact H].
    exact (run_not_redimension sc p op sc1 p1 Hop Hu E).
Qed.

(** X10.  A solve, open or closed, changes only coefficients: when it
    returns, the spline has as many points as before, every point has the
    value it had, and the spatial extent is the same. *)
Theorem solve_keeps_values (looped : bool) sc s sc' s' :
  solve_either looped sc s = Ok (sc', s') ->
  CubicSpline.size s' = CubicSpline.size s /\
  map CubicSpline.a (CubicSpline.m_points s')
  = map CubicSpline.a (CubicSpline.m_points s) /\
  CubicSpline.m_spatial_extent s' = CubicSpline.m_spatial_extent s.
Proof.
  intros H.
  assert (Hi : same_input s s').
  { apply solve_either_cases in H as [(Hc & _)|(s1 & d & r & Hc & Hr)].
    - exact (check_minimum_size_same_input s s' true Hc).
    - apply (same_input_trans s s1 s').
      + exact (check_minimum_size_same_input s s1 false Hc).
      + exact (proj2 (set_results_clean s1 s' d r Hr)). }
  destruct Hi as (Ha & He). split; [|split; assumption].
  unfold CubicSpline.size, vsize. f_equal.
  rewrite <- (length_map CubicSpline.a (CubicSpline.m_points s')).
  rewrite Ha. apply length_map.
Qed.

Lemma solve_keeps_values_witness :
  CubicSpline.size spline_0_10_0 = 3 /\
  map CubicSpline.a (CubicSpline.m_points spline_0_10_0)
  = [F32.of_Z 0; F32.of_Z 10; F32.of_Z 0] /\
  CubicSpline.m_spatial_extent spline_0_10_0 = F32.zero.
Proof.
  apply (solve_keeps_values false SplineSolutionCache.initial
           (spline_of [0; 10; 0]) cache_after_3 spline_0_10_0).
  vm_compute. reflexivity.
Defined.

(** X11.  A solve that goes through the linear system leaves no NaN
    coefficient (every b, c and d passes UNNAN); the only other outcome is
    the early return of [check_minimum_size], which leaves the cache
    alone. *)
Theorem solve_leaves_no_nan (looped : bool) sc s sc' s' :
  solve_either looped sc s = Ok (sc', s') ->
  Forall clean_point (CubicSpline.m_points s') \/
  (CubicSpline.check_minimum_size s = Ok (s', true) /\ sc' = sc).
Proof.
  intros H.
  apply solve_either_cases in H as [Hc|(s1 & d & r & Hc & Hr)].
  - now right.
  - left. exact (proj1 (set_results_clean s1 s' d r Hr)).
Qed.

Lemma solve_leaves_no_nan_witness :
  Forall clean_point (CubicSpline.m_points spline_0_10_0) \/
  (CubicSpline.check_minimum_size (spline_of [0; 10; 0])
   = Ok (spline_0_10_0, true) /\
   cache_after_3 = SplineSolutionCache.initial).
Proof.
  apply (solve_leaves_no_nan false SplineSolutionCache.initial
           (spline_of [0; 10; 0]) cache_after_3 spline_0_10_0).
  vm_compute. reflexivity.
Defined.

(** X12.  Solving a bundle returns: from a cache the program reaches, and
    with at least one point in every spline, [solve] is defined; it leaves
    a cache the program reaches and a bundle that is not dirty. *)
Theorem bundle_solve_returns sc p :
  reachable sc ->
  Forall (fun s => 1 <= CubicSpline.size s <= max_points)
         (CubicSplineN.m_splines p) ->
  exists sc' p',
    CubicSplineN.solve sc p = Ok (sc', p') /\
    reachable sc' /\ CubicSplineN.m_dirty p' = false.
Proof.
  intros Hr Hs. unfold CubicSplineN.solve.
  destruct (CubicSplineN.m_dirty p) eqn:Hd; cbn [negb].
  - destruct (CubicSplineN.loop p).
    + destruct (for_each_defined CubicSpline.solve_looped reachable
                  (fun s => 1 <= CubicSpline.size s <= max_points)
                  (fun c s Hc Hok => solve_looped_defined c s Hc Hok)
                  (CubicSplineN.m_splines p) sc Hr Hs)
        as (sc' & l' & -> & Hr').
      cbn [bind]. eexists _, _. split; [reflexivity|]. now split.
    + destruct (for_each_defined CubicSpline.solve_straight reachable
                  (fun s => 1 <= CubicSpline.size s <= max_points)
                  (fun c s Hc Hok => solve_straight_defined c s Hc Hok)
                  (CubicSplineN.m_splines p) sc Hr Hs)
        as (sc' & l' & -> & Hr').
      cbn [bind]. eexists _, _. split; [reflexivity|]. now split.
  - exists sc, p. now repeat split.
Qed.

Lemma bundle_solve_returns_witness :
  exists sc' p',
    CubicSplineN.solve SplineSolutionCache.initial closed_bundle
    = Ok (sc', p') /\
    reachable sc' /\ CubicSplineN.m_dirty p' = false.
Proof.
  apply (bundle_solve_returns SplineSolutionCache.initial closed_bundle).
  - exact reachable_initial.
  - repeat constructor; vm_compute; discriminate.
Defined.

(** X13.  The dirty flag: a solve that returns leaves the bundle not
    dirty, so that solving again at once changes neither the bundle nor
    the cache; and a bundle that is not dirty is returned as it is. *)
Theorem solve_twice_is_solve_once sc p sc' p' :
  CubicSplineN.solve sc p = Ok (sc', p') ->
  CubicSplineN.m_dirty p' = false /\
  CubicSplineN.solve sc' p' = Ok (sc', p') /\
  (CubicSplineN.m_dirty p = false -> sc' = sc /\ p' = p).
Proof.
  unfold CubicSplineN.solve.
  destruct (CubicSplineN.m_dirty p) eqn:Hd; cbn [negb]; intros H.
  - invert_binds H. injection H as <- <-.
    cbn [CubicSplineN.with_splines CubicSplineN.m_dirty negb].
    split; [reflexivity|]. split; [reflexivity|]. discriminate.
  - injection H as <- <-. rewrite Hd. cbn [negb].
    split; [reflexivity|]. split; [reflexivity|]. now split.
Qed.

Lemma solve_twice_is_solve_once_witness :
  CubicSplineN.m_dirty (snd closed_bundle_solved) = false /\
  CubicSplineN.solve (fst closed_bundle_solved) (snd closed_bundle_solved)
  = Ok (fst closed_bundle_solved, snd closed_bundle_solved).
Proof.
  refine ((fun H => conj (proj1 H) (proj1 (proj2 H)))
            (solve_twice_is_solve_once SplineSolutionCache.initial
               closed_bundle (fst closed_bundle_solved)
               (snd closed_bundle_solved) _)).
  vm_compute. reflexivity.
Defined.

(* ================================================================== *)
(** ** The bundle *)
(* ================================================================== *)

(** A loop that rewrites the members one after the other, each from its
    own former state. *)
Lemma members_loop_closed
      (body : Z -> list CubicSpline.t -> result (list CubicSpline.t))
      (R : Z -> CubicSpline.t -> CubicSpline.t -> Prop)
      (l l' : list CubicSpline.t) :
  (forall n splines r,
      body n splines = Ok r ->
      exists s s', vget splines n = Ok s /\ R n s s' /\
                   vset splines n s' = Ok r) ->
  for_range 0 (vsize l) body l = Ok l' ->
  length l' = length l /\
  forall n, 0 <= n < vsize l ->
            exists s s', vget l n = Ok s /\ R n s s' /\ vget l' n = Ok s'.
Proof.
  intros Hb H. unfold for_range in H.
  apply (for_loop_indexed
           (fun k cur =>
              length cur = length l /\
              (forall n, 0 <= n < k ->
                         exists s s', vget l n = Ok s /\ R n s s' /\
                                      vget cur n = Ok s') /\
              (forall n, k <= n -> vget cur n = vget l n))) in H.
  - destruct H as (Hl & Hdone & _). split; [exact Hl|].
    intros n Hn. apply Hdone. unfold vsize in *. lia.
  - split; [reflexivity|]. split; [intros n Hn; lia | reflexivity].
  - intros k cur r Hk (Hl & Hdone & Hrest) E.
    destruct (Hb k cur r E) as (s & s' & Hg & Hr & Hs).
    split; [rewrite <- Hl; exact (vset_length _ _ _ _ Hs)|]. split.
    + intros n Hn. destruct (Z.eq_dec n k) as [->|Hne].
      * exists s, s'. rewrite <- (Hrest k) by lia.
        split; [exact Hg|]. split; [exact Hr|].
        exact (vget_vset_same cur r k s' Hs).
      * destruct (Hdone n) as (y & y' & Y1 & Y2 & Y3); [lia|].
        exists y, y'. split; [exact Y1|]. split; [exact Y2|].
        now rewrite (vget_vset_other cur r k n s' Hs Hne).
    + intros n Hn.
      rewrite (vget_vset_other cur r k n s' Hs) by lia.
      apply Hrest. lia.
Qed.

Lemma firstn_repeat_min {A : Type} (x : A) (k m : nat) :
  firstn k (repeat x m) = repeat x (Nat.min k m).
Proof.
  revert m; induction k as [|k IH]; intros [|m]; simpl; try reflexivity.
  now rewrite IH.
Qed.

Lemma evaluate_onto_appends fuel lp t :
  forall splines v v',
    CubicSplineN.evaluate_onto fuel splines lp t v = Ok v' ->
    exists vals,
      v' = v ++ vals /\
      Forall2 (fun s x => CubicSpline.evaluate fuel s t lp = Ok x)
              splines vals.
Proof.
  induction splines as [|s rest IH]; intros v v' H.
  - simpl in H. injection H as <-. exists []. split; [|constructor].
    now rewrite app_nil_r.
  - cbn [CubicSplineN.evaluate_onto] in H.
    apply bind_ok in H as (x & Ex & H).
    destruct (IH _ _ H) as (vals & -> & F).
    exists (x :: vals). split; [now rewrite <- app_assoc|].
    now constructor.
Qed.

Lemma evaluate_derivative_onto_appends fuel lp t :
  forall splines v v',
    CubicSplineN.evaluate_derivative_onto fuel splines lp t v = Ok v' ->
    exists vals,
      v' = v ++ vals /\
      Forall2 (fun s x => CubicSpline.evaluate_derivative fuel s t lp = Ok x)
              splines vals.
Proof.
  induction splines as [|s rest IH]; intros v v' H.
  - simpl in H. injection H as <-. exists []. split; [|constructor].
    now rewrite app_nil_r.
  - cbn [CubicSplineN.evaluate_derivative_onto] in H.
    apply bind_ok in H as (x & Ex & H).
    destruct (IH _ _ H) as (vals & -> & F).
    exists (x :: vals). split; [now rewrite <- app_assoc|].
    now constructor.
Qed.

(** X14.  A bundle that is given its dimension once, right after its
    construction, keeps splines of equal size whatever is done to it
    afterwards, as long as it is not redimensioned again. *)
Theorem dimensioned_once_keeps_equal_sizes sc d ops sc' p' :
  Forall (fun op => is_redimension op = false) ops ->
  CubicSplineN.run_all sc CubicSplineN.initial
    (CubicSplineN.OpRedimension d :: ops) = Ok (sc', p') ->
  CubicSplineN.uniform p'.
Proof.
  intros Hops H. cbn [CubicSplineN.run_all CubicSplineN.run bind] in H.
  apply (run_all_keeps_uniform ops sc
           (CubicSplineN.redimension CubicSplineN.initial d) sc' p' Hops);
    [|exact H].
  apply redimension_uniform.
  - right. reflexivity.
  - intros s1 s2 [].
Qed.

Lemma dimensioned_once_keeps_equal_sizes_witness :
  CubicSplineN.uniform
    (CubicSplineN.resize
       (CubicSplineN.redimension CubicSplineN.initial 2) 3).
Proof.
  apply (dimensioned_once_keeps_equal_sizes SplineSolutionCache.initial 2
           [CubicSplineN.OpResize 3] SplineSolutionCache.initial).
  - repeat constructor.
  - reflexivity.
Defined.

(** Without looping, [evaluate] returns for every [t] that converts to
    [int]: every index it reads is inside the spline. *)
Lemma spline_evaluate_returns fuel s t flort :
  static_cast_int t = Ok flort ->
  exists x, CubicSpline.evaluate fuel s t false = Ok x.
Proof.
  intros Hc. unfold CubicSpline.evaluate.
  destruct (Z.eqb_spec (vsize (CubicSpline.m_points s)) 0) as [|Hne];
    [eauto|].
  pose proof (vsize_nonneg (CubicSpline.m_points s)) as H0.
  rewrite Hc. cbn [bind]. rewrite size_sub_1 by lia.
  destruct (Z.leb_spec flort 0).
  - destruct (vget_in_range (CubicSpline.m_points s) 0) as (p & ->);
      [lia | cbn [bind]; eauto].
  - unfold size_of_int.
    replace (0 <=? flort) with true by (symmetry; apply Z.leb_le; lia).
    destruct (Z.leb_spec (vsize (CubicSpline.m_points s) - 1) flort).
    + destruct (vget_in_range (CubicSpline.m_points s)
                  (vsize (CubicSpline.m_points s) - 1)) as (p & ->);
        [lia | cbn [bind]; eauto].
    + unfold CubicSpline.evaluate_segment, size_of_int.
      replace (0 <=? flort) with true by (symmetry; apply Z.leb_le; lia).
      rewrite size_sub_1 by lia.
      destruct (vget_in_range (CubicSpline.m_points s)
                  (Z.min flort (vsize (CubicSpline.m_points s) - 1)))
        as (p & ->); [lia | cbn [bind]; eauto].
Qed.

Lemma spline_evaluate_derivative_returns fuel s t flort :
  static_cast_int t = Ok flort ->
  exists x, CubicSpline.evaluate_derivative fuel s t false = Ok x.
Proof.
  intros Hc. unfold CubicSpline.evaluate_derivative.
  destruct (Z.eqb_spec (vsize (CubicSpline.m_points s)) 0) as [|Hne];
    [eauto|].
  pose proof (vsize_nonneg (CubicSpline.m_points s)) as H0.
  pose proof (static_cast_int_range t flort Hc) as Hr.
  unfold INT_MIN in Hr. change (- 2 ^ 31) with (-2147483648) in Hr.
  rewrite Hc. cbn [bind]. rewrite size_sub_1 by lia.
  destruct (vsize (CubicSpline.m_points s) - 1 <=? size_of_int flort);
    [eauto|].
  unfold CubicSpline.evaluate_derivative_segment.
  rewrite size_sub_1 by lia.
  assert (0 <= size_of_int flort).
  { unfold size_of_int, SIZE_MODULUS.
    change (2 ^ 64) with 18446744073709551616.
    destruct (Z.leb_spec 0 flort); lia. }
  destruct (vget_in_range (CubicSpline.m_points s)
              (Z.min (size_of_int flort)
                     (vsize (CubicSpline.m_points s) - 1)))
    as (p & ->); [lia | cbn [bind]; eauto].
Qed.

Lemma evaluate_onto_returns fuel lp t :
  forall splines v,
    Forall (fun s => exists x, CubicSpline.evaluate fuel s t lp = Ok x)
           splines ->
    exists v', CubicSplineN.evaluate_onto fuel splines lp t v = Ok v'.
Proof.
  induction splines as [|s rest IH]; intros v H.
  - simpl. eauto.
  - inversion H as [|? ? (x & Hx) Hrest]; subst.
    cbn [CubicSplineN.evaluate_onto]. rewrite Hx. cbn [bind].
    apply IH. exact Hrest.
Qed.

Lemma evaluate_derivative_onto_returns fuel lp t :
  forall splines v,
    Forall (fun s => exists x,
                CubicSpline.evaluate_derivative fuel s t lp = Ok x)
           splines ->
    exists v',
      CubicSplineN.evaluate_derivative_onto fuel splines lp t v = Ok v'.
Proof.
  induction splines as [|s rest IH]; intros v H.
  - simpl. eauto.
  - inversion H as [|? ? (x & Hx) Hrest]; subst.
    cbn [CubicSplineN.evaluate_derivative_onto]. rewrite Hx. cbn [bind].
    apply IH. exact Hrest.
Qed.

(** X15.  Without looping and for a [t] that converts to [int],
    evaluating a bundle returns: it pushes one value per dimension onto
    the vector it is given, in the order of the dimensions, each the
    value of that dimension's spline; what the vector held stays in
    front. *)
Theorem bundle_evaluate_appends fuel p t flort v :
  CubicSplineN.loop p = false ->
  static_cast_int t = Ok flort ->
  exists vals,
    CubicSplineN.evaluate fuel p t v = Ok (v ++ vals) /\
    vsize vals = CubicSplineN.dimension p /\
    Forall2 (fun s x => CubicSpline.evaluate fuel s t false = Ok x)
            (CubicSplineN.m_splines p) vals.
Proof.
  intros Hl Hc. unfold CubicSplineN.evaluate. rewrite Hl.
  destruct (evaluate_onto_returns fuel false t (CubicSplineN.m_splines p) v)
    as (v' & E).
  { apply Forall_forall. intros s _.
    exact (spline_evaluate_returns fuel s t flort Hc). }
  destruct (evaluate_onto_appends fuel false t _ _ _ E) as (vals & -> & F).
  exists vals. split; [exact E|]. split; [|exact F].
  unfold CubicSplineN.dimension, vsize. f_equal. symmetry.
  exact (Forall2_length F).
Qed.

Lemma bundle_evaluate_appends_witness :
  (exists vals,
      CubicSplineN.evaluate 0 two_by_three (F32.of_Z 1) [F32.of_Z 7]
      = Ok ([F32.of_Z 7] ++ vals) /\
      vsize vals = CubicSplineN.dimension two_by_three /\
      Forall2 (fun s x => CubicSpline.evaluate 0 s (F32.of_Z 1) false = Ok x)
              (CubicSplineN.m_splines two_by_three) vals) /\
  CubicSplineN.evaluate 0 two_by_three (F32.of_Z 1) [F32.of_Z 7]
  = Ok [F32.of_Z 7; F32.of_Z 10; F32.of_Z 2].
Proof.
  split.
  - apply (bundle_evaluate_appends 0 two_by_three (F32.of_Z 1) 1
             [F32.of_Z 7]).
    + reflexivity.
    + reflexivity.
  - vm_compute. reflexivity.
Defined.

(** X16.  Without looping and for a [t] that converts to [int],
    evaluating the derivative of a bundle returns: it pushes one value
    per dimension onto the vector it is given, in the order of the
    dimensions, each the derivative of that dimension's spline; what the
    vector held stays in front. *)
Theorem bundle_evaluate_derivative_appends fuel p t flort v :
  CubicSplineN.loop p = false ->
  static_cast_int t = Ok flort ->
  exists vals,
    CubicSplineN.evaluate_derivative fuel p t v = Ok (v ++ vals) /\
    vsize vals = CubicSplineN.dimension p /\
    Forall2 (fun s x =>
               CubicSpline.evaluate_derivative fuel s t false = Ok x)
            (CubicSplineN.m_splines p) vals.
Proof.
  intros Hl Hc. unfold CubicSplineN.evaluate_derivative. rewrite Hl.
  destruct (evaluate_derivative_onto_returns fuel false t
              (CubicSplineN.m_splines p) v) as (v' & E).
  { apply Forall_forall. intros s _.
    exact (spline_evaluate_derivative_returns fuel s t flort Hc). }
  destruct (evaluate_derivative_onto_appends fuel false t _ _ _ E)
    as (vals & -> & F).
  exists vals. split; [exact E|]. split; [|exact F].
  unfold CubicSplineN.dimension, vsize. f_equal. symmetry.
  exact (Forall2_length F).
Qed.

Lemma bundle_evaluate_derivative_appends_witness :
  (exists vals,
      CubicSplineN.evaluate_derivative 0 sloped_bundle F32.half [F32.of_Z 7]
      = Ok ([F32.of_Z 7] ++ vals) /\
      vsize vals = CubicSplineN.dimension sloped_bundle /\
      Forall2 (fun s x =>
                 CubicSpline.evaluate_derivative 0 s F32.half false = Ok x)
              (CubicSplineN.m_splines sloped_bundle) vals) /\
  CubicSplineN.evaluate_derivative 0 sloped_bundle F32.half [F32.of_Z 7]
  = Ok [F32.of_Z 7; F32.of_Z 1; F32.of_Z 2].
Proof.
  split.
  - apply (bundle_evaluate_derivative_appends 0 sloped_bundle F32.half 0
             [F32.of_Z 7]).
    + reflexivity.
    + reflexivity.
  - vm_compute. reflexivity.
Defined.

(** X17.  [resize] gives every spline of the bundle exactly the asked
    number of points, keeps the points that were there below that number,
    keeps the dimension and marks the bundle dirty; the bundle is then
    empty exactly when that number is 0 or it has no dimension. *)
Theorem resize_sets_every_size (p : CubicSplineN.t) (n : Z) :
  0 <= n ->
  let p' := CubicSplineN.resize p n in
  Forall (fun s => CubicSpline.size s = n) (CubicSplineN.m_splines p') /\
  Forall2 (fun s s' =>
             firstn (Z.to_nat n) (CubicSpline.m_points s')
             = firstn (Z.to_nat n)
                 (CubicSpline.m_points s
                    ++ repeat CubicSpline.zero_point (Z.to_nat n)) /\
             CubicSpline.m_spatial_extent s'
             = CubicSpline.m_spatial_extent s)
          (CubicSplineN.m_splines p) (CubicSplineN.m_splines p') /\
  CubicSplineN.dimension p' = CubicSplineN.dimension p /\
  CubicSplineN.m_dirty p' = true /\
  CubicSplineN.empty p'
  = (CubicSplineN.dimension p =? 0) || (n =? 0).
Proof.
  intros Hn p'. subst p'.
  unfold CubicSplineN.resize, CubicSplineN.empty, CubicSplineN.dimension.
  cbn [CubicSplineN.with_splines CubicSplineN.m_splines
         CubicSplineN.m_dirty].
  assert (Hsize : forall s, CubicSpline.size (CubicSpline.resize s n) = n).
  { intros s. unfold CubicSpline.resize, CubicSpline.size, vsize, vresize.
    cbn [CubicSpline.with_points CubicSpline.m_points].
    rewrite length_app, length_firstn, repeat_length. lia. }
  split; [|split; [|split; [|split]]].
  - apply Forall_forall. intros s Hs.
    apply in_map_iff in Hs as (y & <- & _). apply Hsize.
  - induction (CubicSplineN.m_splines p) as [|s rest IH]; constructor.
    + split; [|reflexivity].
      unfold CubicSpline.resize, vresize.
      cbn [CubicSpline.with_points CubicSpline.m_points].
      rewrite firstn_app, firstn_firstn, Nat.min_id, length_firstn.
      rewrite (firstn_app (Z.to_nat n) (CubicSpline.m_points s)).
      f_equal. rewrite !firstn_repeat_min. f_equal. lia.
    + exact IH.
  - unfold vsize. now rewrite length_map.
  - reflexivity.
  - unfold vsize.
    destruct (CubicSplineN.m_splines p) as [|s rest]; [reflexivity|].
    cbn [map length]. unfold CubicSpline.empty.
    fold (CubicSpline.size (CubicSpline.resize s n)). rewrite Hsize.
    now destruct (Z.of_nat (S (length rest))) eqn:E; [lia| |].
Qed.

Lemma resize_sets_every_size_witness :
  Forall (fun s => CubicSpline.size s = 5)
         (CubicSplineN.m_splines (CubicSplineN.resize two_by_three 5)).
Proof.
  apply (resize_sets_every_size two_by_three 5). lia.
Defined.

Lemma assert_m_ok (c : bool) (u : unit) : assert_m c = Ok u -> c = true.
Proof. destruct c; [reflexivity | discriminate]. Qed.

(** X18.  [set_point] of a bundle returns only when it is given one value
    per dimension; it has then set the point [i] of the spline of every
    dimension [n] to the value [v[n]], by that spline's own [set_point],
    kept the dimension and marked the bundle dirty. *)
Theorem bundle_set_point_members p i v p' :
  CubicSplineN.set_point p i v = Ok p' ->
  vsize v = CubicSplineN.dimension p /\
  CubicSplineN.dimension p' = CubicSplineN.dimension p /\
  CubicSplineN.m_dirty p' = true /\
  forall n, 0 <= n < CubicSplineN.dimension p ->
            exists s x s',
              vget (CubicSplineN.m_splines p) n = Ok s /\
              vget v n = Ok x /\
              CubicSpline.set_point s i x = Ok s' /\
              vget (CubicSplineN.m_splines p') n = Ok s'.
Proof.
  unfold CubicSplineN.set_point, CubicSplineN.dimension. intros H.
  apply bind_ok in H as (u & Ha & H). apply assert_m_ok in Ha.
  apply Z.eqb_eq in Ha.
  apply bind_ok in H as (l' & Hl & H). injection H as <-.
  cbn [CubicSplineN.with_splines CubicSplineN.m_splines
         CubicSplineN.m_dirty].
  apply (members_loop_closed _
           (fun n s s' => exists x, vget v n = Ok x /\
                                    CubicSpline.set_point s i x = Ok s'))
    in Hl.
  - destruct Hl as (Hlen & Hall).
    split; [exact Ha|]. split; [unfold vsize; now rewrite Hlen|].
    split; [reflexivity|].
    intros n Hn. destruct (Hall n Hn) as (s & s' & G & (x & X & S') & G').
    now exists s, x, s'.
  - intros n splines r Hb. invert_binds Hb. eauto 8.
Qed.

Lemma bundle_set_point_members_witness :
  exists p',
    CubicSplineN.set_point two_by_three 1 [F32.of_Z 4; F32.of_Z 5] = Ok p' /\
    vsize [F32.of_Z 4; F32.of_Z 5] = CubicSplineN.dimension two_by_three /\
    CubicSplineN.m_dirty p' = true.
Proof.
  eexists. split; [vm_compute; reflexivity|].
  refine ((fun H => conj (proj1 H) (proj1 (proj2 (proj2 H))))
            (bundle_set_point_members two_by_three 1
               [F32.of_Z 4; F32.of_Z 5] _ _)).
  vm_compute. reflexivity.
Defined.

(** X19.  [set_spatial_extent] on the dimension [i]: for an [i] that is
    no dimension it asserts, and so does [get_spatial_extent]; otherwise
    the extent it writes is what [get_spatial_extent] reads back for [i],
    the other dimensions read as before, no point of any spline changes
    and the bundle becomes dirty. *)
Theorem spatial_extent_set_then_get p i extent :
  match CubicSplineN.set_spatial_extent p i extent with
  | Ok p' =>
      0 <= i < CubicSplineN.dimension p /\
      CubicSplineN.get_spatial_extent p' i = Ok extent /\
      (forall j, j <> i ->
                 CubicSplineN.get_spatial_extent p' j
                 = CubicSplineN.get_spatial_extent p j) /\
      map CubicSpline.m_points (CubicSplineN.m_splines p')
      = map CubicSpline.m_points (CubicSplineN.m_splines p) /\
      CubicSplineN.m_dirty p' = true
  | AssertFailed =>
      CubicSplineN.dimension p <= i /\
      CubicSplineN.get_spatial_extent p i = AssertFailed
  | _ => i < 0
  end.
Proof.
  unfold CubicSplineN.dimension, CubicSplineN.set_spatial_extent,
    CubicSplineN.get_spatial_extent.
  destruct (Z.ltb_spec i (vsize (CubicSplineN.m_splines p))) as [Hlt|Hge];
    cbn [assert_m bind]; [|now split].
  destruct (vmodify (CubicSplineN.m_splines p) i _) as [l'| | |] eqn:Hl;
    cbn [bind].
  - cbn [CubicSplineN.with_splines CubicSplineN.m_splines
           CubicSplineN.m_dirty].
    pose proof (vmodify_length _ _ _ _ Hl) as Hlen.
    pose proof Hl as Hpts.
    apply (vmodify_map CubicSpline.m_points) in Hpts; [|reflexivity].
    unfold vmodify in Hl. apply bind_ok in Hl as (s & Hg & Hs).
    assert (Hsz : vsize l' = vsize (CubicSplineN.m_splines p))
      by (unfold vsize; now rewrite Hlen).
    rewrite Hsz. split; [|split; [|split; [|split]]].
    + apply vget_ok in Hg. lia.
    + replace (i <? vsize (CubicSplineN.m_splines p)) with true
        by (symmetry; apply Z.ltb_lt; lia).
      cbn [assert_m bind].
      now rewrite (vget_vset_same _ _ _ _ Hs).
    + intros j Hj. now rewrite (vget_vset_other _ _ _ j _ Hs Hj).
    + exact Hpts.
    + reflexivity.
  - unfold vmodify in Hl.
    destruct (Z.lt_ge_cases i 0) as [|H0]; [assumption|].
    destruct (vget_in_range (CubicSplineN.m_splines p) i) as (s & Hs);
      [lia|].
    rewrite Hs in Hl. cbn [bind] in Hl.
    destruct (vset_in_range (CubicSplineN.m_splines p) i
                {| CubicSpline.m_points := CubicSpline.m_points s;
                   CubicSpline.m_spatial_extent := extent |})
      as (v' & Hv & _); [lia|].
    rewrite Hv in Hl. discriminate.
  - unfold vmodify, vget, vset in Hl.
    destruct ((0 <=? i) && (i <? vsize (CubicSplineN.m_splines p)));
      [|discriminate].
    destruct (nth_error (CubicSplineN.m_splines p) (Z.to_nat i));
      discriminate.
  - unfold vmodify, vget, vset in Hl.
    destruct ((0 <=? i) && (i <? vsize (CubicSplineN.m_splines p)));
      [|discriminate].
    destruct (nth_error (CubicSplineN.m_splines p) (Z.to_nat i));
      discriminate.
Qed.

(* ================================================================== *)
(** ** The diagonals are good pivots *)
(* ================================================================== *)

Lemma pivot_orbit_closed (d : float) :
  In d pivot_orbit ->
  In (F32.sub F32.four (F32.div F32.one d)) pivot_orbit.
Proof.
  assert (H : forallb
                (fun d => existsb
                            (fun e => if F32.eq_dec
                                           (F32.sub F32.four
                                              (F32.div F32.one d)) e
                                      then true else false)
                            pivot_orbit)
                pivot_orbit = true) by (vm_compute; reflexivity).
  rewrite forallb_forall in H. intros Hd. specialize (H d Hd).
  apply existsb_exists in H as (e & He & Heq).
  destruct (F32.eq_dec _ e) as [->|]; [exact He | discriminate].
Qed.

Lemma pivot_orbit_usable (d : float) :
  In d pivot_orbit ->
  usable_pivot d = true /\
  usable_pivot (F32.sub F32.two (F32.div F32.one d)) = true.
Proof.
  assert (H : forallb
                (fun d => usable_pivot d
                          && usable_pivot
                               (F32.sub F32.two (F32.div F32.one d)))
                pivot_orbit = true) by (vm_compute; reflexivity).
  rewrite forallb_forall in H. intros Hd. specialize (H d Hd).
  now apply andb_true_iff in H.
Qed.

Lemma diag_after_orbit (k : nat) :
  forall d, In d pivot_orbit -> In (diag_after k d) pivot_orbit.
Proof.
  induction k as [|k IH]; intros d Hd; [exact Hd|].
  cbn [diag_after]. apply IH. now apply pivot_orbit_closed.
Qed.

Lemma diag_trail_usable (k : nat) :
  forall d, In d pivot_orbit ->
            Forall (fun x => usable_pivot x = true) (diag_trail k d).
Proof.
  induction k as [|k IH]; intros d Hd; cbn [diag_trail]; constructor.
  - now apply pivot_orbit_usable.
  - apply IH. now apply pivot_orbit_closed.
Qed.

Lemma edge_orbit_reached (k : nat) :
  In (turns code_turn k edge_start) edge_orbit.
Proof.
  unfold edge_orbit.
  destruct (Nat.le_gt_cases k settled) as [Hle|Hgt].
  - apply (in_map (fun j => turns code_turn j edge_start)).
    apply in_seq. lia.
  - replace k with (settled + (k - settled))%nat by lia.
    rewrite turns_add.
    rewrite (turns_fixed code_turn _ _ code_turn_settled).
    apply (in_map (fun j => turns code_turn j edge_start)).
    apply in_seq. lia.
Qed.

Lemma edge_orbit_usable (s : edge_state) :
  In s edge_orbit ->
  usable_pivot (es_diag s) = true /\ usable_pivot (final_last s) = true.
Proof.
  assert (H : forallb
                (fun s => usable_pivot (es_diag s)
                          && usable_pivot (final_last s))
                edge_orbit = true) by (vm_compute; reflexivity).
  rewrite forallb_forall in H. intros Hs. specialize (H s Hs).
  now apply andb_true_iff in H.
Qed.

(** One turn of lines 82-85 on the vector. *)
Lemma straight_turn (pre X : list float) (d y : float) :
  (di <- vget (pre ++ d :: y :: X) (Z.of_nat (length pre)) ;;
   dn <- vget (pre ++ d :: y :: X) (Z.of_nat (length pre) + 1) ;;
   vset (pre ++ d :: y :: X) (Z.of_nat (length pre) + 1)
     (F32.sub dn (F32.div F32.one di)))
  = Ok (pre ++ d :: F32.sub y (F32.div F32.one d) :: X).
Proof.
  rewrite (vget_app_here pre _ d) by reflexivity. cbn [bind].
  rewrite (app_cons_assoc pre _ d).
  rewrite (vget_app_here (pre ++ [d]) _ y)
    by (rewrite length_app; simpl; lia).
  cbn [bind].
  rewrite (vset_app_here (pre ++ [d]) _ _ y)
    by (rewrite length_app; simpl; lia).
  now rewrite <- (app_cons_assoc pre _ d).
Qed.

(** The loop of lines 82-85, [S j] turns from position [length pre]. *)
Lemma straight_loop_trail (j : nat) :
  forall (pre : list float) (d z : float),
    for_loop (S j) (Z.of_nat (length pre))
      (fun i diagonals =>
         di <- vget diagonals i ;;
         dn <- vget diagonals (i + 1) ;;
         vset diagonals (i + 1) (F32.sub dn (F32.div F32.one di)))
      (pre ++ d :: repeat F32.four j ++ [z])
    = Ok (pre ++ diag_trail j d
              ++ [diag_after j d;
                  F32.sub z (F32.div F32.one (diag_after j d))]).
Proof.
  induction j as [|j IH]; intros pre d z.
  - cbn [for_loop repeat app diag_trail diag_after].
    rewrite straight_turn. reflexivity.
  - remember (S j) as j' eqn:Hj. cbn [for_loop]. subst j'.
    cbn [repeat app]. rewrite straight_turn. cbn [bind].
    rewrite (app_cons_assoc pre _ d).
    replace (Z.of_nat (length pre) + 1)
      with (Z.of_nat (length (pre ++ [d])))
      by (rewrite length_app; simpl; lia).
    rewrite IH. cbn [diag_trail diag_after].
    now rewrite <- app_assoc.
Qed.

(** The open elimination in closed form, from 3 entries on. *)
Lemma straight_forward_closed (n : nat) :
  (3 <= n)%nat ->
  let d1 := F32.sub F32.four F32.half in
  let dl := diag_after (n - 3) d1 in
  straight_forward n
  = Ok (F32.two :: diag_trail (n - 3) d1
          ++ [dl; F32.sub F32.two (F32.div F32.one dl)]).
Proof.
  intros Hn d1 dl. unfold straight_forward, straight_init.
  replace (n - 2)%nat with (S (n - 3)) by lia. cbn [repeat app].
  change (F32.two :: F32.four :: repeat F32.four (n - 3) ++ [F32.two])
    with ([F32.two] ++ F32.four :: repeat F32.four (n - 3) ++ [F32.two]).
  rewrite (vget_app_here [F32.two] _ F32.four) by reflexivity.
  cbn [bind].
  rewrite (vset_app_here [F32.two] _ _ F32.four) by reflexivity.
  cbn [bind]. unfold for_range.
  replace (Z.to_nat (Z.of_nat n - 1 - 1)) with (S (n - 3)) by lia.
  pose proof (straight_loop_trail (n - 3) [F32.two] d1 F32.two) as L.
  cbn [length] in L. change (Z.of_nat 1) with 1 in L.
  fold d1. rewrite L. reflexivity.
Qed.

Lemma four_in_orbit : In F32.four pivot_orbit.
Proof. apply in_or_app. left. now left. Qed.

Lemma open_start_in_orbit : In (F32.sub F32.four F32.half) pivot_orbit.
Proof. apply in_or_app. right. now left. Qed.

Lemma straight_forward_usable (n : nat) (d : list float) :
  (2 <= n)%nat -> straight_forward n = Ok d ->
  Forall (fun x => usable_pivot x = true) d.
Proof.
  intros Hn H.
  destruct (Nat.eq_dec n 2) as [->|Hne].
  - vm_compute in H. injection H as <-. repeat constructor.
  - rewrite straight_forward_closed in H by lia. injection H as <-.
    constructor; [reflexivity|].
    apply Forall_app. split.
    + apply diag_trail_usable, open_start_in_orbit.
    + pose proof (diag_after_orbit (n - 3) _ open_start_in_orbit) as Hin.
      apply pivot_orbit_usable in Hin as [H1 H2].
      now repeat constructor.
Qed.

Lemma looped_forward_usable (n : nat) (d : list float) :
  (2 <= n)%nat -> looped_forward n = Ok d ->
  Forall (fun x => usable_pivot x = true) d.
Proof.
  intros Hn H. rewrite (looped_forward_closed n Hn) in H.
  injection H as <-. apply Forall_app. split.
  - apply diag_trail_usable, four_in_orbit.
  - pose proof (edge_orbit_reached (n - 2)) as Hin.
    apply edge_orbit_usable in Hin as [H1 H2].
    now repeat constructor.
Qed.

(** X20.  The diagonals of the open system are good pivots: from a cache
    the program reaches and for 2 entries or more, every entry of the
    vector that [solve_diagonals_straight] hands back lies above 1 and is
    at most 4, so that no later division by a diagonal is by zero, by an
    infinity or by NaN; the vector has the length asked for. *)
Theorem straight_diagonals_are_pivots sc out sc' d :
  reachable sc -> (2 <= length out)%nat ->
  solve_diagonals_straight sc out = Ok (sc', d) ->
  length d = length out /\
  Forall (fun x => usable_pivot x = true) d.
Proof.
  intros Hr Hn H. split.
  - exact (solve_diagonals_straight_length sc out sc' d H).
  - pose proof (solve_diagonals_straight_reachable sc out Hr) as E.
    rewrite H in E. cbn [diagonals_of bind] in E.
    rewrite straight_elimination_init in E
      by (rewrite repeat_length; exact Hn).
    rewrite repeat_length in E. symmetry in E.
    exact (straight_forward_usable (length out) d Hn E).
Qed.

Lemma straight_diagonals_are_pivots_witness :
  length diagonals_3 = 3%nat /\
  Forall (fun x => usable_pivot x = true) diagonals_3.
Proof.
  apply (straight_diagonals_are_pivots SplineSolutionCache.initial
           (repeat F32.zero 3) cache_after_3 diagonals_3).
  - exact reachable_initial.
  - simpl. lia.
  - vm_compute. reflexivity.
Defined.

(** X21.  The diagonals of the closed system are good pivots: from a
    cache the program reaches and for 2 entries or more, every entry of
    the vector that [solve_diagonals_looped] hands back lies above 1 and
    is at most 4; the vector has the length asked for. *)
Theorem looped_diagonals_are_pivots sc out sc' d :
  reachable sc -> (2 <= length out)%nat ->
  solve_diagonals_looped sc out = Ok (sc', d) ->
  length d = length out /\
  Forall (fun x => usable_pivot x = true) d.
Proof.
  intros Hr Hn H. split.
  - exact (solve_diagonals_looped_length sc out sc' d H).
  - pose proof (solve_diagonals_looped_reachable sc out Hr) as E.
    rewrite H in E. cbn [diagonals_of bind] in E.
    rewrite looped_elimination_init in E
      by (rewrite repeat_length; lia).
    rewrite repeat_length in E. symmetry in E.
    exact (looped_forward_usable (length out) d Hn E).
Qed.

Lemma looped_diagonals_are_pivots_witness :
  exists sc' d,
    solve_diagonals_looped SplineSolutionCache.initial (repeat F32.zero 5)
    = Ok (sc', d) /\
    length d = 5%nat /\
    Forall (fun x => usable_pivot x = true) d.
Proof.
  eexists _, _. split; [vm_compute; reflexivity|].
  refine (looped_diagonals_are_pivots SplineSolutionCache.initial
            (repeat F32.zero 5) _ _ reachable_initial _ _).
  - simpl. lia.
  - vm_compute. reflexivity.
Defined.

Lemma vget_ext {A : Type} (l1 l2 : list A) :
  length l1 = length l2 ->
  (forall n, 0 <= n < vsize l1 -> vget l1 n = vget l2 n) ->
  l1 = l2.
Proof.
  intros Hl H. apply nth_error_ext. intros k.
  destruct (Nat.lt_ge_cases k (length l1)) as [Hk|Hk].
  - specialize (H (Z.of_nat k)). unfold vget, vsize in H.
    rewrite <- Hl in H.
    replace ((0 <=? Z.of_nat k) && (Z.of_nat k <? Z.of_nat (length l1)))
      with true in H by (symmetry; apply andb_true_iff; split; lia).
    rewrite Nat2Z.id in H.
    destruct (nth_error l1 k) eqn:E1, (nth_error l2 k) eqn:E2.
    + assert (Ok a = Ok a0) as [= ->] by (apply H; lia). reflexivity.
    + apply nth_error_None in E2. lia.
    + apply nth_error_None in E1. lia.
    + reflexivity.
  - rewrite (proj2 (nth_error_None l1 k)) by lia.
    now rewrite (proj2 (nth_error_None l2 k)) by lia.
Qed.

Lemma spline_set_then_get (s s' : CubicSpline.t) (i : Z) (vb vc vd : float) :
  CubicSpline.set_coefficients s i vb vc vd = Ok s' ->
  CubicSpline.get_coefficients s' i = Ok (vb, vc, vd).
Proof.
  unfold CubicSpline.set_coefficients, CubicSpline.get_coefficients.
  intros H. apply bind_ok in H as (u & Ha & H). apply assert_m_ok in Ha.
  apply bind_ok in H as (pts & Hm & H). injection H as <-.
  cbn [CubicSpline.with_points CubicSpline.m_points].
  pose proof (vmodify_length _ _ _ _ Hm) as Hl.
  unfold vmodify in Hm. apply bind_ok in Hm as (p & Hg & Hs).
  unfold vsize in *. rewrite Hl, Ha. cbn [assert_m bind].
  now rewrite (vget_vset_same _ _ _ _ Hs).
Qed.

Lemma set_coefficients_members p i vb vc vd p' :
  CubicSplineN.set_coefficients p i vb vc vd = Ok p' ->
  (vsize vb = CubicSplineN.dimension p /\
   vsize vc = CubicSplineN.dimension p /\
   vsize vd = CubicSplineN.dimension p) /\
  CubicSplineN.dimension p' = CubicSplineN.dimension p /\
  CubicSplineN.m_dirty p' = true /\
  forall n, 0 <= n < CubicSplineN.dimension p ->
            exists s xb xc xd s',
              vget (CubicSplineN.m_splines p) n = Ok s /\
              vget vb n = Ok xb /\ vget vc n = Ok xc /\ vget vd n = Ok xd /\
              CubicSpline.set_coefficients s i xb xc xd = Ok s' /\
              vget (CubicSplineN.m_splines p') n = Ok s'.
Proof.
  unfold CubicSplineN.set_coefficients, CubicSplineN.dimension. intros H.
  apply bind_ok in H as (u & Ha & H). apply assert_m_ok in Ha.
  apply andb_true_iff in Ha as (Ha & H3).
  apply andb_true_iff in Ha as (H1 & H2).
  apply Z.eqb_eq in H1, H2, H3.
  apply bind_ok in H as (l' & Hl & H). injection H as <-.
  cbn [CubicSplineN.with_splines CubicSplineN.m_splines
         CubicSplineN.m_dirty].
  apply (members_loop_closed _
           (fun n s s' =>
              exists xb xc xd,
                vget vb n = Ok xb /\ vget vc n = Ok xc /\
                vget vd n = Ok xd /\
                CubicSpline.set_coefficients s i xb xc xd = Ok s'))
    in Hl.
  - destruct Hl as (Hlen & Hall).
    split; [repeat split; congruence|].
    split; [unfold vsize; now rewrite Hlen|].
    split; [reflexivity|].
    intros n Hn.
    destruct (Hall n Hn)
      as (s & s' & G & (xb & xc & xd & B & C & D & S') & G').
    now exists s, xb, xc, xd, s'.
  - intros n splines r Hb. invert_binds Hb.
    do 2 eexists. split; [eassumption|]. split; [|eassumption].
    do 3 eexists. repeat split; eassumption.
Qed.

(** X22.  What [set_coefficients] of a bundle writes for the point [i],
    [get_coefficients] reads back: given any three vectors with one entry
    per dimension, it fills them with the three vectors that were set. *)
Theorem bundle_coefficients_set_then_get p i vb vc vd p' wb wc wd :
  CubicSplineN.set_coefficients p i vb vc vd = Ok p' ->
  vsize wb = CubicSplineN.dimension p ->
  vsize wc = CubicSplineN.dimension p ->
  vsize wd = CubicSplineN.dimension p ->
  CubicSplineN.get_coefficients p' i wb wc wd = Ok (vb, vc, vd).
Proof.
  intros H Hb Hc Hd.
  apply set_coefficients_members in H
    as ((Lb & Lc & Ld) & Hdim & _ & Hall).
  unfold CubicSplineN.get_coefficients.
  unfold CubicSplineN.dimension in *.
  replace ((vsize wb =? vsize wc) && (vsize wc =? vsize wd)
           && (vsize wd =? vsize (CubicSplineN.m_splines p')))
    with true
    by (symmetry; rewrite !andb_true_iff, !Z.eqb_eq; lia).
  cbn [assert_m bind].
  match goal with
  | |- for_range _ _ ?body _ = _ =>
      destruct (for_range_inv body
                  (fun k st =>
                     let '(xb, xc, xd) := st in
                     (length xb = length vb /\ length xc = length vc /\
                      length xd = length vd) /\
                     forall n, 0 <= n < k ->
                               vget xb n = vget vb n /\
                               vget xc n = vget vc n /\
                               vget xd n = vget vd n)
                  0 (vsize (CubicSplineN.m_splines p')) (wb, wc, wd))
      as ([[rb rc] rd] & E & (Lr1 & Lr2 & Lr3) & Hr)
  end.
  - apply vsize_nonneg.
  - split; [unfold vsize in *; lia|]. intros n Hn. lia.
  - intros k [[xb xc] xd] Hk ((L1 & L2 & L3) & Hdone).
    destruct (Hall k) as (s & yb & yc & yd & s' & G & B & C & D & S' & G');
      [lia|].
    rewrite G'. cbn [bind].
    rewrite (spline_set_then_get s s' i yb yc yd S'). cbn [bind].
    destruct (vset_in_range xb k yb) as (zb & Eb & Zb);
      [unfold vsize in *; lia|].
    destruct (vset_in_range xc k yc) as (zc & Ec & Zc);
      [unfold vsize in *; lia|].
    destruct (vset_in_range xd k yd) as (zd & Ed & Zd);
      [unfold vsize in *; lia|].
    rewrite Eb. cbn [bind]. rewrite Ec. cbn [bind]. rewrite Ed.
    cbn [bind]. eexists. split; [reflexivity|].
    split; [repeat split; congruence|].
    intros n Hn. destruct (Z.eq_dec n k) as [->|Hne].
    + rewrite (vget_vset_same _ _ _ _ Eb), (vget_vset_same _ _ _ _ Ec),
        (vget_vset_same _ _ _ _ Ed).
      now rewrite B, C, D.
    + rewrite (vget_vset_other _ _ _ n _ Eb Hne),
        (vget_vset_other _ _ _ n _ Ec Hne),
        (vget_vset_other _ _ _ n _ Ed Hne).
      apply Hdone. lia.
  - rewrite E. f_equal. f_equal; [f_equal|].
    + apply vget_ext; [exact Lr1|]. intros n Hn. apply Hr.
      unfold vsize in *. lia.
    + apply vget_ext; [exact Lr2|]. intros n Hn. apply Hr.
      unfold vsize in *. lia.
    + apply vget_ext; [exact Lr3|]. intros n Hn. apply Hr.
      unfold vsize in *. lia.
Qed.

Lemma bundle_coefficients_set_then_get_witness :
  exists p',
    CubicSplineN.set_coefficients two_by_three 1
      [F32.of_Z 4; F32.of_Z 5] [F32.of_Z 6; F32.of_Z 7]
      [F32.of_Z 8; F32.of_Z 9] = Ok p' /\
    CubicSplineN.get_coefficients p' 1
      [F32.zero; F32.zero] [F32.zero; F32.zero] [F32.zero; F32.zero]
    = Ok ([F32.of_Z 4; F32.of_Z 5], [F32.of_Z 6; F32.of_Z 7],
          [F32.of_Z 8; F32.of_Z 9]).
Proof.
  eexists. split; [vm_compute; reflexivity|].
  apply (bundle_coefficients_set_then_get two_by_three 1).
  - vm_compute. reflexivity.
  - reflexivity.
  - reflexivity.
  - reflexivity.
Defined.
